(** * Test-data lifecycle of the Playwright automation template

    A shallow embedding of the three data-management classes of the
    repository and the properties their specification states about them:

    - [Factory]: [FactoryManager] (src/core/data/factory.manager.ts),
      factories with hooks and cleanup-strategy buckets;
    - [Seeder]: [DatabaseSeeder], dependency-ordered database seeding;
    - [Fixture]: [FixtureManager], fixture loading and unloading.

    JavaScript [Map]s and [Set]s are finite maps and sets ([gmap], [gset]);
    awaited callbacks of the test author are values that say what the
    callback does when it is invoked. Code that awaits one thing at a time
    ([create], [cleanup], [seed], [unload]) is a sequential function on the
    state, for a call that runs alone. [load] starts several calls before
    it awaits them, so it runs on an event loop: promises, their reactions
    and a microtask queue, with the continuations of [load] after each
    [await] as reactions. *)

From Stdlib Require Import QArith Qround.
From stdpp Require Import base option strings list gmap fin_maps fin_sets relations.

Close Scope Q_scope.

(* stdpp's solvers clear hypotheses that are already gone. *)
#[global] Set Warnings "-clear-no-such-hyp".

Open Scope string_scope.
Open Scope list_scope.

(** What a call produces: a value, or the exception it throws. *)
Inductive Result (E A : Type) : Type :=
| Ok (a : A)
| Throw (e : E).
Arguments Ok {E A} a.
Arguments Throw {E A} e.

(* ================================================================== *)
(** ** FactoryManager *)
(* ================================================================== *)

Module Factory.

(** [CleanupStrategy] of data.types.ts. *)
Inductive CleanupStrategy : Type := afterTest | afterSuite | afterAll | manual.

#[global] Instance CleanupStrategy_eq_dec : EqDecision CleanupStrategy.
Proof. solve_decision. Defined.

(** Field values of an entity ([Record<string, any>]). *)
Inductive Value : Type :=
| VStr (s : string)
| VNum (n : Z)
| VBool (b : bool).

(** An attribute object; [create] casts it to the entity
    ([const entity = attributes as T]). *)
Abbreviation Attributes := (gmap string Value).
Abbreviation Entity := (gmap string Value).

Inductive Error : Type :=
| FactoryNotFound (entityName : string)
| HookError (message : string).

(** [FactoryDefinition]: the generator is re-invoked on every creation; a
    hook either returns or throws. [beforeCreate] gives the attributes it
    returns. [afterCreate] is handed the object that [create] goes on to
    track and to return, and the value it returns is dropped: it gives the
    entity as the hook leaves it (the same one when the hook does not
    change its argument). A hook is given by what it returns; what a hook
    does with the manager itself (a creation of its own) is not part of
    it: [create_amid] below has that. *)
Record FactoryDefinition : Type := {
  entity : string;
  cleanupStrategy : option CleanupStrategy;
  attributes : unit -> Attributes;
  beforeCreate : option (Attributes -> Result Error Attributes);
  afterCreate : option (Entity -> Result Error Entity)
}.

(** [FactoryOptions]; [cleanup] and [count] are never read by the manager. *)
Record FactoryOptions : Type := {
  transient : option bool;
  opt_attributes : option Attributes
}.

(** The manager's fields: [factories] and the two maps of [TestDataState]. *)
Record State : Type := {
  factories : gmap string FactoryDefinition;
  entities : gmap string (list Entity);
  cleanupStrategies : gmap string CleanupStrategy
}.

Definition empty : State :=
  {| factories := ∅; entities := ∅; cleanupStrategies := ∅ |}.

(** The strategy a definition declares:
    [definition.cleanupStrategy || 'afterTest']. *)
Definition declared_strategy (definition : FactoryDefinition) : CleanupStrategy :=
  default afterTest (cleanupStrategy definition).

(** [define]: registers the definition and its strategy. *)
Definition define (definition : FactoryDefinition) (st : State) : State :=
  {| factories := <[entity definition := definition]> (factories st);
     entities := entities st;
     cleanupStrategies :=
       <[entity definition := declared_strategy definition]> (cleanupStrategies st) |}.

(** [trackEntity]: creates the bucket when it is missing, then pushes. *)
Definition trackEntity (entityName : string) (e : Entity) (st : State) : State :=
  {| factories := factories st;
     entities :=
       <[entityName := default [] (entities st !! entityName) ++ [e]]> (entities st);
     cleanupStrategies := cleanupStrategies st |}.

(** [{ ...attributes, ...options.attributes }]: the override wins key by key. *)
Definition spread (attrs overrides : Attributes) : Attributes := overrides ∪ attrs.

Definition run_beforeCreate (f : FactoryDefinition) (attrs : Attributes)
  : Result Error Attributes :=
  match beforeCreate f with
  | Some hook => hook attrs
  | None => Ok attrs
  end.

Definition run_afterCreate (f : FactoryDefinition) (e : Entity) : Result Error Entity :=
  match afterCreate f with
  | Some hook => hook e
  | None => Ok e
  end.

(** The attributes handed to the pre-create hook: the generated defaults,
    overridden by [options.attributes] when they are given. *)
Definition merged_attributes (factory : FactoryDefinition) (options : FactoryOptions)
  : Attributes :=
  let attrs := attributes factory tt in
  match opt_attributes options with
  | Some over => spread attrs over
  | None => attrs
  end.

(** [create]: the statements of the [try] block in their order; the [catch]
    logs and rethrows, so a throwing hook ends the call where it throws. *)
Definition create (entityName : string) (options : FactoryOptions) (st : State)
  : Result Error Entity * State :=
  match factories st !! entityName with
  | None => (Throw (FactoryNotFound entityName), st)
  | Some factory =>
    match run_beforeCreate factory (merged_attributes factory options) with
    | Throw e => (Throw e, st)
    | Ok attrs =>
      match run_afterCreate factory attrs with
      | Throw e => (Throw e, st)
      | Ok created =>
        if default false (transient options)
        then (Ok created, st)
        else (Ok created, trackEntity entityName created st)
      end
    end
  end.

(** [create] when its callbacks do not leave the manager alone. A callback
    is a closure of the test author: [beforeCreate] of the project factory
    creates a user through the manager, and while a hook is awaited other
    tasks of the test run. The three functions say what has happened to
    the manager when the generator has returned and when the awaited hook
    has settled; a hook that is not defined is not awaited. [create] is
    the case in which nothing happens to it. *)
Section callbacks.

Variables (while_attributes while_beforeCreate while_afterCreate : State -> State).

Definition create_amid (entityName : string) (options : FactoryOptions) (st : State)
  : Result Error Entity * State :=
  match factories st !! entityName with
  | None => (Throw (FactoryNotFound entityName), st)
  | Some factory =>
    let st := while_attributes st in
    let st := match beforeCreate factory with
              | Some _ => while_beforeCreate st
              | None => st
              end in
    match run_beforeCreate factory (merged_attributes factory options) with
    | Throw e => (Throw e, st)
    | Ok attrs =>
      let st := match afterCreate factory with
                | Some _ => while_afterCreate st
                | None => st
                end in
      match run_afterCreate factory attrs with
      | Throw e => (Throw e, st)
      | Ok created =>
        if default false (transient options)
        then (Ok created, st)
        else (Ok created, trackEntity entityName created st)
      end
    end
  end.

End callbacks.

(** The turns of [for (let i = 0; i < count; i++)]: one for each of
    [i = 0, 1, 2, ...] below [count]. [count] is a number, not
    necessarily a whole one: [2.5] gives three turns, zero or a negative
    number none. (The numbers are the finite ones: the loop does no turn
    for [NaN] and has no end for [Infinity].) *)
Definition turns (count : Q) : nat := Z.to_nat (Qceiling count).

(** [turns] sequential creations, stopping at the first throw. *)
Fixpoint create_each (turns : nat) (entityName : string) (options : FactoryOptions)
  (st : State) : Result Error (list Entity) * State :=
  match turns with
  | 0 => (Ok [], st)
  | S n =>
    match create entityName options st with
    | (Throw e, st1) => (Throw e, st1)
    | (Ok e, st1) =>
      match create_each n entityName options st1 with
      | (Throw err, st2) => (Throw err, st2)
      | (Ok es, st2) => (Ok (e :: es), st2)
      end
    end
  end.

(** [createMany]: the loop over [i < count]. *)
Definition createMany (entityName : string) (count : Q) (options : FactoryOptions)
  (st : State) : Result Error (list Entity) * State :=
  create_each (turns count) entityName options st.

(** One turn of the loop of [cleanup]: [cleanupEntities] only logs, then the
    bucket is deleted when the recorded strategy is the requested one. *)
Definition cleanup_entry (strategy : CleanupStrategy) (st : State)
  (entry : string * list Entity) : State :=
  if decide (cleanupStrategies st !! entry.1 = Some strategy)
  then {| factories := factories st;
          entities := delete entry.1 (entities st);
          cleanupStrategies := cleanupStrategies st |}
  else st.

(** [cleanup]: the loop over [this.state.entities.entries()]. Deleting the
    entry being visited does not disturb a [Map] iterator, so the loop runs
    over the entries the map had at the call. *)
Definition cleanup (strategy : CleanupStrategy) (st : State) : State :=
  foldl (cleanup_entry strategy) st (map_to_list (entities st)).

(** [reset] clears the tracked entities and the strategies, not the factories. *)
Definition reset (st : State) : State :=
  {| factories := factories st; entities := ∅; cleanupStrategies := ∅ |}.

(** The strategy recorded for every defined entity type is the one its
    definition declares (so it is in every state reached without [reset]). *)
Definition strategies_recorded (st : State) : Prop :=
  ∀ e d, factories st !! e = Some d ->
    cleanupStrategies st !! e = Some (declared_strategy d).

(** The bucket of an entity type ([[]] when there is none). *)
Definition bucket (entityName : string) (st : State) : list Entity :=
  default [] (entities st !! entityName).

(** *** A concrete registry: a [user] factory whose post-create hook fails *)

Definition user_attrs : Attributes := {[ "name" := VStr "x" ]}.

Definition failing_after : FactoryDefinition :=
  {| entity := "user"; cleanupStrategy := Some afterTest;
     attributes := fun _ => user_attrs;
     beforeCreate := None;
     afterCreate := Some (fun _ => Throw (HookError "afterCreate failed")) |}.

Definition failing_before : FactoryDefinition :=
  {| entity := "user"; cleanupStrategy := Some afterTest;
     attributes := fun _ => user_attrs;
     beforeCreate := Some (fun _ => Throw (HookError "beforeCreate failed"));
     afterCreate := None |}.

Definition plain (name : string) (s : CleanupStrategy) : FactoryDefinition :=
  {| entity := name; cleanupStrategy := Some s;
     attributes := fun _ => user_attrs;
     beforeCreate := None; afterCreate := None |}.

Definition persistent : FactoryOptions :=
  {| transient := Some false; opt_attributes := None |}.

(** *** Properties *)

Lemma define_records_strategy definition st :
  cleanupStrategies (define definition st) !! entity definition
  = Some (declared_strategy definition).
Proof. unfold define; simpl. apply lookup_insert_eq. Qed.

Lemma strategies_recorded_empty : strategies_recorded empty.
Proof. intros e d H. simpl in H. by rewrite lookup_empty in H. Qed.

Lemma strategies_recorded_define definition st :
  strategies_recorded st -> strategies_recorded (define definition st).
Proof.
  intros Hrec e d. unfold define; simpl.
  destruct (decide (entity definition = e)) as [<-|Hne].
  - rewrite !lookup_insert_eq. by intros [= <-].
  - rewrite !lookup_insert_ne by done. apply Hrec.
Qed.

Lemma create_known_factories entityName options st :
  factories (create entityName options st).2 = factories st
  ∧ cleanupStrategies (create entityName options st).2 = cleanupStrategies st.
Proof.
  unfold create.
  destruct (factories st !! entityName) as [f|]; [|done].
  destruct (run_beforeCreate f _) as [a|e]; [|done].
  destruct (run_afterCreate f a) as [u|e]; [|done].
  destruct (default false (transient options)); done.
Qed.

Lemma strategies_recorded_create entityName options st :
  strategies_recorded st -> strategies_recorded (create entityName options st).2.
Proof.
  intros Hrec e d. destruct (create_known_factories entityName options st) as [-> ->].
  apply Hrec.
Qed.

(** A successful creation that is not transient is the last record of its
    bucket; the other buckets are as before. *)
Lemma create_tracks entityName options st e st' :
  create entityName options st = (Ok e, st') ->
  default false (transient options) = false ->
  bucket entityName st' = bucket entityName st ++ [e]
  ∧ ∀ other, other ≠ entityName -> entities st' !! other = entities st !! other.
Proof.
  unfold create, bucket. intros Hc Ht.
  destruct (factories st !! entityName) as [f|]; [|done].
  destruct (run_beforeCreate f _) as [a|err]; [|done].
  destruct (run_afterCreate f a) as [u|err]; [|done].
  rewrite Ht in Hc. injection Hc as <- <-. simpl. split.
  - by rewrite lookup_insert_eq.
  - intros other Hne. by rewrite lookup_insert_ne.
Qed.

(** The post-create hook of [failing_after] throws: the call rethrows and
    the [user] bucket holds no record, although the creation was not
    transient. *)
Lemma create_after_hook_throw_not_tracked :
  let st := define failing_after empty in
  create "user" persistent st = (Throw (HookError "afterCreate failed"), st)
  ∧ bucket "user" (create "user" persistent st).2 = []
  ∧ entities (create "user" persistent st).2 !! "user" = None.
Proof. vm_compute. done. Qed.

(** [create] is [create_amid] for callbacks that leave the manager
    alone. *)
Lemma create_amid_alone entityName options st :
  create_amid id id id entityName options st = create entityName options st.
Proof.
  unfold create_amid, create.
  destruct (factories st !! entityName) as [f|]; [|done].
  by destruct (beforeCreate f), (afterCreate f).
Qed.

(** C3 (as the code has it): when the pre-create or the post-create hook
    throws, [create] rethrows the error and has tracked nothing:
    [trackEntity] comes after both hooks, so the manager is as the
    callbacks that ran have left it, whatever they do with it. After a
    throwing pre-create hook that is the state in which that hook
    settled (the post-create hook is not awaited); after a throwing
    post-create hook, the state in which the post-create hook settled. *)
Theorem create_hook_throw_tracks_nothing
    (while_attributes while_beforeCreate while_afterCreate : State -> State)
    entityName options st factory e :
  factories st !! entityName = Some factory ->
  (run_beforeCreate factory (merged_attributes factory options) = Throw e ->
   create_amid while_attributes while_beforeCreate while_afterCreate
     entityName options st
   = (Throw e, while_beforeCreate (while_attributes st)))
  ∧ (∀ attrs,
       run_beforeCreate factory (merged_attributes factory options) = Ok attrs ->
       run_afterCreate factory attrs = Throw e ->
       create_amid while_attributes while_beforeCreate while_afterCreate
         entityName options st
       = (Throw e,
          while_afterCreate
            match beforeCreate factory with
            | Some _ => while_beforeCreate (while_attributes st)
            | None => while_attributes st
            end)).
Proof.
  intros Hf. unfold create_amid. rewrite Hf. split.
  - intros Hb. rewrite Hb. unfold run_beforeCreate in Hb.
    by destruct (beforeCreate factory).
  - intros attrs Hb Ha. rewrite Hb, Ha. unfold run_afterCreate in Ha.
    by destruct (afterCreate factory).
Qed.

(** A post-create hook that creates a [profile] through the manager and
    then throws: the profile is tracked, the user is not. *)
Lemma create_hook_throw_tracks_nothing_witness :
  let hook_creates := fun st => (create "profile" persistent st).2 in
  let after := define failing_after (define (plain "profile" afterTest) empty) in
  let before := define failing_before empty in
  create_amid id id hook_creates "user" persistent after
  = (Throw (HookError "afterCreate failed"), trackEntity "profile" user_attrs after)
  ∧ create_amid id id id "user" persistent before
    = (Throw (HookError "beforeCreate failed"), before).
Proof.
  intros hook_creates after before. split.
  - exact (proj2 (create_hook_throw_tracks_nothing id id hook_creates
                    "user" persistent after failing_after
                    (HookError "afterCreate failed") eq_refl)
             user_attrs eq_refl eq_refl).
  - exact (proj1 (create_hook_throw_tracks_nothing id id id
                    "user" persistent before failing_before
                    (HookError "beforeCreate failed") eq_refl)
             eq_refl).
Defined.

(** *** [cleanup] *)

(** Scenario 1 of the specification: three [user] records are created and
    tracked, and [cleanup afterTest] leaves no [user] bucket. *)
Example three_users_then_cleanup :
  let st0 := define (plain "user" afterTest) empty in
  let '(_, st3) := createMany "user" 3 persistent st0 in
  length (bucket "user" st3) = 3
  ∧ entities (cleanup afterTest st3) !! "user" = None.
Proof. vm_compute. done. Qed.

Lemma cleanup_entry_fields s st entry :
  factories (cleanup_entry s st entry) = factories st
  ∧ cleanupStrategies (cleanup_entry s st entry) = cleanupStrategies st.
Proof. unfold cleanup_entry. by case_decide. Qed.

Lemma cleanup_loop_spec s (l : list (string * list Entity)) st :
  factories (foldl (cleanup_entry s) st l) = factories st
  ∧ cleanupStrategies (foldl (cleanup_entry s) st l) = cleanupStrategies st
  ∧ ∀ k, entities (foldl (cleanup_entry s) st l) !! k
         = if decide (k ∈ l.*1 ∧ cleanupStrategies st !! k = Some s)
           then None else entities st !! k.
Proof.
  revert st. induction l as [|[k0 v0] l IH]; intros st; cbn [foldl].
  - split_and!; [done..|]. intros k.
    destruct (decide _) as [[H _]|]; [|done]. by apply elem_of_nil in H.
  - destruct (IH (cleanup_entry s st (k0, v0))) as (Hf & Hs & He).
    destruct (cleanup_entry_fields s st (k0, v0)) as [Hf0 Hs0].
    split_and!; [congruence..|]. intros k. rewrite He, Hs0.
    unfold cleanup_entry; simpl.
    destruct (decide (k = k0)) as [->|Hne];
      repeat (case_decide; simpl);
      rewrite ?lookup_delete_eq, ?lookup_delete_ne by done; try done;
      exfalso; set_solver.
Qed.

(** C9 as it is stated fails after [reset]: [user] is defined with
    [afterTest], the manager is reset, a [user] is created and tracked;
    [cleanup afterTest] leaves its bucket, because [reset] has cleared the
    recorded strategies and kept the factories. *)
Lemma cleanup_after_reset_keeps_bucket :
  let user := plain "user" afterTest in
  let st := (create "user" persistent (reset (define user empty))).2 in
  factories st !! "user" = Some user
  ∧ declared_strategy user = afterTest
  ∧ bucket "user" st = [user_attrs]
  ∧ bucket "user" (cleanup afterTest st) = [user_attrs].
Proof. intros user st. split_and!; vm_compute; reflexivity. Qed.

(** C9 (as the code has it): [cleanup s] deletes exactly the buckets of the
    entity types whose recorded strategy (the one [define] stored for the
    type, [afterTest] when the definition names none; [reset] clears the
    records) is [s]; every other bucket, the factories and the recorded
    strategies are as before. A type under another strategy, or without a
    recorded one, is created afterwards as before, and a creation that is
    not transient is tracked at the end of its bucket. Where the recorded
    strategies are those of the definitions, the bucket of a defined type
    is deleted exactly when its definition declares [s]. *)
Theorem cleanup_removes_exactly_matching_buckets (s : CleanupStrategy) (st : State) :
  (∀ e, entities (cleanup s st) !! e
        = if decide (cleanupStrategies st !! e = Some s)
          then None else entities st !! e)
  ∧ factories (cleanup s st) = factories st
  ∧ cleanupStrategies (cleanup s st) = cleanupStrategies st
  ∧ (∀ e options created st1,
       cleanupStrategies st !! e ≠ Some s ->
       create e options st = (Ok created, st1) ->
       ∃ st2,
         create e options (cleanup s st) = (Ok created, st2)
         ∧ bucket e st2 = bucket e st1
         ∧ (default false (transient options) = false ->
            bucket e st2 = bucket e st ++ [created]))
  ∧ (strategies_recorded st ->
     strategies_recorded (cleanup s st)
     ∧ ∀ e d, factories st !! e = Some d ->
         entities (cleanup s st) !! e
         = if decide (declared_strategy d = s) then None else entities st !! e).
Proof.
  unfold cleanup.
  destruct (cleanup_loop_spec s (map_to_list (entities st)) st) as (Hf & Hs & He).
  assert (Hent : ∀ e, entities (foldl (cleanup_entry s) st (map_to_list (entities st))) !! e
        = if decide (cleanupStrategies st !! e = Some s)
          then None else entities st !! e).
  { intros e. rewrite He. destruct (entities st !! e) as [v|] eqn:Hv.
    - assert (e ∈ (map_to_list (entities st)).*1).
      { apply list_elem_of_fmap. exists (e, v). split; [done|].
        by apply elem_of_map_to_list. }
      repeat case_decide; naive_solver.
    - repeat case_decide; done. }
  split_and!; [done..| |].
  - intros e options created st1 Hne Hc. unfold create in *. rewrite Hf.
    destruct (factories st !! e) as [f|]; [|done].
    destruct (run_beforeCreate f _) as [a|err]; [|done].
    destruct (run_afterCreate f a) as [u|err]; [|done].
    unfold bucket. destruct (default false (transient options)) eqn:Ht;
      injection Hc as <- <-; eexists; (split; [reflexivity|]); simpl.
    + split; [|done]. by rewrite Hent, decide_False.
    + rewrite !lookup_insert_eq, Hent, decide_False by done. done.
  - intros Hrec. split.
    + intros e d. rewrite Hf, Hs. apply Hrec.
    + intros e d Hd. rewrite Hent, (Hrec e d Hd).
      repeat case_decide; congruence.
Qed.

(** *** How the operations of the manager compose *)

(** Two states with the same three maps are the same state. *)
Lemma State_eq (st st' : State) :
  factories st' = factories st -> entities st' = entities st ->
  cleanupStrategies st' = cleanupStrategies st -> st' = st.
Proof. destruct st, st'; simpl. by intros -> -> ->. Qed.

(** The buckets after [cleanup], entity type by entity type. *)
Lemma cleanup_lookup s st e :
  entities (cleanup s st) !! e
  = if decide (cleanupStrategies st !! e = Some s) then None else entities st !! e.
Proof.
  unfold cleanup.
  destruct (cleanup_loop_spec s (map_to_list (entities st)) st) as (_ & _ & He).
  rewrite He. destruct (entities st !! e) as [v|] eqn:Hv.
  - assert (e ∈ (map_to_list (entities st)).*1).
    { apply list_elem_of_fmap. exists (e, v). split; [done|].
      by apply elem_of_map_to_list. }
    repeat case_decide; naive_solver.
  - repeat case_decide; done.
Qed.

Lemma cleanup_fields s st :
  factories (cleanup s st) = factories st
  ∧ cleanupStrategies (cleanup s st) = cleanupStrategies st.
Proof.
  unfold cleanup.
  by destruct (cleanup_loop_spec s (map_to_list (entities st)) st) as (? & ? & _).
Qed.

(** A transient creation leaves the manager as it was. *)
Lemma create_transient entityName options st :
  default false (transient options) = true ->
  (create entityName options st).2 = st.
Proof.
  intros Ht. unfold create.
  destruct (factories st !! entityName) as [f|]; [|done].
  destruct (run_beforeCreate f _) as [a|e]; [|done].
  destruct (run_afterCreate f a) as [u|e]; [|done].
  by rewrite Ht.
Qed.

Lemma turns_spec (count : Q) (i : nat) :
  (i < turns count)%nat ↔ (inject_Z (Z.of_nat i) < count)%Q.
Proof.
  unfold turns. split.
  - intros Hi. apply Qle_lt_trans with (inject_Z (Qceiling count - 1)).
    + rewrite <-Zle_Qle. lia.
    + apply Qceiling_lt.
  - intros Hi.
    assert (inject_Z (Z.of_nat i) < inject_Z (Qceiling count))%Q as Hlt.
    { eapply Qlt_le_trans; [exact Hi|apply Qle_ceiling]. }
    rewrite <-Zlt_Qlt in Hlt. lia.
Qed.

Lemma create_each_tracks entityName options n :
  ∀ st es st',
    create_each n entityName options st = (Ok es, st') ->
    length es = n
    ∧ bucket entityName st'
      = bucket entityName st ++ (if default false (transient options) then [] else es).
Proof.
  induction n as [|n IH]; intros st es st' Hc; simpl in Hc.
  { injection Hc as <- <-. destruct (default false _); by rewrite ?app_nil_r. }
  destruct (create entityName options st) as [[e|err] st1] eqn:H1; [|done].
  destruct (create_each n entityName options st1) as [[es1|err] st2] eqn:H2; [|done].
  injection Hc as <- <-.
  destruct (IH st1 es1 st2 H2) as (Hlen & Hb).
  split; simpl; [by rewrite Hlen|].
  rewrite Hb. destruct (default false (transient options)) eqn:Ht.
  - pose proof (create_transient entityName options st Ht) as H. rewrite H1 in H.
    simpl in H. by subst st1.
  - destruct (create_tracks entityName options st e st1 H1 Ht) as [-> _].
    by rewrite <-(assoc_L (++)).
Qed.

(** [createMany] that returns has created one entity for each of
    [i = 0, 1, 2, ...] below [count] (three entities for [2.5], none for
    zero or a negative number). With hooks that leave the manager alone:
    when the creation is not transient, they are at the end of the bucket
    of the entity type, in creation order, after the entities that were
    there; when it is transient, the bucket is as before. *)
Theorem createMany_tracks_every_entity entityName count options st es st' :
  createMany entityName count options st = (Ok es, st') ->
  (∀ i : nat, (i < length es)%nat ↔ (inject_Z (Z.of_nat i) < count)%Q)
  ∧ length es = Z.to_nat (Qceiling count)
  ∧ bucket entityName st'
    = bucket entityName st ++ (if default false (transient options) then [] else es).
Proof.
  unfold createMany. intros Hc.
  destruct (create_each_tracks entityName options _ st es st' Hc) as [Hlen Hb].
  split_and!; [|done..]. intros i. rewrite Hlen. apply turns_spec.
Qed.

Lemma createMany_tracks_every_entity_witness :
  let st0 := define (plain "user" afterTest) empty in
  let es := [user_attrs; user_attrs; user_attrs] in
  let st' := trackEntity "user" user_attrs
               (trackEntity "user" user_attrs (trackEntity "user" user_attrs st0)) in
  createMany "user" (5 # 2) persistent st0 = (Ok es, st')
  ∧ (∀ i : nat, (i < length es)%nat ↔ (inject_Z (Z.of_nat i) < 5 # 2)%Q)
  ∧ length es = Z.to_nat (Qceiling (5 # 2))
  ∧ bucket "user" st'
    = bucket "user" st0 ++ (if default false (transient persistent) then [] else es).
Proof.
  intros st0 es st'.
  assert (createMany "user" (5 # 2) persistent st0 = (Ok es, st')) as Hc
    by (vm_compute; reflexivity).
  split; [exact Hc|].
  exact (createMany_tracks_every_entity "user" (5 # 2) persistent st0 es st' Hc).
Defined.

(** The attributes of a created entity, for a factory without hooks: a key
    of [options.attributes] has the value given there, every other key the
    generated one. *)
Theorem create_overrides_generated_attributes entityName options st factory over e st' :
  factories st !! entityName = Some factory ->
  beforeCreate factory = None ->
  afterCreate factory = None ->
  opt_attributes options = Some over ->
  create entityName options st = (Ok e, st') ->
  ∀ k, e !! k = match over !! k with
                | Some v => Some v
                | None => attributes factory tt !! k
                end.
Proof.
  intros Hf Hb Ha Ho Hc k. unfold create in Hc. rewrite Hf in Hc.
  unfold run_beforeCreate, run_afterCreate, merged_attributes, spread in Hc.
  rewrite Hb, Ha, Ho in Hc.
  assert (e = over ∪ attributes factory tt) as ->.
  { by destruct (default false (transient options)); injection Hc as <- _. }
  rewrite lookup_union. by destruct (over !! k), (attributes factory tt !! k).
Qed.

(** An administrator among generated users: the [role] given in the call
    replaces the generated one, the generated [name] stays. *)
Lemma create_overrides_generated_attributes_witness :
  let generated : Attributes := {[ "name" := VStr "x"; "role" := VStr "user" ]} in
  let over : Attributes := {[ "role" := VStr "admin" ]} in
  let factory :=
    {| entity := "user"; cleanupStrategy := None; attributes := fun _ => generated;
       beforeCreate := None; afterCreate := None |} in
  let options := {| transient := None; opt_attributes := Some over |} in
  let e : Entity := {[ "name" := VStr "x"; "role" := VStr "admin" ]} in
  let st := define factory empty in
  create "user" options st = (Ok e, trackEntity "user" e st)
  ∧ e !! "role" = Some (VStr "admin")
  ∧ ∀ k, e !! k = match over !! k with
                  | Some v => Some v
                  | None => generated !! k
                  end.
Proof.
  intros generated over factory options e st.
  assert (create "user" options st = (Ok e, trackEntity "user" e st)) as Hc
    by (vm_compute; reflexivity).
  split; [exact Hc|]. split; [reflexivity|].
  exact (create_overrides_generated_attributes "user" options st factory over e
           (trackEntity "user" e st) eq_refl eq_refl eq_refl eq_refl Hc).
Defined.

(** [cleanup] for one strategy a second time changes nothing, and
    [cleanup]s for two strategies give the same state in either order:
    each deletes the buckets recorded under its strategy and leaves the
    records of the strategies alone. *)
Theorem cleanup_idempotent_and_commutes (s1 s2 : CleanupStrategy) (st : State) :
  cleanup s1 (cleanup s1 st) = cleanup s1 st
  ∧ cleanup s1 (cleanup s2 st) = cleanup s2 (cleanup s1 st).
Proof.
  destruct (cleanup_fields s1 st) as [Hf1 Hs1].
  destruct (cleanup_fields s2 st) as [Hf2 Hs2].
  destruct (cleanup_fields s1 (cleanup s1 st)) as [Hf11 Hs11].
  destruct (cleanup_fields s1 (cleanup s2 st)) as [Hf12 Hs12].
  destruct (cleanup_fields s2 (cleanup s1 st)) as [Hf21 Hs21].
  split; apply State_eq; try congruence; apply map_eq; intros e;
    rewrite !cleanup_lookup, ?Hs1, ?Hs2; repeat case_decide; congruence.
Qed.

(** [reset] forgets the recorded strategies and keeps the factories. An
    entity created after [reset] is tracked, but no [cleanup] removes it,
    whatever the strategy, until its type is defined again: then the
    [cleanup] for the strategy of the new definition removes it. *)
Theorem reset_then_create_escapes_cleanup entityName options st e st1 :
  create entityName options (reset st) = (Ok e, st1) ->
  default false (transient options) = false ->
  bucket entityName st1 = [e]
  ∧ (∀ s, cleanup s st1 = st1)
  ∧ (∀ d, entity d = entityName ->
       entities (cleanup (declared_strategy d) (define d st1)) !! entityName = None).
Proof.
  intros Hc Ht.
  destruct (create_tracks entityName options (reset st) e st1 Hc Ht) as [Hb Hother].
  destruct (create_known_factories entityName options (reset st)) as [Hf Hs].
  rewrite Hc in Hf, Hs. simpl in Hf, Hs.
  split_and!.
  - rewrite Hb. unfold bucket. simpl. by rewrite lookup_empty.
  - intros s. destruct (cleanup_fields s st1) as [Hf' Hs'].
    apply State_eq; [done| |done]. apply map_eq. intros k.
    rewrite cleanup_lookup, Hs, lookup_empty. by rewrite decide_False.
  - intros d <-. rewrite cleanup_lookup, define_records_strategy.
    by rewrite decide_True.
Qed.

Lemma reset_then_create_escapes_cleanup_witness :
  let st := define (plain "user" afterTest) empty in
  let st1 := trackEntity "user" user_attrs (reset st) in
  create "user" persistent (reset st) = (Ok user_attrs, st1)
  ∧ bucket "user" st1 = [user_attrs]
  ∧ (∀ s, cleanup s st1 = st1)
  ∧ (∀ d, entity d = "user" ->
       entities (cleanup (declared_strategy d) (define d st1)) !! "user" = None).
Proof.
  intros st st1.
  assert (create "user" persistent (reset st) = (Ok user_attrs, st1)) as Hc
    by (vm_compute; reflexivity).
  split; [exact Hc|].
  exact (reset_then_create_escapes_cleanup "user" persistent st user_attrs st1
           Hc eq_refl).
Defined.

(** [define] records the strategy for the entity type over whatever was
    recorded before. The bucket of the type, with the entities tracked
    under an earlier definition, is deleted by the [cleanup] for the
    strategy the new definition declares ([afterTest] when it declares
    none) and by no other. *)
Theorem define_rebinds_tracked_entities (d : FactoryDefinition) (s : CleanupStrategy)
    (st : State) :
  entities (define d st) !! entity d = entities st !! entity d
  ∧ entities (cleanup s (define d st)) !! entity d
    = (if decide (declared_strategy d = s) then None else entities st !! entity d)
  ∧ (cleanupStrategy d = None ->
     entities (cleanup afterTest (define d st)) !! entity d = None).
Proof.
  split_and!; [done| |].
  - rewrite cleanup_lookup, define_records_strategy. simpl.
    repeat case_decide; congruence.
  - intros Hnone. rewrite cleanup_lookup, define_records_strategy.
    unfold declared_strategy. by rewrite Hnone.
Qed.

End Factory.

(* ================================================================== *)
(** ** DatabaseSeeder *)
(* ================================================================== *)

Module Seeder.

(** [SeederConfig] of data.types.ts. *)
Record SeederConfig : Type := {
  truncate : option bool;
  dependencies : option (list string);
  environment : option (list string)
}.

(** What a registered seed function does when it is awaited. *)
Inductive SeedFn : Type :=
| SeedResolves
| SeedRejects (message : string).

Inductive Error : Type :=
| DependencyNotFound (dep requiredBy : string)
| SeederNotFound (name : string)
| SeedError (message : string).

(** What a run does to the database, in the order it happens. *)
Inductive Event : Type :=
| Skipped (name : string)
| Truncated (name : string)
| SeedStart (name : string)
| SeedEnd (name : string).

#[global] Instance Event_eq_dec : EqDecision Event.
Proof. solve_decision. Defined.

(** The two maps of the class; [register] writes both. *)
Record State : Type := {
  seeders : gmap string SeedFn;
  config : gmap string SeederConfig
}.

Definition empty : State := {| seeders := ∅; config := ∅ |}.

Definition no_config : SeederConfig :=
  {| truncate := None; dependencies := None; environment := None |}.

Definition register (name : string) (seeder : SeedFn) (cfg : SeederConfig)
  (st : State) : State :=
  {| seeders := <[name := seeder]> (seeders st);
     config := <[name := cfg]> (config st) |}.

(** [process.env.NODE_ENV || 'development']: unset and empty are falsy. *)
Definition current_env (node_env : option string) : string :=
  match node_env with
  | Some EmptyString | None => "development"
  | Some env => env
  end.

Abbreviation Acc := (gset string * list string)%type.

(** The loop over [config.dependencies] inside [visit]: each dependency
    must be a registered seeder, then it is visited. *)
Definition visit_deps (st : State) (visit : string -> Acc -> option (Result Error Acc))
  (requiredBy : string) : list string -> Acc -> option (Result Error Acc) :=
  fix each (deps : list string) (acc : Acc) : option (Result Error Acc) :=
    match deps with
    | [] => Some (Ok acc)
    | dep :: rest =>
      if decide (is_Some (seeders st !! dep))
      then match visit dep acc with
           | Some (Ok acc') => each rest acc'
           | other => other
           end
      else Some (Throw (DependencyNotFound dep requiredBy))
    end.

(** The closure [visit] of [sortByDependencies], on the pair of [visited]
    and [sorted]. [fuel] bounds the depth of the recursion ([None]: the
    bound was too small). *)
Fixpoint visit (st : State) (fuel : nat) (name : string) (acc : Acc)
  : option (Result Error Acc) :=
  match fuel with
  | 0 => None
  | S fuel' =>
    if decide (name ∈ acc.1) then Some (Ok acc)
    else
      let visited := {[name]} ∪ acc.1 in
      let after_deps :=
        match (config st !! name) ≫= dependencies with
        | Some deps => visit_deps st (visit st fuel') name deps (visited, acc.2)
        | None => Some (Ok (visited, acc.2))
        end in
      match after_deps with
      | Some (Ok acc') => Some (Ok (acc'.1, acc'.2 ++ [name]))
      | other => other
      end
  end.

(** The loop [for (const name of names) visit(name)]. *)
Fixpoint visit_all (st : State) (fuel : nat) (names : list string) (acc : Acc)
  : option (Result Error Acc) :=
  match names with
  | [] => Some (Ok acc)
  | name :: rest =>
    match visit st fuel name acc with
    | Some (Ok acc') => visit_all st fuel rest acc'
    | other => other
    end
  end.

(** Every nested call of [visit] that does not return at once is on a
    name with a configuration that was not visited before, so this depth
    is never exceeded ([sortByDependencies_total]). *)
Definition depth_bound (st : State) : nat := S (size (dom (config st))).

Definition sortByDependencies (st : State) (names : list string)
  : option (Result Error (list string)) :=
  match visit_all st (depth_bound st) names (∅, []) with
  | Some (Ok acc) => Some (Ok acc.2)
  | Some (Throw e) => Some (Throw e)
  | None => None
  end.

Definition excluded_by_environment (st : State) (node_env : option string)
  (name : string) : bool :=
  match (config st !! name) ≫= environment with
  | Some envs => bool_decide (current_env node_env ∉ envs)
  | None => false
  end.

Definition truncateTable (name : string) : list Event := [Truncated name].

(** [runSeeder]: the result and the events of one seeder, in order. *)
Definition runSeeder (st : State) (node_env : option string) (name : string)
  : Result Error unit * list Event :=
  match seeders st !! name with
  | None => (Throw (SeederNotFound name), [])
  | Some seeder =>
    if excluded_by_environment st node_env name then (Ok tt, [Skipped name])
    else
      let truncated :=
        match (config st !! name) ≫= truncate with
        | Some true => truncateTable name
        | _ => []
        end in
      match seeder with
      | SeedResolves => (Ok tt, truncated ++ [SeedStart name; SeedEnd name])
      | SeedRejects msg => (Throw (SeedError msg), truncated ++ [SeedStart name])
      end
  end.

(** The loop of [seed]: each seeder is awaited before the next one starts;
    the first throw ends the loop. *)
Fixpoint run_sorted (st : State) (node_env : option string) (sorted : list string)
  : Result Error unit * list Event :=
  match sorted with
  | [] => (Ok tt, [])
  | name :: rest =>
    match runSeeder st node_env name with
    | (Throw e, events) => (Throw e, events)
    | (Ok _, events) =>
      let '(r, later) := run_sorted st node_env rest in (r, events ++ later)
    end
  end.

(** [seed]: sort, then run. [None] only if the sort ran out of depth,
    which it never does. *)
Definition seed (st : State) (node_env : option string) (names : list string)
  : option (Result Error unit * list Event) :=
  match sortByDependencies st names with
  | None => None
  | Some (Throw e) => Some (Throw e, [])
  | Some (Ok sorted) => Some (run_sorted st node_env sorted)
  end.

Definition seedAll (st : State) (node_env : option string)
  : option (Result Error unit * list Event) :=
  seed st node_env (map fst (map_to_list (seeders st))).

(** [a] declares [b] as a dependency. *)
Definition declares (st : State) (a b : string) : Prop :=
  ∃ deps, (config st !! a) ≫= dependencies = Some deps ∧ b ∈ deps.


(** What a successful visit adds to the accumulator [acc], giving [acc']:
    the names [new], appended to [sorted] and added to [visited]. They were
    not visited before and satisfy [R] (they are reached from where the
    visit started); the dependencies each of them declares are registered
    and visited; and a dependency declared by one of them was visited
    before the call, or was appended before it, or depends on it in turn. *)
Definition extends (st : State) (R : string -> Prop) (acc acc' : Acc) : Prop :=
  ∃ new : list string,
    acc'.2 = acc.2 ++ new
    ∧ acc'.1 = acc.1 ∪ list_to_set new
    ∧ NoDup new
    ∧ (∀ n, n ∈ new -> R n ∧ n ∉ acc.1)
    ∧ (∀ n d, n ∈ new -> declares st n d -> is_Some (seeders st !! d) ∧ d ∈ acc'.1)
    ∧ (∀ before n after, new = before ++ n :: after ->
         ∀ d, declares st n d -> d ∈ acc.1 ∨ d ∈ before ∨ tc (declares st) d n).

(** [first] occurs in [trace], and [second] occurs later. *)
Definition happens_before {A} (first second : A) (trace : list A) : Prop :=
  ∃ t1 t2 t3, trace = t1 ++ first :: t2 ++ second :: t3.




(** *** Concrete registries *)

Definition depends_on (deps : list string) : SeederConfig :=
  {| truncate := None; dependencies := Some deps; environment := None |}.

(** Scenario 5 of the specification: [users] depends on [roles] and is
    restricted to the [test] environment. *)
Definition roles_users : State :=
  register "users" SeedResolves
    {| truncate := None; dependencies := Some ["roles"]; environment := Some ["test"] |}
    (register "roles" SeedResolves no_config empty).


(** [users] depends on the unregistered [ghost]. *)
Definition missing_dep : State :=
  register "users" SeedResolves (depends_on ["roles"; "ghost"])
    (register "roles" SeedResolves no_config empty).

(** *** The sort terminates *)

Section sort.
Context (st : State).

Lemma visit_deps_total (visitf : string -> Acc -> option (Result Error Acc))
    (requiredBy : string) (base : gset string) (deps : list string) :
  (∀ dep acc, base ⊆ acc.1 ->
     ∃ r, visitf dep acc = Some r ∧ ∀ acc', r = Ok acc' -> acc.1 ⊆ acc'.1) ->
  ∀ acc, base ⊆ acc.1 ->
    ∃ r, visit_deps st visitf requiredBy deps acc = Some r
         ∧ ∀ acc', r = Ok acc' -> acc.1 ⊆ acc'.1.
Proof.
  intros Hf. induction deps as [|dep rest IH]; intros acc Hb; simpl.
  - eexists; split; [done|]. by intros ? [= <-].
  - case_decide; [|eexists; split; [done|]; by intros ? [=]].
    destruct (Hf dep acc Hb) as (r & -> & Hr). destruct r as [acc1|e].
    + specialize (Hr acc1 eq_refl).
      destruct (IH acc1) as (r' & -> & Hr'); [set_solver|].
      eexists; split; [done|]. intros acc' ->. specialize (Hr' acc' eq_refl). set_solver.
    + eexists; split; [done|]. by intros ? [=].
Qed.

Lemma visit_total fuel :
  ∀ name acc, size (dom (config st) ∖ acc.1) < fuel ->
    ∃ r, visit st fuel name acc = Some r ∧ ∀ acc', r = Ok acc' -> acc.1 ⊆ acc'.1.
Proof.
  induction fuel as [|fuel IH]; intros name [vis sorted] Hsz; [lia|]. simpl in *.
  case_decide as Hin; [eexists; split; [done|]; by intros ? [= <-]|].
  destruct ((config st !! name) ≫= dependencies) as [deps|] eqn:Hd; simpl.
  - assert (name ∈ dom (config st)) as Hdom.
    { apply elem_of_dom. destruct (config st !! name); [done|discriminate]. }
    assert (size (dom (config st) ∖ ({[name]} ∪ vis)) < size (dom (config st) ∖ vis)) as Hlt.
    { apply subset_size. set_solver. }
    destruct (visit_deps_total (visit st fuel) name ({[name]} ∪ vis) deps) with
      (acc := ({[name]} ∪ vis, sorted)) as (r & -> & Hr); [|done|].
    { intros dep acc Hb. apply IH.
      assert (size (dom (config st) ∖ acc.1) <= size (dom (config st) ∖ ({[name]} ∪ vis)))%nat.
      { apply subseteq_size. set_solver. }
      lia. }
    destruct r as [acc1|e]; (eexists; split; [done|]); [|by intros ? [=]].
    intros acc' [= <-]. specialize (Hr acc1 eq_refl). simpl in *. set_solver.
  - eexists; split; [done|]. intros acc' [= <-]. simpl. set_solver.
Qed.

Lemma visit_all_total fuel names :
  ∀ acc, size (dom (config st)) < fuel ->
    ∃ r, visit_all st fuel names acc = Some r.
Proof.
  induction names as [|n rest IH]; intros acc Hsz; simpl; [by eexists|].
  destruct (visit_total fuel n acc) as (r & -> & _).
  { assert (size (dom (config st) ∖ acc.1) <= size (dom (config st)))%nat; [|lia].
    apply subseteq_size. set_solver. }
  destruct r; [by apply IH|by eexists].
Qed.

Lemma sortByDependencies_total names :
  ∃ r, sortByDependencies st names = Some r.
Proof.
  unfold sortByDependencies.
  destruct (visit_all_total (depth_bound st) names (∅, [])) as (r & ->).
  { unfold depth_bound. lia. }
  destruct r; by eexists.
Qed.

(** *** What a successful sort has visited *)

Lemma snoc_split {A} (l : list A) (x : A) before n after :
  l ++ [x] = before ++ n :: after ->
  (n = x ∧ before = l ∧ after = []) ∨ (∃ k, l = before ++ n :: k).
Proof.
  destruct after as [|y after _] using rev_ind; intros Heq.
  - apply app_inj_tail in Heq as [-> ->]. by left.
  - right. exists after. change (n :: after ++ [y]) with ((n :: after) ++ [y]) in Heq.
    rewrite (assoc_L (++)) in Heq. by apply app_inj_tail in Heq as [-> _].
Qed.

Lemma extends_refl R acc : extends st R acc acc.
Proof.
  exists []. rewrite app_nil_r, list_to_set_nil, (right_id_L ∅ (∪)).
  split_and!; try done; try (intros ? Hn; by apply elem_of_nil in Hn).
  - constructor.
  - intros n d Hn. by apply elem_of_nil in Hn.
  - intros [|??] ? ? ?; discriminate.
Qed.

Lemma extends_weaken (R R' : string -> Prop) acc acc' :
  (∀ n, R n -> R' n) -> extends st R acc acc' -> extends st R' acc acc'.
Proof.
  intros HR (new & H1 & H2 & H3 & H4 & H5 & H6). exists new.
  split_and!; try done. intros n Hn. destruct (H4 n Hn). auto.
Qed.

Lemma extends_trans R acc acc1 acc2 :
  extends st R acc acc1 -> extends st R acc1 acc2 -> extends st R acc acc2.
Proof.
  intros (new1 & Hs1 & Hv1 & Hnd1 & Hnew1 & Hcl1 & Hord1)
         (new2 & Hs2 & Hv2 & Hnd2 & Hnew2 & Hcl2 & Hord2).
  exists (new1 ++ new2). split_and!.
  - by rewrite Hs2, Hs1, (assoc_L (++)).
  - rewrite Hv2, Hv1, list_to_set_app_L. set_solver.
  - apply NoDup_app. split_and!; [done| |done].
    intros n Hn1 Hn2. destruct (Hnew2 n Hn2) as [_ Hnot]. apply Hnot.
    rewrite Hv1. set_solver.
  - intros n [Hn|Hn]%elem_of_app.
    + by apply (Hnew1 n).
    + destruct (Hnew2 n Hn) as [HR Hnot]. split; [done|]. rewrite Hv1 in Hnot. set_solver.
  - intros n d [Hn|Hn]%elem_of_app Hd.
    + destruct (Hcl1 n d Hn Hd) as [? Hin]. split; [done|]. rewrite Hv2. set_solver.
    + by apply (Hcl2 n).
  - intros before n after Heq d Hd.
    apply app_eq_inv in Heq as [(k & Hk1 & Hk)|(k & -> & Hk)].
    + destruct k as [|x k]; simpl in Hk.
      * (* [n] is the first name of [new2] *)
        rewrite app_nil_r in Hk1. subst before.
        destruct (Hord2 [] n after (eq_sym Hk) d Hd) as [Hin|[Hin|Htc]].
        -- rewrite Hv1 in Hin.
           apply elem_of_union in Hin as [Hin|Hin]; [by left|].
           right; left. by apply elem_of_list_to_set in Hin.
        -- by apply elem_of_nil in Hin.
        -- by right; right.
      * injection Hk as <- ->.
        destruct (Hord1 before n k Hk1 d Hd); auto.
    + destruct (Hord2 k n after Hk d Hd) as [Hin|[Hin|Htc]].
      * rewrite Hv1 in Hin. apply elem_of_union in Hin as [Hin|Hin]; [by left|].
        right; left. apply elem_of_app. left. by apply elem_of_list_to_set in Hin.
      * right; left. apply elem_of_app. by right.
      * by right; right.
Qed.

Lemma extends_subseteq R acc acc' : extends st R acc acc' -> acc.1 ⊆ acc'.1.
Proof. intros (new & _ & -> & _). set_solver. Qed.

Lemma visit_deps_extends (visitf : string -> Acc -> option (Result Error Acc))
    (requiredBy : string) :
  (∀ dep acc acc', visitf dep acc = Some (Ok acc') ->
     dep ∈ acc'.1 ∧ extends st (rtc (declares st) dep) acc acc') ->
  ∀ deps acc acc',
    (∀ d, d ∈ deps -> declares st requiredBy d) ->
    visit_deps st visitf requiredBy deps acc = Some (Ok acc') ->
    extends st (tc (declares st) requiredBy) acc acc'
    ∧ ∀ d, d ∈ deps -> is_Some (seeders st !! d) ∧ d ∈ acc'.1.
Proof.
  intros Hf. induction deps as [|dep rest IH]; intros acc acc' Hdecl Hv; simpl in Hv.
  - injection Hv as <-. split; [apply extends_refl|].
    intros d Hd. by apply elem_of_nil in Hd.
  - case_decide as Hreg; [|discriminate].
    destruct (visitf dep acc) as [[acc1|e]|] eqn:Hdep; try discriminate.
    destruct (Hf dep acc acc1 Hdep) as [Hin Hext].
    destruct (IH acc1 acc') as [Hext' Hrest]; [set_solver|done|].
    split.
    + eapply extends_trans; [|exact Hext'].
      eapply extends_weaken; [|exact Hext]. intros n Hn.
      eapply tc_rtc_r; [|exact Hn]. apply tc_once, Hdecl. set_solver.
    + intros d [->|Hd]%elem_of_cons; [|by apply Hrest].
      split; [done|]. by apply (extends_subseteq _ _ _ Hext').
Qed.

Lemma visit_extends fuel :
  ∀ name acc acc', visit st fuel name acc = Some (Ok acc') ->
    name ∈ acc'.1 ∧ extends st (rtc (declares st) name) acc acc'.
Proof.
  induction fuel as [|fuel IH]; intros name [vis sorted] acc' Hv; [done|].
  simpl in Hv. case_decide as Hin.
  { injection Hv as <-. split; [done|apply extends_refl]. }
  destruct ((config st !! name) ≫= dependencies) as [deps|] eqn:Hd.
  - destruct (visit_deps st (visit st fuel) name deps ({[name]} ∪ vis, sorted))
      as [[[vis1 sorted1]|e]|] eqn:Hloop; try discriminate.
    injection Hv as <-. simpl.
    destruct (visit_deps_extends (visit st fuel) name IH deps _ _
                ltac:(intros d Hdin; by exists deps) Hloop)
      as [(new & Hs & Hvis & Hnd & Hnew & Hcl & Hord) Hdeps].
    simpl in *. subst sorted1 vis1.
    split; [set_solver|].
    exists (new ++ [name]). simpl. split_and!.
    + by rewrite (assoc_L (++)).
    + rewrite list_to_set_app_L. set_solver.
    + apply NoDup_app. split_and!; [done| |apply NoDup_singleton].
      intros n Hn ->%list_elem_of_singleton. destruct (Hnew _ Hn) as [_ Hnot]. set_solver.
    + intros n [Hn| ->%list_elem_of_singleton]%elem_of_app.
      * destruct (Hnew _ Hn) as [Htc Hnot]. split; [by apply tc_rtc|set_solver].
      * done.
    + intros n d [Hn| ->%list_elem_of_singleton]%elem_of_app Hdecl.
      * by apply (Hcl n).
      * destruct Hdecl as (deps' & Hd' & Hdin). rewrite Hd in Hd'.
        injection Hd' as <-. by apply Hdeps.
    + intros before n after Heq d Hdecl.
      apply snoc_split in Heq as [(-> & -> & ->)|(k & ->)].
      * destruct Hdecl as (deps' & Hd' & Hdin). rewrite Hd in Hd'.
        injection Hd' as <-. destruct (Hdeps d Hdin) as [_ Hdv].
        apply elem_of_union in Hdv as [Hdv|Hdv].
        -- apply elem_of_union in Hdv as [->%elem_of_singleton|Hdv]; [|by left].
           right; right. apply tc_once. by exists deps.
        -- right; left. by apply elem_of_list_to_set in Hdv.
      * destruct (Hord before n k eq_refl d Hdecl) as [Hdv|[Hdv|Hdv]]; [|by auto..].
        apply elem_of_union in Hdv as [->%elem_of_singleton|Hdv]; [|by left].
        right; right. apply (Hnew n). set_solver.
  - injection Hv as <-. simpl. split; [set_solver|].
    exists [name]. simpl. split_and!; try done.
    + set_solver.
    + apply NoDup_singleton.
    + intros n ->%list_elem_of_singleton. done.
    + intros n d ->%list_elem_of_singleton (deps & Hd' & _). by rewrite Hd in Hd'.
    + intros before n after Heq d (deps & Hd' & _).
      assert (n = name) as ->.
      { destruct before as [|? [|??]]; by injection Heq. }
      by rewrite Hd in Hd'.
Qed.

Lemma visit_all_extends fuel names :
  ∀ acc acc', visit_all st fuel names acc = Some (Ok acc') ->
    extends st (λ n, ∃ r, r ∈ names ∧ rtc (declares st) r n) acc acc'
    ∧ ∀ r, r ∈ names -> r ∈ acc'.1.
Proof.
  induction names as [|name rest IH]; intros acc acc' Hv; simpl in Hv.
  - injection Hv as <-. split; [apply extends_refl|].
    intros r Hr. by apply elem_of_nil in Hr.
  - destruct (visit st fuel name acc) as [[acc1|e]|] eqn:Hname; try discriminate.
    destruct (visit_extends fuel name acc acc1 Hname) as [Hin Hext].
    destruct (IH acc1 acc' Hv) as [Hext' Hrest]. split.
    + eapply extends_trans.
      * eapply extends_weaken; [|exact Hext]. intros n Hn. exists name. set_solver.
      * eapply extends_weaken; [|exact Hext']. intros n (r & Hr & Hn). exists r. set_solver.
    + intros r [->|Hr]%elem_of_cons; [|by apply Hrest].
      by apply (extends_subseteq _ _ _ Hext').
Qed.

(** The only error of the sort is an unregistered dependency. *)
Lemma visit_deps_throws (visitf : string -> Acc -> option (Result Error Acc))
    (requiredBy : string) :
  (∀ dep acc e, visitf dep acc = Some (Throw e) ->
     ∃ d by_, e = DependencyNotFound d by_ ∧ seeders st !! d = None) ->
  ∀ deps acc e, visit_deps st visitf requiredBy deps acc = Some (Throw e) ->
    ∃ d by_, e = DependencyNotFound d by_ ∧ seeders st !! d = None.
Proof.
  intros Hf. induction deps as [|dep rest IH]; intros acc e Hv; simpl in Hv; [done|].
  case_decide as Hreg.
  - destruct (visitf dep acc) as [[acc1|e1]|] eqn:Hdep; try discriminate.
    + by eapply IH.
    + injection Hv as <-. by eapply Hf.
  - injection Hv as <-. exists dep, requiredBy. split; [done|].
    by apply eq_None_not_Some.
Qed.

Lemma visit_throws fuel :
  ∀ name acc e, visit st fuel name acc = Some (Throw e) ->
    ∃ d by_, e = DependencyNotFound d by_ ∧ seeders st !! d = None.
Proof.
  induction fuel as [|fuel IH]; intros name acc e Hv; [done|]. simpl in Hv.
  case_decide; [done|].
  destruct ((config st !! name) ≫= dependencies) as [deps|]; [|done].
  destruct (visit_deps st (visit st fuel) name deps _) as [[acc1|e1]|] eqn:Hloop;
    try discriminate.
  injection Hv as <-. by eapply visit_deps_throws.
Qed.

Lemma visit_all_throws fuel names :
  ∀ acc e, visit_all st fuel names acc = Some (Throw e) ->
    ∃ d by_, e = DependencyNotFound d by_ ∧ seeders st !! d = None.
Proof.
  induction names as [|name rest IH]; intros acc e Hv; simpl in Hv; [done|].
  destruct (visit st fuel name acc) as [[acc1|e1]|] eqn:Hname; try discriminate.
  - by eapply IH.
  - injection Hv as <-. by eapply visit_throws.
Qed.

(** The sorted list of a successful sort: no name twice, every requested
    name, only names reached from a requested one, the declared
    dependencies of every member registered and members themselves, and
    each of them before the member unless it depends on the member. *)
Lemma sortByDependencies_spec names sorted :
  sortByDependencies st names = Some (Ok sorted) ->
  NoDup sorted
  ∧ (∀ r, r ∈ names -> r ∈ sorted)
  ∧ (∀ n, n ∈ sorted -> ∃ r, r ∈ names ∧ rtc (declares st) r n)
  ∧ (∀ n d, n ∈ sorted -> declares st n d -> is_Some (seeders st !! d) ∧ d ∈ sorted)
  ∧ (∀ before n after, sorted = before ++ n :: after ->
       ∀ d, declares st n d -> d ∈ before ∨ tc (declares st) d n).
Proof.
  unfold sortByDependencies. intros Hs.
  destruct (visit_all st (depth_bound st) names (∅, [])) as [[acc|e]|] eqn:Hv;
    try discriminate.
  injection Hs as <-.
  destruct (visit_all_extends _ _ _ _ Hv)
    as [(new & Hs & Hvis & Hnd & Hnew & Hcl & Hord) Hreq].
  simpl in *. subst new. rewrite (left_id_L ∅ (∪)) in Hvis.
  split_and!.
  - done.
  - intros r Hr. specialize (Hreq r Hr). rewrite Hvis in Hreq.
    by apply elem_of_list_to_set in Hreq.
  - intros n Hn. by destruct (Hnew n Hn).
  - intros n d Hn Hd. destruct (Hcl n d Hn Hd) as [Hreg Hin]. split; [done|].
    rewrite Hvis in Hin. by apply elem_of_list_to_set in Hin.
  - intros before n after Heq d Hd.
    destruct (Hord before n after Heq d Hd) as [Hin|[Hin|Htc]]; [set_solver|by left|by right].
Qed.

(** *** Running the sorted seeders *)



Lemma happens_before_later {A} (x y : A) l1 l2 :
  happens_before x y l2 -> happens_before x y (l1 ++ l2).
Proof.
  intros (a & b & c & ->). exists (l1 ++ a), b, c. by rewrite <-(assoc_L (++)).
Qed.





End sort.

(** *** The claims about [seed] *)

(** [roles] is seeded, then the unregistered [ghost] is reported: the seed
    function of [roles] has run before the error. *)
Lemma seed_unknown_requested_name_runs_earlier_seeders :
  seed roles_users None ["roles"; "ghost"]
  = Some (Throw (SeederNotFound "ghost"), [SeedStart "roles"; SeedEnd "roles"]).
Proof. vm_compute. reflexivity. Qed.

(** C5 (as the code has it): when a dependency declared by a requested
    seeder, or by a seeder reached from one through registered
    dependencies, is not registered, [seed] throws [Dependency not found]
    from the sort, before any seed function is invoked. (A requested name
    that is itself unregistered is only reported by [runSeeder], at its
    turn.) *)
Theorem seed_unregistered_dependency_runs_nothing st node_env names r a d :
  r ∈ names ->
  rtc (declares st) r a ->
  declares st a d ->
  seeders st !! d = None ->
  ∃ dep requiredBy,
    seeders st !! dep = None
    ∧ seed st node_env names = Some (Throw (DependencyNotFound dep requiredBy), []).
Proof.
  intros Hr Hra Had Hd. unfold seed.
  destruct (sortByDependencies_total st names) as ([sorted|e] & Hsort); rewrite Hsort.
  - exfalso.
    destruct (sortByDependencies_spec st names sorted Hsort) as (_ & Hreq & _ & Hcl & _).
    assert (a ∈ sorted) as Ha.
    { specialize (Hreq r Hr). clear Had Hr.
      induction Hra as [x|x y z Hxy _ IH]; [done|].
      apply IH. by destruct (Hcl x y Hreq Hxy). }
    destruct (Hcl a d Ha Had) as [[? Hsome] _]. congruence.
  - unfold sortByDependencies in Hsort.
    destruct (visit_all st (depth_bound st) names (∅, [])) as [[acc|e']|] eqn:Hv;
      try discriminate.
    injection Hsort as <-.
    destruct (visit_all_throws st _ _ _ _ Hv) as (dep & by_ & -> & Hnone).
    by exists dep, by_.
Qed.

Lemma seed_unregistered_dependency_runs_nothing_witness :
  ∃ dep requiredBy,
    seeders missing_dep !! dep = None
    ∧ seed missing_dep None ["users"]
      = Some (Throw (DependencyNotFound dep requiredBy), []).
Proof.
  apply (seed_unregistered_dependency_runs_nothing
           missing_dep None ["users"] "users" "users" "ghost").
  - by apply list_elem_of_singleton.
  - apply rtc_refl.
  - exists ["roles"; "ghost"]. split; [reflexivity|]. set_solver.
  - reflexivity.
Defined.




(** *** What a run of [seed] contains *)

(** The events of [truncateTable] for a seeder, when it is configured. *)
Definition truncated_events (st : State) (name : string) : list Event :=
  match (config st !! name) ≫= truncate with
  | Some true => truncateTable name
  | _ => []
  end.

(** The event is one of the seeder [name]. *)
Definition event_of (name : string) (ev : Event) : Prop :=
  match ev with
  | Skipped n | Truncated n | SeedStart n | SeedEnd n => n = name
  end.

Section runs.
Context (st : State) (node_env : option string).

(** The three ways [runSeeder] goes. *)
Lemma runSeeder_cases name :
  (seeders st !! name = None
   ∧ runSeeder st node_env name = (Throw (SeederNotFound name), []))
  ∨ (is_Some (seeders st !! name)
     ∧ excluded_by_environment st node_env name = true
     ∧ runSeeder st node_env name = (Ok tt, [Skipped name]))
  ∨ (excluded_by_environment st node_env name = false
     ∧ ((seeders st !! name = Some SeedResolves
         ∧ runSeeder st node_env name
           = (Ok tt, truncated_events st name ++ [SeedStart name; SeedEnd name]))
        ∨ (∃ msg, seeders st !! name = Some (SeedRejects msg)
             ∧ runSeeder st node_env name
               = (Throw (SeedError msg), truncated_events st name ++ [SeedStart name])))).
Proof.
  unfold runSeeder, truncated_events.
  destruct (seeders st !! name) as [fn|]; [|by left].
  destruct (excluded_by_environment st node_env name); [right; left; by eauto|].
  right; right. split; [done|]. destruct fn as [|msg]; [by left|right; by exists msg].
Qed.

Lemma truncated_events_cases name :
  (truncated_events st name = [Truncated name]
   ∧ (config st !! name) ≫= truncate = Some true)
  ∨ (truncated_events st name = []
     ∧ (config st !! name) ≫= truncate ≠ Some true).
Proof.
  unfold truncated_events, truncateTable.
  destruct ((config st !! name) ≫= truncate) as [[|]|]; [by left|by right..].
Qed.

(** Every event of [runSeeder name] is an event of [name]. *)
Lemma runSeeder_event_of name ev :
  ev ∈ (runSeeder st node_env name).2 -> event_of name ev.
Proof.
  destruct (runSeeder_cases name) as [[_ ->]|[(_ & _ & ->)|[_ [[_ ->]|(msg & _ & ->)]]]];
    simpl; destruct (truncated_events_cases name) as [[Ht _]|[Ht _]]; rewrite ?Ht; simpl;
    intros Hin; repeat (apply elem_of_cons in Hin as [->|Hin]; [done|]);
    by apply elem_of_nil in Hin.
Qed.

Lemma happens_before_earlier {A} (x y : A) l1 l2 :
  happens_before x y l1 -> happens_before x y (l1 ++ l2).
Proof.
  intros (a & b & c & ->). exists a, b, (c ++ l2).
  rewrite <-(assoc_L (++)). simpl. by rewrite <-(assoc_L (++)).
Qed.


(** After a run without error every sorted name is registered, and was
    skipped for the environment or seeded to its end. *)
Lemma run_sorted_ok sorted trace n :
  run_sorted st node_env sorted = (Ok tt, trace) ->
  n ∈ sorted ->
  is_Some (seeders st !! n)
  ∧ (if excluded_by_environment st node_env n
     then Skipped n ∈ trace
     else happens_before (SeedStart n) (SeedEnd n) trace).
Proof.
  revert trace. induction sorted as [|name rest IH]; intros trace Hr Hin; simpl in Hr.
  { by apply elem_of_nil in Hin. }
  destruct (runSeeder st node_env name) as [[[]|e] ev0] eqn:H0; [|done].
  destruct (run_sorted st node_env rest) as [r1 later] eqn:H1.
  injection Hr as -> <-.
  assert (is_Some (seeders st !! name)
          ∧ (if excluded_by_environment st node_env name
             then Skipped name ∈ ev0
             else happens_before (SeedStart name) (SeedEnd name) ev0)) as [Hreg Hhere].
  { destruct (runSeeder_cases name)
      as [[_ Hrun]|[(Hs & Hex & Hrun)|[Hex [[Hs Hrun]|(msg & Hs & Hrun)]]]];
      rewrite Hrun in H0; try discriminate; injection H0 as <-; rewrite Hex.
    - split; [done|]. by apply list_elem_of_singleton.
    - split; [by rewrite Hs|]. by exists (truncated_events st name), [], []. }
  destruct (decide (n = name)) as [->|Hne].
  - split; [done|]. destruct (excluded_by_environment st node_env name).
    + apply elem_of_app. by left.
    + by apply happens_before_earlier.
  - apply elem_of_cons in Hin as [->|Hin]; [done|].
    destruct (IH later eq_refl Hin) as [Hreg' Hlater]. split; [done|].
    destruct (excluded_by_environment st node_env n).
    + apply elem_of_app. by right.
    + by apply happens_before_later.
Qed.

(** A run that ends with an error: the name of an unregistered seeder
    among the sorted ones, none of whose events is in the trace; or the
    rejection of a seed function, whose start is the last event. *)
Lemma run_sorted_throws sorted e trace :
  run_sorted st node_env sorted = (Throw e, trace) ->
  (∃ n, e = SeederNotFound n ∧ n ∈ sorted ∧ seeders st !! n = None)
  ∨ (∃ n msg t, e = SeedError msg ∧ n ∈ sorted
       ∧ seeders st !! n = Some (SeedRejects msg) ∧ trace = t ++ [SeedStart n]).
Proof.
  revert trace. induction sorted as [|name rest IH]; intros trace Hr; simpl in Hr; [done|].
  destruct (runSeeder_cases name)
    as [[Hs Hrun]|[(Hs & Hex & Hrun)|[Hex [[Hs Hrun]|(msg & Hs & Hrun)]]]];
    rewrite Hrun in Hr.
  - injection Hr as <- <-. left. exists name. split_and!; [done|by left|done].
  - destruct (run_sorted st node_env rest) as [r1 later] eqn:H1.
    injection Hr as -> <-.
    destruct (IH later eq_refl) as [(n & -> & Hin & Hn)|(n & m & t & -> & Hin & Hn & ->)].
    + left. exists n. split_and!; [done|by right|done].
    + right. exists n, m, ([Skipped name] ++ t). split_and!; [done|by right|done|done].
  - destruct (run_sorted st node_env rest) as [r1 later] eqn:H1.
    injection Hr as -> <-.
    destruct (IH later eq_refl) as [(n & -> & Hin & Hn)|(n & m & t & -> & Hin & Hn & ->)].
    + left. exists n. split_and!; [done|by right|done].
    + right. exists n, m, ((truncated_events st name ++ [SeedStart name; SeedEnd name]) ++ t).
      split_and!; [done|by right|done|]. by rewrite <-!(assoc_L (++)).
  - injection Hr as <- <-. right. exists name, msg, (truncated_events st name).
    split_and!; [done|by left|done|done].
Qed.

(** A seeder excluded for the environment leaves none of the events of a
    seeder that runs. *)
Lemma run_sorted_excluded sorted r trace n :
  run_sorted st node_env sorted = (r, trace) ->
  excluded_by_environment st node_env n = true ->
  (Truncated n ∉ trace) ∧ (SeedStart n ∉ trace) ∧ (SeedEnd n ∉ trace).
Proof.
  intros Hr Hex.
  revert r trace Hr. induction sorted as [|name rest IH]; intros r trace Hr; simpl in Hr.
  { injection Hr as <- <-. split_and!; by intros ?%elem_of_nil. }
  assert ((Truncated n ∉ (runSeeder st node_env name).2)
          ∧ (SeedStart n ∉ (runSeeder st node_env name).2)
          ∧ (SeedEnd n ∉ (runSeeder st node_env name).2)) as (Ht & Hs & He).
  { destruct (decide (n = name)) as [->|Hne].
    - destruct (runSeeder_cases name)
        as [[_ ->]|[(_ & _ & ->)|[Hex' _]]]; [| |congruence]; simpl;
        split_and!; intros Hin; set_solver.
    - split_and!; intros Hin; apply runSeeder_event_of in Hin; simpl in Hin; done. }
  destruct (runSeeder st node_env name) as [[[]|e] ev0] eqn:H0; simpl in *.
  - destruct (run_sorted st node_env rest) as [r1 later] eqn:H1.
    injection Hr as <- <-. destruct (IH r1 later eq_refl) as (? & ? & ?).
    split_and!; intros [?|?]%elem_of_app; done.
  - by injection Hr as <- <-.
Qed.

(** A table is truncated directly before its seed function starts, and
    only when the seeder is configured to truncate. *)
Lemma run_sorted_truncates sorted r trace n :
  run_sorted st node_env sorted = (r, trace) ->
  (Truncated n ∈ trace ∨ (SeedStart n ∈ trace ∧ (config st !! n) ≫= truncate = Some true)) ->
  (config st !! n) ≫= truncate = Some true
  ∧ ∃ t1 t2, trace = t1 ++ Truncated n :: SeedStart n :: t2.
Proof.
  revert r trace. induction sorted as [|name rest IH]; intros r trace Hr Hin; simpl in Hr.
  { injection Hr as <- <-. destruct Hin as [Hin|[Hin _]]; by apply elem_of_nil in Hin. }
  assert (∀ ev0 tail,
            ev0 = truncated_events st name ++ SeedStart name :: tail ->
            (Truncated n ∈ ev0
             ∨ (SeedStart n ∈ ev0 ∧ (config st !! n) ≫= truncate = Some true)) ->
            (∀ m, (Truncated m ∉ tail) ∧ (SeedStart m ∉ tail)) ->
            (config st !! n) ≫= truncate = Some true
            ∧ ∃ t1 t2, ev0 = t1 ++ Truncated n :: SeedStart n :: t2) as Hrun.
  { intros ev0 tail -> Hev Htail.
    destruct (truncated_events_cases name) as [[Ht Hcfg]|[Ht Hcfg]];
      rewrite Ht in *; cbn [app] in *.
    - assert (n = name) as ->.
      { rewrite !elem_of_cons in Hev. destruct (Htail n). naive_solver. }
      split; [done|]. by exists [], tail.
    - exfalso. rewrite !elem_of_cons in Hev. destruct (Htail n). naive_solver. }
  assert (∀ ev0 later,
            ((config st !! n) ≫= truncate = Some true
             ∧ ∃ t1 t2, ev0 = t1 ++ Truncated n :: SeedStart n :: t2) ->
            (config st !! n) ≫= truncate = Some true
            ∧ ∃ t1 t2, ev0 ++ later = t1 ++ Truncated n :: SeedStart n :: t2) as Hleft.
  { intros ev0 later [Hc (t1 & t2 & ->)]. split; [done|]. exists t1, (t2 ++ later).
    by rewrite <-(assoc_L (++)). }
  assert (∀ ev0 later,
            ((config st !! n) ≫= truncate = Some true
             ∧ ∃ t1 t2, later = t1 ++ Truncated n :: SeedStart n :: t2) ->
            (config st !! n) ≫= truncate = Some true
            ∧ ∃ t1 t2, ev0 ++ later = t1 ++ Truncated n :: SeedStart n :: t2) as Hright.
  { intros ev0 later [Hc (t1 & t2 & ->)]. split; [done|]. exists (ev0 ++ t1), t2.
    by rewrite <-(assoc_L (++)). }
  assert (∀ ev0 later,
            (Truncated n ∈ ev0 ++ later
             ∨ (SeedStart n ∈ ev0 ++ later ∧ (config st !! n) ≫= truncate = Some true)) ->
            (Truncated n ∈ ev0
             ∨ (SeedStart n ∈ ev0 ∧ (config st !! n) ≫= truncate = Some true))
            ∨ (Truncated n ∈ later
               ∨ (SeedStart n ∈ later ∧ (config st !! n) ≫= truncate = Some true)))
    as Hsplit.
  { intros ev0 later [[?|?]%elem_of_app|[[?|?]%elem_of_app ?]]; auto. }
  destruct (runSeeder_cases name)
    as [[Hs Hrun']|[(Hs & Hex & Hrun')|[Hex [[Hs Hrun']|(msg & Hs & Hrun')]]]];
    rewrite Hrun' in Hr.
  - injection Hr as <- <-. destruct Hin as [Hin|[Hin _]]; by apply elem_of_nil in Hin.
  - destruct (run_sorted st node_env rest) as [r1 later] eqn:H1.
    injection Hr as <- <-. apply (Hright [Skipped name] later), (IH r1 later eq_refl).
    destruct Hin as [Hin|[Hin Hc]];
      (apply elem_of_cons in Hin as [[=]|Hin]); auto.
  - destruct (run_sorted st node_env rest) as [r1 later] eqn:H1.
    injection Hr as <- <-.
    destruct (Hsplit _ _ Hin) as [Hhere|Hlater].
    + apply Hleft, (Hrun _ [SeedEnd name]); [done|done|].
      intros m. split; by intros [=]%list_elem_of_singleton.
    + by apply Hright, (IH r1 later eq_refl).
  - injection Hr as <- <-. apply (Hrun _ []); [done|done|].
    intros m. split; by intros ?%elem_of_nil.
Qed.

(** An error of the sort names an unregistered dependency, the seeder
    that declares it, and that seeder is reached from the name visited. *)
Lemma visit_deps_throws_from (visitf : string -> Acc -> option (Result Error Acc))
    (requiredBy : string) :
  (∀ dep acc e, visitf dep acc = Some (Throw e) ->
     ∃ d by_, e = DependencyNotFound d by_ ∧ seeders st !! d = None
              ∧ declares st by_ d ∧ rtc (declares st) dep by_) ->
  ∀ deps acc e,
    (∀ d, d ∈ deps -> declares st requiredBy d) ->
    visit_deps st visitf requiredBy deps acc = Some (Throw e) ->
    ∃ d by_, e = DependencyNotFound d by_ ∧ seeders st !! d = None
             ∧ declares st by_ d ∧ rtc (declares st) requiredBy by_.
Proof.
  intros Hf. induction deps as [|dep rest IH]; intros acc e Hdecl Hv; simpl in Hv; [done|].
  case_decide as Hreg.
  - destruct (visitf dep acc) as [[acc1|e1]|] eqn:Hdep; try discriminate.
    + eapply IH; [|done]. intros d Hd. apply Hdecl. by right.
    + injection Hv as <-. destruct (Hf dep acc e1 Hdep) as (d & by_ & -> & ? & ? & Hreach).
      exists d, by_. split_and!; [done..|].
      eapply rtc_l; [|exact Hreach]. apply Hdecl. by left.
  - injection Hv as <-. exists dep, requiredBy. split_and!; [done| | |done].
    + by apply eq_None_not_Some.
    + apply Hdecl. by left.
Qed.

Lemma visit_throws_from fuel :
  ∀ name acc e, visit st fuel name acc = Some (Throw e) ->
    ∃ d by_, e = DependencyNotFound d by_ ∧ seeders st !! d = None
             ∧ declares st by_ d ∧ rtc (declares st) name by_.
Proof.
  induction fuel as [|fuel IH]; intros name acc e Hv; [done|]. simpl in Hv.
  case_decide; [done|].
  destruct ((config st !! name) ≫= dependencies) as [deps|] eqn:Hd; [|done].
  destruct (visit_deps st (visit st fuel) name deps _) as [[acc1|e1]|] eqn:Hloop;
    try discriminate.
  injection Hv as <-. eapply visit_deps_throws_from; [exact IH| |exact Hloop].
  intros d Hin. by exists deps.
Qed.

Lemma visit_all_throws_from fuel names :
  ∀ acc e, visit_all st fuel names acc = Some (Throw e) ->
    ∃ d by_ r, e = DependencyNotFound d by_ ∧ seeders st !! d = None
               ∧ declares st by_ d ∧ r ∈ names ∧ rtc (declares st) r by_.
Proof.
  induction names as [|name rest IH]; intros acc e Hv; simpl in Hv; [done|].
  destruct (visit st fuel name acc) as [[acc1|e1]|] eqn:Hname; try discriminate.
  - destruct (IH _ _ Hv) as (d & by_ & r & ? & ? & ? & ? & ?).
    exists d, by_, r. split_and!; [done..|by right|done].
  - injection Hv as <-.
    destruct (visit_throws_from _ _ _ _ Hname) as (d & by_ & ? & ? & ? & ?).
    exists d, by_, name. split_and!; [done..|by left|done].
Qed.

(** A sorted name that was not requested is a declared dependency of a
    sorted name, hence registered. *)
Lemma sorted_unrequested_registered names sorted n :
  sortByDependencies st names = Some (Ok sorted) ->
  n ∈ sorted -> n ∈ names ∨ is_Some (seeders st !! n).
Proof.
  intros Hs Hn.
  destruct (sortByDependencies_spec st names sorted Hs) as (_ & Hreq & Hreach & Hcl & _).
  destruct (Hreach n Hn) as (r & Hr & Hrn).
  assert (∀ a b, rtc (declares st) a b -> a ∈ sorted -> b ∈ sorted) as Hwalk.
  { induction 1 as [a|a b c Hab _ IH]; intros Ha; [done|].
    apply IH. by destruct (Hcl a b Ha Hab). }
  destruct (rtc_inv_r _ _ Hrn) as [->|(m & Hrm & Hmn)]; [by left|].
  right. apply (Hcl m n); [|done]. apply (Hwalk r m); auto.
Qed.

(** [Seeder not found] names a requested name that is not registered. *)
Lemma seed_not_found names n trace :
  seed st node_env names = Some (Throw (SeederNotFound n), trace) ->
  n ∈ names ∧ seeders st !! n = None.
Proof.
  unfold seed. intros Hseed.
  destruct (sortByDependencies st names) as [[sorted|e']|] eqn:Hsort; [| |done].
  - destruct (run_sorted_throws sorted (SeederNotFound n) trace)
      as [(n' & [= <-] & Hin & Hn)|(n' & msg & t & [=] & _)]; [congruence|].
    destruct (sorted_unrequested_registered names sorted n Hsort Hin) as [?|[? ?]];
      [done|congruence].
  - injection Hseed as -> <-. unfold sortByDependencies in Hsort.
    destruct (visit_all st (depth_bound st) names (∅, [])) as [[acc|e'']|] eqn:Hv;
      try discriminate.
    injection Hsort as ->.
    by destruct (visit_all_throws_from _ _ _ _ Hv) as (d & by_ & r & [=] & _).
Qed.

(** A seeder without dependencies that was not visited is appended. *)
Lemma visit_independent fuel name acc :
  name ∉ acc.1 ->
  default [] ((config st !! name) ≫= dependencies) = [] ->
  visit st (S fuel) name acc = Some (Ok ({[name]} ∪ acc.1, acc.2 ++ [name])).
Proof.
  intros Hnew Hdeps. simpl. rewrite decide_False by done.
  destruct ((config st !! name) ≫= dependencies) as [deps|]; [|done].
  simpl in Hdeps. by subst deps.
Qed.

Lemma visit_all_independent fuel names :
  ∀ acc,
    NoDup names ->
    (∀ n, n ∈ names -> (n ∉ acc.1)
                       ∧ default [] ((config st !! n) ≫= dependencies) = []) ->
    ∃ visited,
      visit_all st (S fuel) names acc = Some (Ok (visited, acc.2 ++ names)).
Proof.
  induction names as [|name rest IH]; intros acc Hnd Hall.
  { exists acc.1. simpl. rewrite app_nil_r. by destruct acc. }
  apply NoDup_cons in Hnd as [Hname Hnd].
  destruct (Hall name) as [Hnew Hdeps]; [by left|].
  cbn [visit_all]. rewrite (visit_independent fuel name acc Hnew Hdeps).
  destruct (IH ({[name]} ∪ acc.1, acc.2 ++ [name]) Hnd) as [visited Hv].
  { intros n Hn. destruct (Hall n) as [? ?]; [by right|]. split; [|done].
    simpl. set_solver. }
  exists visited. rewrite Hv. simpl. by rewrite <-(assoc_L (++)).
Qed.

End runs.

(** [seed] reads the environment through [current_env] only. *)
Lemma seed_current_env st env1 env2 names :
  current_env env1 = current_env env2 ->
  seed st env1 names = seed st env2 names.
Proof.
  intros Henv. unfold seed.
  destruct (sortByDependencies st names) as [[sorted|e]|]; [|done..]. f_equal.
  induction sorted as [|name rest IH]; [done|]. simpl. rewrite IH.
  unfold runSeeder, excluded_by_environment. by rewrite Henv.
Qed.


(** When [seed] returns without an error, every requested seeder and every
    seeder reached from one through declared dependencies is registered
    and was seeded from start to end, or skipped when its environment list
    excludes the current environment. *)
Theorem seed_success_covers_dependencies st node_env names trace :
  seed st node_env names = Some (Ok tt, trace) ->
  ∀ r n, r ∈ names -> rtc (declares st) r n ->
    is_Some (seeders st !! n)
    ∧ (if excluded_by_environment st node_env n
       then Skipped n ∈ trace
       else happens_before (SeedStart n) (SeedEnd n) trace).
Proof.
  unfold seed. intros Hseed r n Hr Hrn.
  destruct (sortByDependencies st names) as [[sorted|e]|] eqn:Hsort; try done.
  injection Hseed as Hrun.
  destruct (sortByDependencies_spec st names sorted Hsort) as (_ & Hreq & _ & Hcl & _).
  apply (run_sorted_ok st node_env sorted trace n Hrun).
  specialize (Hreq r Hr). clear Hr.
  induction Hrn as [x|x y z Hxy _ IH]; [done|].
  apply IH. by destruct (Hcl x y Hreq Hxy).
Qed.

Lemma seed_success_covers_dependencies_witness :
  let trace := [SeedStart "roles"; SeedEnd "roles"; SeedStart "users"; SeedEnd "users"] in
  seed roles_users (Some "test") ["users"] = Some (Ok tt, trace)
  ∧ ∀ r n, r ∈ ["users"] -> rtc (declares roles_users) r n ->
      is_Some (seeders roles_users !! n)
      ∧ (if excluded_by_environment roles_users (Some "test") n
         then Skipped n ∈ trace
         else happens_before (SeedStart n) (SeedEnd n) trace).
Proof.
  intros trace.
  assert (seed roles_users (Some "test") ["users"] = Some (Ok tt, trace)) as Hseed
    by (vm_compute; reflexivity).
  split; [exact Hseed|].
  exact (seed_success_covers_dependencies roles_users (Some "test") ["users"] trace Hseed).
Defined.

(** The errors of [seed]. An unregistered dependency is reported by the
    sort, with the seeder that declares it (one reached from a requested
    name), and nothing has run. [Seeder not found] names a requested name
    that is not registered. Any other error is the rejection of a seed
    function, and the start of that function is the last event: the
    seeders sorted after it are not run. *)
Theorem seed_error_names_its_cause st node_env names e trace :
  seed st node_env names = Some (Throw e, trace) ->
  match e with
  | DependencyNotFound d requiredBy =>
    trace = [] ∧ seeders st !! d = None ∧ declares st requiredBy d
    ∧ ∃ r, r ∈ names ∧ rtc (declares st) r requiredBy
  | SeederNotFound n => n ∈ names ∧ seeders st !! n = None
  | SeedError msg =>
    ∃ n t, seeders st !! n = Some (SeedRejects msg) ∧ trace = t ++ [SeedStart n]
  end.
Proof.
  intros Hseed. destruct e as [d requiredBy|n|msg].
  - unfold seed in Hseed.
    destruct (sortByDependencies st names) as [[sorted|e']|] eqn:Hsort; [| |done].
    + by destruct (run_sorted_throws st node_env sorted
                     (DependencyNotFound d requiredBy) trace)
        as [(n & [=] & _)|(n & msg & t & [=] & _)]; [congruence|..].
    + injection Hseed as -> <-. unfold sortByDependencies in Hsort.
      destruct (visit_all st (depth_bound st) names (∅, [])) as [[acc|e'']|] eqn:Hv;
        try discriminate.
      injection Hsort as ->.
      destruct (visit_all_throws_from _ _ _ _ _ Hv)
        as (d' & by_ & r & [= <- <-] & ? & ? & ? & ?).
      split_and!; [done..|]. by exists r.
  - by eapply seed_not_found.
  - unfold seed in Hseed.
    destruct (sortByDependencies st names) as [[sorted|e']|] eqn:Hsort; [| |done].
    + destruct (run_sorted_throws st node_env sorted (SeedError msg) trace)
        as [(n & [=] & _)|(n & msg' & t & [= <-] & _ & Hn & ->)]; [congruence|].
      by exists n, t.
    + injection Hseed as -> <-. unfold sortByDependencies in Hsort.
      destruct (visit_all st (depth_bound st) names (∅, [])) as [[acc|e'']|] eqn:Hv;
        try discriminate.
      injection Hsort as ->.
      by destruct (visit_all_throws_from _ _ _ _ _ Hv) as (d' & by_ & r & [=] & _).
Qed.

Lemma seed_error_names_its_cause_witness :
  seed missing_dep None ["users"] = Some (Throw (DependencyNotFound "ghost" "users"), [])
  ∧ [] = ([] : list Event) ∧ seeders missing_dep !! "ghost" = None
  ∧ declares missing_dep "users" "ghost"
  ∧ ∃ r, r ∈ ["users"] ∧ rtc (declares missing_dep) r "users".
Proof.
  assert (seed missing_dep None ["users"]
          = Some (Throw (DependencyNotFound "ghost" "users"), [])) as Hseed
    by (vm_compute; reflexivity).
  split; [exact Hseed|].
  exact (seed_error_names_its_cause missing_dep None ["users"]
           (DependencyNotFound "ghost" "users") [] Hseed).
Defined.

(** [seedAll] requests the registered names, and a call of [seed] for
    registered names never reports [Seeder not found]. *)
Theorem seedAll_finds_every_seeder st node_env :
  (∀ names res trace,
     (∀ n, n ∈ names -> is_Some (seeders st !! n)) ->
     seed st node_env names = Some (res, trace) ->
     ∀ n, res ≠ Throw (SeederNotFound n))
  ∧ (∀ res trace,
       seedAll st node_env = Some (res, trace) ->
       ∀ n, res ≠ Throw (SeederNotFound n)).
Proof.
  assert (∀ names res trace,
            (∀ n, n ∈ names -> is_Some (seeders st !! n)) ->
            seed st node_env names = Some (res, trace) ->
            ∀ n, res ≠ Throw (SeederNotFound n)) as Hgen.
  { intros names res trace Hreg Hseed n ->.
    destruct (seed_not_found st node_env names n trace Hseed) as [Hin Hnone].
    destruct (Hreg n Hin) as [? ?]. congruence. }
  split; [exact Hgen|].
  intros res trace. apply Hgen. intros n Hin.
  apply list_elem_of_fmap in Hin as ([k v] & -> & Hkv).
  apply elem_of_map_to_list in Hkv. simpl. by rewrite Hkv.
Qed.

(** A seeder whose [environment] list does not contain the current
    environment ([NODE_ENV], or [development] when it is unset or empty)
    is neither truncated nor seeded by any call of [seed]; and [seed] does
    the same for an unset, an empty and a [development] [NODE_ENV]. *)
Theorem seed_skips_other_environments st node_env names res trace n envs :
  seed st node_env names = Some (res, trace) ->
  (config st !! n) ≫= environment = Some envs ->
  current_env node_env ∉ envs ->
  (Truncated n ∉ trace) ∧ (SeedStart n ∉ trace) ∧ (SeedEnd n ∉ trace)
  ∧ seed st None names = seed st (Some "development") names
  ∧ seed st (Some "") names = seed st (Some "development") names.
Proof.
  intros Hseed Henv Hnot.
  assert (excluded_by_environment st node_env n = true) as Hex.
  { unfold excluded_by_environment. rewrite Henv. by apply bool_decide_eq_true. }
  unfold seed in Hseed.
  destruct (sortByDependencies st names) as [[sorted|e]|] eqn:Hsort; [| |done].
  - injection Hseed as Hrun.
    destruct (run_sorted_excluded st node_env sorted res trace n Hrun Hex) as (?&?&?).
    split_and!; [done..| |]; by apply seed_current_env.
  - injection Hseed as <- <-.
    split_and!; try (by intros ?%elem_of_nil); by apply seed_current_env.
Qed.

Lemma seed_skips_other_environments_witness :
  let trace := [SeedStart "roles"; SeedEnd "roles"; Skipped "users"] in
  seed roles_users None ["users"] = Some (Ok tt, trace)
  ∧ (Truncated "users" ∉ trace) ∧ (SeedStart "users" ∉ trace)
  ∧ (SeedEnd "users" ∉ trace)
  ∧ seed roles_users None ["users"] = seed roles_users (Some "development") ["users"]
  ∧ seed roles_users (Some "") ["users"]
    = seed roles_users (Some "development") ["users"].
Proof.
  intros trace.
  assert (seed roles_users None ["users"] = Some (Ok tt, trace)) as Hseed
    by (vm_compute; reflexivity).
  split; [exact Hseed|].
  apply (seed_skips_other_environments roles_users None ["users"] (Ok tt) trace
           "users" ["test"] Hseed).
  - reflexivity.
  - vm_compute. intros Hin. inversion Hin as [|? ? ? Hin']. inversion Hin'.
Defined.

(** A table is truncated only for a seeder configured with [truncate], and
    directly before the seed function of that seeder starts; and a seed
    function of such a seeder never starts without the truncation. *)
Theorem seed_truncates_directly_before_seeding st node_env names res trace n :
  seed st node_env names = Some (res, trace) ->
  Truncated n ∈ trace
  ∨ (SeedStart n ∈ trace ∧ (config st !! n) ≫= truncate = Some true) ->
  (config st !! n) ≫= truncate = Some true
  ∧ ∃ t1 t2, trace = t1 ++ Truncated n :: SeedStart n :: t2.
Proof.
  unfold seed. intros Hseed Hin.
  destruct (sortByDependencies st names) as [[sorted|e]|] eqn:Hsort; [| |done].
  - injection Hseed as Hrun. by eapply run_sorted_truncates.
  - injection Hseed as <- <-. destruct Hin as [Hin|[Hin _]]; by apply elem_of_nil in Hin.
Qed.

(** The seeder of the README: [users], truncated, after [roles]. *)
Definition readme_seeders : State :=
  register "users" SeedResolves
    {| truncate := Some true; dependencies := Some ["roles"];
       environment := Some ["development"; "test"] |}
    (register "roles" SeedResolves no_config empty).

Lemma seed_truncates_directly_before_seeding_witness :
  let trace := [SeedStart "roles"; SeedEnd "roles";
                Truncated "users"; SeedStart "users"; SeedEnd "users"] in
  seed readme_seeders None ["roles"; "users"] = Some (Ok tt, trace)
  ∧ (config readme_seeders !! "users") ≫= truncate = Some true
  ∧ ∃ t1 t2, trace = t1 ++ Truncated "users" :: SeedStart "users" :: t2.
Proof.
  intros trace.
  assert (seed readme_seeders None ["roles"; "users"] = Some (Ok tt, trace)) as Hseed
    by (vm_compute; reflexivity).
  split; [exact Hseed|].
  apply (seed_truncates_directly_before_seeding readme_seeders None ["roles"; "users"]
           (Ok tt) trace "users" Hseed).
  left. unfold trace. do 2 right. left.
Defined.

(** Requested seeders that declare no dependencies, each requested once,
    are run in the order of the request (registered or not: the sort does
    not look the requested names up). *)
Theorem seed_keeps_request_order st node_env names :
  NoDup names ->
  (∀ n, n ∈ names -> default [] ((config st !! n) ≫= dependencies) = []) ->
  sortByDependencies st names = Some (Ok names)
  ∧ seed st node_env names = Some (run_sorted st node_env names).
Proof.
  intros Hnd Hdeps.
  assert (sortByDependencies st names = Some (Ok names)) as Hsort.
  { unfold sortByDependencies, depth_bound.
    destruct (visit_all_independent st (size (dom (config st))) names (∅, []) Hnd)
      as [visited ->]; [|done].
    intros n Hn. split; [set_solver|by apply Hdeps]. }
  split; [done|]. unfold seed. by rewrite Hsort.
Qed.

Lemma seed_keeps_request_order_witness :
  let st := register "b" SeedResolves no_config (register "a" SeedResolves no_config empty) in
  sortByDependencies st ["b"; "a"] = Some (Ok ["b"; "a"])
  ∧ seed st None ["b"; "a"] = Some (run_sorted st None ["b"; "a"]).
Proof.
  intros st. apply (seed_keeps_request_order st None ["b"; "a"]).
  - apply (bool_decide_unpack _). vm_compute. exact I.
  - intros n Hn. apply elem_of_cons in Hn as [->|Hn]; [reflexivity|].
    apply elem_of_cons in Hn as [->|Hn]; [reflexivity|]. by apply elem_of_nil in Hn.
Defined.

End Seeder.

(* ================================================================== *)
(** ** FixtureManager *)
(* ================================================================== *)

Module Fixture.

Inductive Scope : Type := test | suite | global.

Inductive Error : Type :=
| FixtureAlreadyRegistered (fixtureName : string)
| FixtureNotFound (fixtureName : string)
| CallbackError (message : string)
| StackOverflow.
    (* the engine's [RangeError: Maximum call stack size exceeded] *)

(** What a [setup] callback does when it is invoked: it returns a promise
    that is already fulfilled (an [async] body without a pending [await]),
    already rejected (the body throws), or still pending (the body waits
    for I/O; the environment settles the promise later). *)
Inductive Setup : Type :=
| SetupCompletes
| SetupFails (message : string)
| SetupWaits.

(** What a [teardown] callback does when it is awaited. *)
Inductive Teardown : Type :=
| TeardownCompletes
| TeardownFails (message : string).

(** [FixtureConfig] of data.types.ts. *)
Record FixtureConfig : Type := {
  name : string;
  scope : Scope;
  dependencies : option (list string);
  setup : option Setup;
  teardown : option Teardown
}.

(** How a promise is settled. Every promise of the manager is a
    [Promise<void>], so a fulfilment carries no value. *)
Inductive Outcome : Type :=
| Fulfilled
| Rejected (e : Error).

(** The code that runs when an awaited promise settles: the rest of an
    [async] function after one of its [await]s, and the reactions
    [Promise.all] and promise adoption register. *)
Inductive Reaction : Type :=
| ResumeLoadAfterDeps (fixtureName : string) (fixture : FixtureConfig) (result : nat)
    (* [load] after [await Promise.all(...)] *)
| ResumeSetup (fixtureName : string) (setupPromise : nat)
    (* the [async] arrow of [load] after [await fixture.setup()] *)
| ResumeLoadAfterSetup (fixtureName : string) (result : nat)
    (* [load] after [await setupPromise] *)
| AllElement (all : nat)
    (* [Promise.all]: one of its elements has settled *)
| Adopt (target : nat).
    (* [target] was resolved with the promise that has settled *)

(** A promise: [None] while pending; the reactions waiting for it; for a
    promise made by [Promise.all], the number of elements not yet
    fulfilled. *)
Record Promise : Type := {
  status : option Outcome;
  reactions : list Reaction;
  remaining : nat
}.

(** A job of the microtask queue. *)
Inductive Microtask : Type :=
| React (r : Reaction) (o : Outcome)
| ThenableJob (target source : nat).
    (* [target] was resolved with the promise [source]:
       the job calls [source.then] *)

Inductive Event : Type :=
| SetupStart (fixtureName : string)
| SetupEnd (fixtureName : string)
| Loaded (fixtureName : string)
| TeardownStart (fixtureName : string)
| TeardownEnd (fixtureName : string)
| Unloaded (fixtureName : string).

#[global] Instance Event_eq_dec : EqDecision Event.
Proof. solve_decision. Defined.

(** The three fields of the manager, and the part of the JavaScript
    runtime its promises live in: the promises (a promise is its index),
    the microtask queue, the promise each invocation of a [setup] callback
    returned (in invocation order), and the events so far. *)
Record State : Type := {
  fixtures : gmap string FixtureConfig;
  loadedFixtures : gset string;
  setupPromises : gmap string nat;
  promises : list Promise;
  microtasks : list Microtask;
  setupCalls : list (string * nat);
  log : list Event
}.

Definition initial (fs : gmap string FixtureConfig) : State :=
  {| fixtures := fs; loadedFixtures := ∅; setupPromises := ∅;
     promises := []; microtasks := []; setupCalls := []; log := [] |}.

Definition with_loadedFixtures (f : gset string -> gset string) (st : State) : State :=
  {| fixtures := fixtures st; loadedFixtures := f (loadedFixtures st);
     setupPromises := setupPromises st; promises := promises st;
     microtasks := microtasks st; setupCalls := setupCalls st; log := log st |}.

Definition with_setupPromises (f : gmap string nat -> gmap string nat) (st : State)
  : State :=
  {| fixtures := fixtures st; loadedFixtures := loadedFixtures st;
     setupPromises := f (setupPromises st); promises := promises st;
     microtasks := microtasks st; setupCalls := setupCalls st; log := log st |}.

Definition with_promises (f : list Promise -> list Promise) (st : State) : State :=
  {| fixtures := fixtures st; loadedFixtures := loadedFixtures st;
     setupPromises := setupPromises st; promises := f (promises st);
     microtasks := microtasks st; setupCalls := setupCalls st; log := log st |}.

Definition with_microtasks (f : list Microtask -> list Microtask) (st : State) : State :=
  {| fixtures := fixtures st; loadedFixtures := loadedFixtures st;
     setupPromises := setupPromises st; promises := promises st;
     microtasks := f (microtasks st); setupCalls := setupCalls st; log := log st |}.

Definition with_setupCalls (f : list (string * nat) -> list (string * nat)) (st : State)
  : State :=
  {| fixtures := fixtures st; loadedFixtures := loadedFixtures st;
     setupPromises := setupPromises st; promises := promises st;
     microtasks := microtasks st; setupCalls := f (setupCalls st); log := log st |}.

Definition emit (ev : Event) (st : State) : State :=
  {| fixtures := fixtures st; loadedFixtures := loadedFixtures st;
     setupPromises := setupPromises st; promises := promises st;
     microtasks := microtasks st; setupCalls := setupCalls st;
     log := log st ++ [ev] |}.

(** [register]: a name is registered once. *)
Definition register (cfg : FixtureConfig) (st : State) : Result Error unit * State :=
  match fixtures st !! name cfg with
  | Some _ => (Throw (FixtureAlreadyRegistered (name cfg)), st)
  | None =>
    (Ok tt,
     {| fixtures := <[name cfg := cfg]> (fixtures st);
        loadedFixtures := loadedFixtures st; setupPromises := setupPromises st;
        promises := promises st; microtasks := microtasks st;
        setupCalls := setupCalls st; log := log st |})
  end.

(** [reset] forgets what is loaded and in flight. *)
Definition reset (st : State) : State :=
  with_setupPromises (λ _, ∅) (with_loadedFixtures (λ _, ∅) st).

Definition isLoaded (fixtureName : string) (st : State) : bool :=
  bool_decide (fixtureName ∈ loadedFixtures st).

(** *** Promises *)

Definition pending (count : nat) : Promise :=
  {| status := None; reactions := []; remaining := count |}.

(** A new pending promise. *)
Definition new_promise (count : nat) (st : State) : nat * State :=
  (length (promises st), with_promises (λ ps, ps ++ [pending count]) st).

Definition enqueue (m : Microtask) (st : State) : State :=
  with_microtasks (λ q, q ++ [m]) st.

Definition status_of (p : nat) (st : State) : option Outcome :=
  promises st !! p ≫= status.

Definition is_pending (p : nat) (st : State) : bool :=
  match promises st !! p with
  | Some pr => match status pr with Some _ => false | None => true end
  | None => false
  end.

(** Settling a pending promise queues its reactions, in the order they
    were registered; a settled promise stays as it is. *)
Definition settle (p : nat) (o : Outcome) (st : State) : State :=
  match promises st !! p with
  | Some pr =>
    match status pr with
    | None =>
      with_microtasks (λ q, q ++ map (λ r, React r o) (reactions pr))
        (with_promises
           (λ ps, <[p := {| status := Some o; reactions := [];
                            remaining := remaining pr |}]> ps) st)
    | Some _ => st
    end
  | None => st
  end.

(** [await p], [p.then(...)]: the reaction is queued at once when [p] is
    settled, and kept with [p] otherwise. *)
Definition subscribe (p : nat) (r : Reaction) (st : State) : State :=
  match promises st !! p with
  | Some pr =>
    match status pr with
    | None =>
      with_promises
        (λ ps, <[p := {| status := None; reactions := reactions pr ++ [r];
                         remaining := remaining pr |}]> ps) st
    | Some o => enqueue (React r o) st
    end
  | None => st
  end.

(** [Promise.all(ps)]: fulfilled at once for no element; otherwise it
    reacts to every element. *)
Definition promise_all (ps : list nat) (st : State) : nat * State :=
  let '(all, st) := new_promise (length ps) st in
  match ps with
  | [] => (all, settle all Fulfilled st)
  | _ => (all, foldl (λ st p, subscribe p (AllElement all) st) st ps)
  end.

(** One element of [Promise.all] is fulfilled. *)
Definition element_fulfilled (all : nat) (st : State) : State :=
  match promises st !! all with
  | Some pr =>
    let st :=
      with_promises
        (λ ps, <[all := {| status := status pr; reactions := reactions pr;
                           remaining := pred (remaining pr) |}]> ps) st in
    if decide (remaining pr ≤ 1)%nat then settle all Fulfilled st else st
  | None => st
  end.

(** *** [load] *)

(** [fixture.setup()] is invoked. *)
Definition invoke_setup (fixtureName : string) (behaviour : Setup) (st : State)
  : nat * State :=
  let st := emit (SetupStart fixtureName) st in
  let '(q, st) := new_promise 0 st in
  let st := with_setupCalls (λ calls, calls ++ [(fixtureName, q)]) st in
  match behaviour with
  | SetupCompletes => (q, settle q Fulfilled (emit (SetupEnd fixtureName) st))
  | SetupFails msg => (q, settle q (Rejected (CallbackError msg)) st)
  | SetupWaits => (q, st)
  end.

(** The end of the [async] arrow of [load], after the setup:
    [loadedFixtures.add], [setupPromises.delete]. *)
Definition finish_setup (fixtureName : string) (setupPromise : nat) (st : State)
  : State :=
  let st := with_loadedFixtures (λ s, {[fixtureName]} ∪ s) st in
  let st := emit (Loaded fixtureName) st in
  let st := with_setupPromises (delete fixtureName) st in
  settle setupPromise Fulfilled st.

(** [load] from [const setupPromise = (async () => ...)()] to
    [await setupPromise]: the arrow function runs up to its first [await]
    (to its end, when there is no [setup]), then its promise is stored. *)
Definition run_setup (fixtureName : string) (fixture : FixtureConfig) (result : nat)
  (st : State) : State :=
  let '(setupPromise, st) := new_promise 0 st in
  let st :=
    match setup fixture with
    | Some behaviour =>
      let '(q, st) := invoke_setup fixtureName behaviour st in
      subscribe q (ResumeSetup fixtureName setupPromise) st
    | None => finish_setup fixtureName setupPromise st
    end in
  let st := with_setupPromises (<[fixtureName := setupPromise]>) st in
  subscribe setupPromise (ResumeLoadAfterSetup fixtureName result) st.

(** [fixture.dependencies.map(dep => this.load(dep))]: the calls are made
    one after the other, none is awaited. *)
Definition load_each (load : string -> State -> nat * State)
  : list string -> State -> list nat * State :=
  fix each (deps : list string) (st : State) : list nat * State :=
    match deps with
    | [] => ([], st)
    | dep :: rest =>
      let '(p, st) := load dep st in
      let '(ps, st) := each rest st in
      (p :: ps, st)
    end.

(** [load], from the call to the point where the call returns its promise
    to the caller: an [async] function runs synchronously up to its first
    [await] (or to its end). [depth] is the number of nested calls of
    [load] the call stack still holds. A call made when none is left fails
    with the engine's [RangeError]; [load] is an [async] function, so the
    error rejects the promise of that call, and the caller (the [map] over
    the dependencies) goes on with it. *)
Fixpoint load (depth : nat) (fixtureName : string) (st : State) : nat * State :=
  match depth with
  | 0 =>
    let '(result, st) := new_promise 0 st in
    (result, settle result (Rejected StackOverflow) st)
  | S depth' =>
    let '(result, st) := new_promise 0 st in
    match fixtures st !! fixtureName with
    | None => (result, settle result (Rejected (FixtureNotFound fixtureName)) st)
    | Some fixture =>
      match setupPromises st !! fixtureName with
      | Some inflight => (result, enqueue (ThenableJob result inflight) st)
      | None =>
        if decide (fixtureName ∈ loadedFixtures st)
        then (result, settle result Fulfilled st)
        else
          match dependencies fixture with
          | Some deps =>
            let '(ps, st) := load_each (load depth') deps st in
            let '(all, st) := promise_all ps st in
            (result, subscribe all (ResumeLoadAfterDeps fixtureName fixture result) st)
          | None => (result, run_setup fixtureName fixture result st)
          end
      end
    end
  end.

(** *** The event loop *)

(** One job of the microtask queue. A rejection that reaches [load] at an
    [await] goes through its [catch], which logs and rethrows. *)
Definition run_microtask (m : Microtask) (st : State) : State :=
  match m with
  | ThenableJob target source => subscribe source (Adopt target) st
  | React (Adopt target) o => settle target o st
  | React (AllElement all) Fulfilled => element_fulfilled all st
  | React (AllElement all) (Rejected e) => settle all (Rejected e) st
  | React (ResumeLoadAfterDeps fixtureName fixture result) Fulfilled =>
    run_setup fixtureName fixture result st
  | React (ResumeLoadAfterDeps fixtureName fixture result) (Rejected e) =>
    settle result (Rejected e) st
  | React (ResumeSetup fixtureName setupPromise) Fulfilled =>
    finish_setup fixtureName setupPromise st
  | React (ResumeSetup fixtureName setupPromise) (Rejected e) =>
    settle setupPromise (Rejected e) st
  | React (ResumeLoadAfterSetup fixtureName result) o => settle result o st
  end.

(** Runs the microtask queue until it is empty ([None]: [fuel] jobs were
    not enough). *)
Fixpoint drain (fuel : nat) (st : State) : option State :=
  match microtasks st with
  | [] => Some st
  | m :: rest =>
    match fuel with
    | 0 => None
    | S fuel' => drain fuel' (run_microtask m (with_microtasks (λ _, rest) st))
    end
  end.

(** The environment settles the promise of the [i]-th invocation of a
    [setup] callback (one that was waiting). *)
Definition settle_setup (i : nat) (o : Outcome) (st : State) : State :=
  match setupCalls st !! i with
  | Some (fixtureName, q) =>
    if is_pending q st
    then match o with
         | Fulfilled => settle q o (emit (SetupEnd fixtureName) st)
         | Rejected _ => settle q o st
         end
    else st
  | None => st
  end.

(** What a test, or the environment, does in one task of the event loop. *)
Inductive Command : Type :=
| CallLoad (fixtureName : string)
| SettleSetup (i : nat) (o : Outcome)
| CallReset.

(** Runs the commands of one task; collects the promises the calls of
    [load] returned. *)
Fixpoint exec (depth : nat) (cmds : list Command) (st : State)
  : list nat * State :=
  match cmds with
  | [] => ([], st)
  | CallLoad fixtureName :: rest =>
    let '(p, st) := load depth fixtureName st in
    let '(ps, st) := exec depth rest st in
    (p :: ps, st)
  | SettleSetup i o :: rest => exec depth rest (settle_setup i o st)
  | CallReset :: rest => exec depth rest (reset st)
  end.

(** Runs the tasks in order; the microtask queue is emptied after each
    task. [None]: [fuel] jobs were not enough to empty it. *)
Fixpoint run (depth fuel : nat) (tasks : list (list Command)) (st : State)
  : option (list nat * State) :=
  match tasks with
  | [] => Some ([], st)
  | task :: later =>
    let '(ps, st) := exec depth task st in
    st ← drain fuel st;
    '(qs, st) ← run depth fuel later st;
    Some (ps ++ qs, st)
  end.

(** *** [unload]

    [unload] awaits one thing at a time, so a call that runs alone (no
    other call of the manager is made while it waits) is a sequential
    program: each awaited callback is run to its end. *)

(** [await fixture.teardown()]. *)
Definition run_teardown (fixtureName : string) (fixture : FixtureConfig) (st : State)
  : Result Error unit * State :=
  match teardown fixture with
  | Some TeardownCompletes =>
    (Ok tt, emit (TeardownEnd fixtureName) (emit (TeardownStart fixtureName) st))
  | Some (TeardownFails msg) =>
    (Throw (CallbackError msg), emit (TeardownStart fixtureName) st)
  | None => (Ok tt, st)
  end.

(** The loop over [this.fixtures.entries()] in [unload]: every fixture that
    lists [fixtureName] among its dependencies is unloaded, one after the
    other. ([map_to_list] gives the entries in an order of its own, not in
    insertion order.) *)
Definition unload_dependents
  (unload : string -> State -> option (Result Error unit * State))
  (fixtureName : string)
  : list (string * FixtureConfig) -> State -> option (Result Error unit * State) :=
  fix each (entries : list (string * FixtureConfig)) (st : State) :=
    match entries with
    | [] => Some (Ok tt, st)
    | (dependent, fix_) :: rest =>
      if decide (fixtureName ∈ default [] (dependencies fix_))
      then match unload dependent st with
           | Some (Ok _, st) => each rest st
           | other => other
           end
      else each rest st
    end.

(** [unload]; [depth] is the call stack that is left ([None]: exhausted). *)
Fixpoint unload (depth : nat) (fixtureName : string) (st : State)
  : option (Result Error unit * State) :=
  match depth with
  | 0 => None
  | S depth' =>
    match fixtures st !! fixtureName with
    | None => Some (Throw (FixtureNotFound fixtureName), st)
    | Some fixture =>
      if decide (fixtureName ∈ loadedFixtures st)
      then
        match unload_dependents (unload depth') fixtureName
                (map_to_list (fixtures st)) st with
        | Some (Ok _, st) =>
          match run_teardown fixtureName fixture st with
          | (Ok _, st) =>
            Some (Ok tt,
                  emit (Unloaded fixtureName)
                    (with_loadedFixtures (λ s, s ∖ {[fixtureName]}) st))
          | (Throw e, st) => Some (Throw e, st)
          end
        | other => other
        end
      else Some (Ok tt, st)
    end
  end.



(** [f] lists [d] among its dependencies. *)
Definition depends (st : State) (f d : string) : Prop :=
  ∃ cfg, fixtures st !! f = Some cfg ∧ d ∈ default [] (dependencies cfg).

(** No loaded fixture has an unloaded dependency. *)
Definition deps_loaded (st : State) : Prop :=
  ∀ f d, f ∈ loadedFixtures st -> depends st f d -> d ∈ loadedFixtures st.


(** [deps_loaded], fixture by fixture. *)
Definition deps_loaded_each (st : State) : Prop :=
  set_Forall
    (λ f, match fixtures st !! f with
          | Some cfg =>
            Forall (λ d, d ∈ loadedFixtures st) (default [] (dependencies cfg))
          | None => True
          end)
    (loadedFixtures st).

#[global] Instance deps_loaded_each_dec st : Decision (deps_loaded_each st).
Proof.
  unfold deps_loaded_each. apply set_Forall_dec. intros f.
  destruct (fixtures st !! f); apply _.
Defined.

(** Only promises and the microtask queue differ between [st] and [st']. *)
Definition heap_only (st st' : State) : Prop :=
  fixtures st' = fixtures st
  ∧ loadedFixtures st' = loadedFixtures st
  ∧ setupPromises st' = setupPromises st
  ∧ setupCalls st' = setupCalls st
  ∧ log st' = log st.

(** The fixtures of [C] each declare a dependency that is in [C] again: a
    dependency cycle, possibly with fixtures that lead into it. *)
Definition cyclic (st : State) (C : gset string) : Prop :=
  ∀ n, n ∈ C ->
    ∃ fx deps m, fixtures st !! n = Some fx ∧ dependencies fx = Some deps
                 ∧ m ∈ deps ∧ m ∈ C.

(** No fixture of [C] is loaded or has a setup promise stored. *)
Definition untouched (st : State) (C : gset string) : Prop :=
  ∀ n, n ∈ C -> setupPromises st !! n = None ∧ n ∉ loadedFixtures st.

(** What the synchronous part of [load] leaves alone: the registry, and
    the entries of the fixtures that have a dependency list. *)
Definition sync_frame (st st' : State) : Prop :=
  fixtures st' = fixtures st
  ∧ ∀ n fx deps, fixtures st !! n = Some fx -> dependencies fx = Some deps ->
      setupPromises st' !! n = setupPromises st !! n
      ∧ (n ∈ loadedFixtures st' -> n ∈ loadedFixtures st).

(** The events of [run_setup]: what the [async] arrow of [load] does
    before it first suspends. *)
Definition setup_events (fixtureName : string) (fx : FixtureConfig) : list Event :=
  match setup fx with
  | None => [Loaded fixtureName]
  | Some SetupCompletes => [SetupStart fixtureName; SetupEnd fixtureName]
  | Some (SetupFails _) | Some SetupWaits => [SetupStart fixtureName]
  end.

(** A registered fixture without a dependency list whose setup waits for
    the environment. *)
Definition waiting_leaf (st : State) (d : string) : Prop :=
  ∃ fx, fixtures st !! d = Some fx ∧ dependencies fx = None
        ∧ setup fx = Some SetupWaits.

(** From [st] to [st'] no promise was settled and no microtask queued:
    the queue is the same and what was pending is pending. *)
Definition still (st st' : State) : Prop :=
  microtasks st' = microtasks st
  ∧ ∀ q, is_pending q st = true -> is_pending q st' = true.

(** Neither loaded nor with a stored setup promise. *)
Definition idle (st : State) (d : string) : Prop :=
  setupPromises st !! d = None ∧ d ∉ loadedFixtures st.

(** How often the [setup] callback of a fixture was invoked. *)
Definition setup_count (fixtureName : string) (st : State) : nat :=
  length (filter (λ c, c.1 = fixtureName) (setupCalls st)).

(** The reaction belongs to a call of [load(fixtureName)] that has not
    yet finished its setup arrow: resumed, it stores a setup promise for the
    fixture or marks the fixture loaded. *)
Definition runs_setup_of (fixtureName : string) (r : Reaction) : Prop :=
  match r with
  | ResumeLoadAfterDeps n _ _ | ResumeSetup n _ => n = fixtureName
  | _ => False
  end.

Definition quiet (fixtureName : string) (m : Microtask) : Prop :=
  match m with
  | React r _ => ¬ runs_setup_of fixtureName r
  | ThenableJob _ _ => True
  end.

#[global] Instance runs_setup_of_dec fixtureName r :
  Decision (runs_setup_of fixtureName r).
Proof. destruct r; simpl; apply _. Defined.

#[global] Instance quiet_dec fixtureName m : Decision (quiet fixtureName m).
Proof. destruct m; simpl; apply _. Defined.


(** What can happen to the manager after the rejection, short of
    [reset]: a call of [load] (for any fixture, with any call stack), a job
    of the microtask queue, the environment settling a setup promise, and
    a call of [unload]. *)
Inductive step (st : State) : State -> Prop :=
| step_load depth fixtureName r st' :
    load depth fixtureName st = (r, st') -> step st st'
| step_microtask m rest :
    microtasks st = m :: rest ->
    step st (run_microtask m (with_microtasks (λ _, rest) st))
| step_settle_setup i o :
    step st (settle_setup i o st)
| step_unload depth fixtureName r st' :
    unload depth fixtureName st = Some (r, st') -> step st st'.

(** The events of a teardown that succeeds. *)
Definition teardown_events (fixtureName : string) (fixture : FixtureConfig)
  : list Event :=
  match teardown fixture with
  | Some TeardownCompletes => [TeardownStart fixtureName; TeardownEnd fixtureName]
  | _ => []
  end.

(** From [st] to [st'] fixtures were only unloaded: each removal is in the
    new events, and no fixture that depends on a removed one is still
    loaded. *)
Definition shrinks (st st' : State) : Prop :=
  fixtures st' = fixtures st
  ∧ loadedFixtures st' ⊆ loadedFixtures st
  ∧ (∀ x g, x ∈ loadedFixtures st -> x ∉ loadedFixtures st' ->
       depends st g x -> g ∉ loadedFixtures st')
  ∧ ∃ events, log st' = log st ++ events
      ∧ ∀ x, x ∈ loadedFixtures st -> x ∉ loadedFixtures st' -> Unloaded x ∈ events.


(** *** Concrete fixtures *)

Definition fixture (fixtureName : string) (deps : option (list string))
  (s : option Setup) : FixtureConfig :=
  {| name := fixtureName; scope := suite; dependencies := deps; setup := s;
     teardown := Some TeardownCompletes |}.

Definition registry (cfgs : list FixtureConfig) : gmap string FixtureConfig :=
  list_to_map (map (λ cfg, (name cfg, cfg)) cfgs).

(** Scenario 2 of the specification. *)
Definition db_seedData : State :=
  initial (registry [fixture "db" None (Some SetupCompletes);
                     fixture "seedData" (Some ["db"]) (Some SetupCompletes)]).

(** Scenario 4 of the specification. *)
Definition x_y_cycle : State :=
  initial (registry [fixture "x" (Some ["y"]) (Some SetupCompletes);
                     fixture "y" (Some ["x"]) (Some SetupCompletes)]).

(** A cycle behind a fixture without dependencies. *)
Definition cycle_after_leaf : State :=
  initial (registry [fixture "a" None (Some SetupCompletes);
                     fixture "x" (Some ["a"; "y"]) (Some SetupCompletes);
                     fixture "y" (Some ["x"]) (Some SetupCompletes)]).

(** [f] depends on [d1] and [d2], whose setups wait for I/O. *)
Definition two_waiting_deps : State :=
  initial (registry [fixture "d1" None (Some SetupWaits);
                     fixture "d2" None (Some SetupWaits);
                     fixture "f" (Some ["d1"; "d2"]) (Some SetupCompletes)]).



(** The fixtures of the README: [testData] depends on [database]. *)
Definition readme_fixtures : State :=
  initial (registry [fixture "database" None (Some SetupCompletes);
                     fixture "testData" (Some ["database"]) (Some SetupCompletes)]).

(** [x] depends on [f] and [d], [f] on [d], [d] on [e]; the setup of [e]
    waits for I/O. *)
Definition shared_dependency : State :=
  initial (registry [fixture "e" (Some []) (Some SetupWaits);
                     fixture "d" (Some ["e"]) (Some SetupCompletes);
                     fixture "f" (Some ["d"]) (Some SetupCompletes);
                     fixture "x" (Some ["f"; "d"]) (Some SetupCompletes)]).





(** *** [unload] *)

Section unload.



Lemma shrinks_refl st : shrinks st st.
Proof.
  split_and!; [done..|]. exists []. by rewrite app_nil_r.
Qed.

Lemma shrinks_trans st st1 st2 : shrinks st st1 -> shrinks st1 st2 -> shrinks st st2.
Proof.
  intros (Hf1 & Hsub1 & Hcl1 & ev1 & Hlog1 & Hev1) (Hf2 & Hsub2 & Hcl2 & ev2 & Hlog2 & Hev2).
  split_and!.
  - congruence.
  - set_solver.
  - intros x g Hx Hnx Hdep.
    destruct (decide (x ∈ loadedFixtures st1)) as [Hin|Hout].
    + apply (Hcl2 x g Hin Hnx). unfold depends in *. by rewrite Hf1.
    + specialize (Hcl1 x g Hx Hout Hdep). set_solver.
  - exists (ev1 ++ ev2). split; [by rewrite Hlog2, Hlog1, (assoc_L (++))|].
    intros x Hx Hnx. apply elem_of_app.
    destruct (decide (x ∈ loadedFixtures st1)); [right|left]; auto.
Qed.

Lemma unload_dependents_shrinks
    (unloadf : string -> State -> option (Result Error unit * State)) fixtureName :
  (∀ n st st', unloadf n st = Some (Ok tt, st') ->
     shrinks st st' ∧ n ∉ loadedFixtures st') ->
  ∀ entries st st',
    unload_dependents unloadf fixtureName entries st = Some (Ok tt, st') ->
    shrinks st st'
    ∧ ∀ g cfg, (g, cfg) ∈ entries -> fixtureName ∈ default [] (dependencies cfg) ->
        g ∉ loadedFixtures st'.
Proof.
  intros Hf. induction entries as [|[g cfg] rest IH]; intros st st' Hu; simpl in Hu.
  - injection Hu as <-. split; [apply shrinks_refl|].
    intros ? ? Hin. by apply elem_of_nil in Hin.
  - case_decide as Hdep.
    + destruct (unloadf g st) as [[[[]|e] st1]|] eqn:Hg; try discriminate.
      destruct (Hf g st st1 Hg) as [Hsh1 Hg1].
      destruct (IH st1 st' Hu) as [Hsh2 Hrest].
      split; [by eapply shrinks_trans|].
      intros g' cfg' [[= -> ->]|Hin]%elem_of_cons Hd'; [|by eapply Hrest].
      destruct Hsh2 as (_ & Hsub & _). set_solver.
    + destruct (IH st st' Hu) as [Hsh Hrest]. split; [done|].
      intros g' cfg' [[= -> ->]|Hin]%elem_of_cons Hd'; [done|by eapply Hrest].
Qed.

Lemma run_teardown_ok fixtureName fx st st' :
  run_teardown fixtureName fx st = (Ok tt, st') ->
  fixtures st' = fixtures st ∧ loadedFixtures st' = loadedFixtures st
  ∧ log st' = log st ++ teardown_events fixtureName fx.
Proof.
  unfold run_teardown, teardown_events.
  destruct (teardown fx) as [[|msg]|]; intros [= <-]; simpl;
    rewrite <-?(assoc_L (++)), ?app_nil_r; done.
Qed.

(** A successful [unload]: the fixture is out of the loaded set, and so
    is everything that was removed on the way; the removals of the others
    come before the fixture's own teardown. *)
Lemma unload_shrinks depth :
  ∀ fixtureName st st',
    unload depth fixtureName st = Some (Ok tt, st') ->
    shrinks st st'
    ∧ (fixtureName ∉ loadedFixtures st')
    ∧ (fixtureName ∈ loadedFixtures st ->
       ∃ fx before,
         fixtures st !! fixtureName = Some fx
         ∧ log st' = log st ++ before
                     ++ teardown_events fixtureName fx ++ [Unloaded fixtureName]
         ∧ ∀ x, x ≠ fixtureName -> x ∈ loadedFixtures st ->
             x ∉ loadedFixtures st' -> Unloaded x ∈ before).
Proof.
  induction depth as [|depth IH]; intros fixtureName st st' Hu; [done|].
  simpl in Hu.
  destruct (fixtures st !! fixtureName) as [fx|] eqn:Hfx; [|done].
  case_decide as Hloaded.
  2:{ injection Hu as <-. split_and!; [apply shrinks_refl|done..]. }
  destruct (unload_dependents (unload depth) fixtureName
              (map_to_list (fixtures st)) st) as [[[[]|e] st1]|] eqn:Hloop;
    try discriminate.
  destruct (unload_dependents_shrinks (unload depth) fixtureName
              (λ n s s' H, let '(conj a (conj b _)) := IH n s s' H in conj a b)
              _ _ _ Hloop) as [(Hf1 & Hsub1 & Hcl1 & ev1 & Hlog1 & Hev1) Hdeps].
  destruct (run_teardown fixtureName fx st1) as [[[]|e] st2] eqn:Htd; [|done].
  injection Hu as <-.
  destruct (run_teardown_ok _ _ _ _ Htd) as (Hf2 & Hl2 & Hlog2).
  assert (∀ g, depends st g fixtureName -> g ∉ loadedFixtures st1) as Hdependents.
  { intros g (cfg & Hg & Hin). eapply Hdeps; [|done]. by apply elem_of_map_to_list. }
  assert (∀ x, x ∈ loadedFixtures st1 ->
            x ∉ loadedFixtures st1 ∖ {[fixtureName]} -> x = fixtureName) as Hself.
  { intros x Hin Hnx. apply not_elem_of_difference in Hnx as [Hnx|Hnx]; [done|].
    by apply elem_of_singleton in Hnx. }
  assert (∀ x, x ∉ loadedFixtures st1 -> x ∉ loadedFixtures st1 ∖ {[fixtureName]})
    as Hmono.
  { intros x Hnx Hx. by apply elem_of_difference in Hx as [Hx _]. }
  split_and!.
  - split_and!; simpl.
    + congruence.
    + rewrite Hl2. intros x [Hx _]%elem_of_difference. by apply Hsub1.
    + rewrite Hl2. intros x g Hx Hnx Hdep.
      destruct (decide (x ∈ loadedFixtures st1)) as [Hin|Hout].
      * rewrite (Hself x Hin Hnx) in Hdep. by apply Hmono, Hdependents.
      * by apply Hmono, (Hcl1 x g Hx Hout Hdep).
    + exists (ev1 ++ teardown_events fixtureName fx ++ [Unloaded fixtureName]).
      split; [by rewrite Hlog2, Hlog1, <-!(assoc_L (++))|].
      rewrite Hl2. intros x Hx Hnx.
      destruct (decide (x ∈ loadedFixtures st1)) as [Hin|Hout].
      * rewrite (Hself x Hin Hnx). rewrite !elem_of_app, list_elem_of_singleton. auto.
      * apply elem_of_app. left. by apply Hev1.
  - simpl. rewrite Hl2. intros [_ Hx]%elem_of_difference.
    by apply Hx, elem_of_singleton.
  - intros _. exists fx, ev1. split_and!; [done| |].
    + simpl. by rewrite Hlog2, Hlog1, <-!(assoc_L (++)).
    + simpl. rewrite Hl2. intros x Hne Hx Hnx. apply Hev1; [done|].
      intros Hin. apply Hnx, elem_of_difference. split; [done|].
      by intros ?%elem_of_singleton.
Qed.

(** [unload] only removes names from the loaded set and writes events. *)
Lemma unload_frame depth :
  ∀ n st r st', unload depth n st = Some (r, st') ->
    fixtures st' = fixtures st ∧ setupPromises st' = setupPromises st
    ∧ promises st' = promises st ∧ microtasks st' = microtasks st
    ∧ setupCalls st' = setupCalls st ∧ loadedFixtures st' ⊆ loadedFixtures st.
Proof.
  induction depth as [|depth IH]; intros n st r st' Hu; [done|]. simpl in Hu.
  destruct (fixtures st !! n) as [fx|]; [|by injection Hu as <- <-].
  case_decide; [|by injection Hu as <- <-].
  assert (∀ entries st0 r0 st1,
            unload_dependents (unload depth) n entries st0 = Some (r0, st1) ->
            fixtures st1 = fixtures st0 ∧ setupPromises st1 = setupPromises st0
            ∧ promises st1 = promises st0 ∧ microtasks st1 = microtasks st0
            ∧ setupCalls st1 = setupCalls st0
            ∧ loadedFixtures st1 ⊆ loadedFixtures st0) as Hloop.
  { induction entries as [|[g cfg] rest IHe]; intros st0 r0 st1 Hl; simpl in Hl.
    - by injection Hl as <- <-.
    - case_decide; [|by eapply IHe].
      destruct (unload depth g st0) as [[[[]|err] st2]|] eqn:Hg; try discriminate.
      + destruct (IH _ _ _ _ Hg) as (?&?&?&?&?&?).
        destruct (IHe _ _ _ Hl) as (?&?&?&?&?&?).
        split_and!; try congruence. by etrans.
      + injection Hl as <- <-. by eapply IH. }
  destruct (unload_dependents (unload depth) n _ st) as [[[[]|err] st1]|] eqn:Hdeps;
    try discriminate.
  - destruct (Hloop _ _ _ _ Hdeps) as (?&?&?&?&?&?).
    unfold run_teardown in Hu.
    destruct (teardown fx) as [[|msg]|]; injection Hu as <- <-; simpl;
      split_and!; try done;
      try (intros x [Hx _]%elem_of_difference; auto).
  - injection Hu as <- <-. by eapply Hloop.
Qed.


End unload.




(** *** What the promise operations leave alone *)

Create Rewrite HintDb fields.

Lemma heap_only_refl st : heap_only st st.
Proof. by repeat split. Qed.

Lemma heap_only_trans st st1 st2 :
  heap_only st st1 -> heap_only st1 st2 -> heap_only st st2.
Proof. unfold heap_only. intros (?&?&?&?&?) (?&?&?&?&?). split_and!; congruence. Qed.

Lemma new_promise_heap_only count st : heap_only st (new_promise count st).2.
Proof. by repeat split. Qed.

Lemma enqueue_heap_only m st : heap_only st (enqueue m st).
Proof. by repeat split. Qed.

Lemma settle_heap_only p o st : heap_only st (settle p o st).
Proof. unfold settle. repeat case_match; by repeat split. Qed.

Lemma subscribe_heap_only p r st : heap_only st (subscribe p r st).
Proof. unfold subscribe. repeat case_match; by repeat split. Qed.

Lemma subscribe_all_heap_only all ps st :
  heap_only st (foldl (λ st p, subscribe p (AllElement all) st) st ps).
Proof.
  revert st. induction ps as [|p ps IH]; intros st; simpl; [apply heap_only_refl|].
  eapply heap_only_trans; [apply subscribe_heap_only|apply IH].
Qed.

Lemma promise_all_heap_only ps st : heap_only st (promise_all ps st).2.
Proof.
  unfold promise_all, new_promise. destruct ps as [|p ps]; simpl.
  - eapply heap_only_trans; [|apply settle_heap_only]. by repeat split.
  - eapply heap_only_trans; [|apply subscribe_all_heap_only].
    eapply heap_only_trans; [|apply subscribe_heap_only]. by repeat split.
Qed.

Lemma element_fulfilled_heap_only all st : heap_only st (element_fulfilled all st).
Proof.
  unfold element_fulfilled. repeat case_match; try by repeat split.
  eapply heap_only_trans; [|apply settle_heap_only]. by repeat split.
Qed.

Lemma settle_fixtures p o st : fixtures (settle p o st) = fixtures st.
Proof. apply settle_heap_only. Qed.
Lemma settle_loadedFixtures p o st :
  loadedFixtures (settle p o st) = loadedFixtures st.
Proof. apply settle_heap_only. Qed.
Lemma settle_setupPromises p o st : setupPromises (settle p o st) = setupPromises st.
Proof. apply settle_heap_only. Qed.
Lemma settle_setupCalls p o st : setupCalls (settle p o st) = setupCalls st.
Proof. apply settle_heap_only. Qed.
Lemma settle_log p o st : log (settle p o st) = log st.
Proof. apply settle_heap_only. Qed.

Lemma subscribe_fixtures p r st : fixtures (subscribe p r st) = fixtures st.
Proof. apply subscribe_heap_only. Qed.
Lemma subscribe_loadedFixtures p r st :
  loadedFixtures (subscribe p r st) = loadedFixtures st.
Proof. apply subscribe_heap_only. Qed.
Lemma subscribe_setupPromises p r st :
  setupPromises (subscribe p r st) = setupPromises st.
Proof. apply subscribe_heap_only. Qed.
Lemma subscribe_setupCalls p r st : setupCalls (subscribe p r st) = setupCalls st.
Proof. apply subscribe_heap_only. Qed.
Lemma subscribe_log p r st : log (subscribe p r st) = log st.
Proof. apply subscribe_heap_only. Qed.

#[global] Hint Rewrite settle_fixtures settle_loadedFixtures settle_setupPromises
  settle_setupCalls settle_log subscribe_fixtures subscribe_loadedFixtures
  subscribe_setupPromises subscribe_setupCalls subscribe_log : fields.

(** The fields of the manager after [run_setup]. *)
Lemma run_setup_fields fixtureName fx result st :
  fixtures (run_setup fixtureName fx result st) = fixtures st
  ∧ loadedFixtures (run_setup fixtureName fx result st)
    = (if setup fx is None then {[fixtureName]} ∪ loadedFixtures st
       else loadedFixtures st)
  ∧ setupPromises (run_setup fixtureName fx result st)
    = <[fixtureName := length (promises st)]> (setupPromises st)
  ∧ setupCalls (run_setup fixtureName fx result st)
    = setupCalls st
      ++ (if setup fx is None then [] else [(fixtureName, S (length (promises st)))])
  ∧ log (run_setup fixtureName fx result st)
    = log st ++ setup_events fixtureName fx.
Proof.
  unfold run_setup, setup_events, invoke_setup, finish_setup, new_promise.
  destruct (setup fx) as [[| |]|]; simpl;
    repeat (progress (autorewrite with fields; simpl));
    rewrite ?length_app, ?Nat.add_1_r, <-?(assoc_L (++)), ?app_nil_r,
            ?insert_delete_eq; done.
Qed.

(** *** What the synchronous part of [load] leaves alone *)

Section cycle.

Lemma sync_frame_refl st : sync_frame st st.
Proof. split; [done|]. by intros. Qed.

Lemma sync_frame_trans st st1 st2 :
  sync_frame st st1 -> sync_frame st1 st2 -> sync_frame st st2.
Proof.
  intros [Hf1 H1] [Hf2 H2]. split; [congruence|].
  intros n fx deps Hfx Hdeps.
  destruct (H1 n fx deps Hfx Hdeps) as [Hp1 Hl1].
  rewrite <-Hf1 in Hfx. destruct (H2 n fx deps Hfx Hdeps) as [Hp2 Hl2].
  split; [congruence|auto].
Qed.

Lemma heap_only_sync_frame st st' : heap_only st st' -> sync_frame st st'.
Proof.
  intros (Hf & Hl & Hp & _). split; [done|]. intros. rewrite Hl, Hp. auto.
Qed.

Lemma run_setup_sync_frame fixtureName fx result st :
  fixtures st !! fixtureName = Some fx ->
  dependencies fx = None ->
  sync_frame st (run_setup fixtureName fx result st).
Proof.
  intros Hfx Hnone.
  destruct (run_setup_fields fixtureName fx result st) as (Hf & Hl & Hp & _).
  split; [done|]. intros n fx' deps Hfx' Hdeps.
  assert (n ≠ fixtureName) as Hne by (intros ->; congruence).
  rewrite Hl, Hp, lookup_insert_ne by done. split; [done|].
  destruct (setup fx); [done|].
  intros [Hin%elem_of_singleton|Hin]%elem_of_union; done.
Qed.

Lemma load_each_sync_frame (loadf : string -> State -> nat * State) :
  (∀ n st r st', loadf n st = (r, st') -> sync_frame st st') ->
  ∀ deps st r st', load_each loadf deps st = (r, st') -> sync_frame st st'.
Proof.
  intros Hf. induction deps as [|dep rest IH]; intros st r st' Hl; simpl in Hl.
  - injection Hl as <- <-. apply sync_frame_refl.
  - destruct (loadf dep st) as [p st1] eqn:Hdep.
    destruct (load_each loadf rest st1) as [ps st2] eqn:Hrest.
    injection Hl as <- <-.
    eapply sync_frame_trans; [by eapply Hf|by eapply IH].
Qed.

Lemma load_sync_frame depth :
  ∀ fixtureName st r st', load depth fixtureName st = (r, st') -> sync_frame st st'.
Proof.
  induction depth as [|depth IH]; intros fixtureName st r st' Hl; simpl in Hl.
  { injection Hl as <- <-. apply heap_only_sync_frame.
    eapply heap_only_trans; [|apply settle_heap_only]. by repeat split. }
  destruct (fixtures st !! fixtureName) as [fx|] eqn:Hfx.
  2:{ injection Hl as <- <-. apply heap_only_sync_frame.
      eapply heap_only_trans; [|apply settle_heap_only]. by repeat split. }
  destruct (setupPromises st !! fixtureName) as [inflight|].
  { injection Hl as <- <-. apply heap_only_sync_frame. by repeat split. }
  case_decide.
  { injection Hl as <- <-. apply heap_only_sync_frame.
    eapply heap_only_trans; [|apply settle_heap_only]. by repeat split. }
  destruct (dependencies fx) as [deps|] eqn:Hdeps.
  - destruct (load_each (load depth) deps _) as [ps st1] eqn:Heach.
    destruct (promise_all ps st1) as [all st2] eqn:Hall.
    injection Hl as <- <-.
    eapply sync_frame_trans;
      [apply heap_only_sync_frame, (new_promise_heap_only 0 st)|].
    eapply sync_frame_trans; [by eapply (load_each_sync_frame _ IH)|].
    apply heap_only_sync_frame.
    eapply heap_only_trans; [|apply subscribe_heap_only].
    replace st2 with (promise_all ps st1).2 by (by rewrite Hall).
    apply promise_all_heap_only.
  - injection Hl as <- <-.
    eapply sync_frame_trans; [|by apply run_setup_sync_frame].
    apply heap_only_sync_frame. by repeat split.
Qed.

Lemma untouched_sync_frame C st st' :
  cyclic st C -> untouched st C -> sync_frame st st' ->
  cyclic st' C ∧ untouched st' C.
Proof.
  intros Hc Hu [Hf Hframe]. split.
  - intros n Hn. destruct (Hc n Hn) as (fx & deps & m & ? & ? & ? & ?).
    exists fx, deps, m. by rewrite Hf.
  - intros n Hn. destruct (Hc n Hn) as (fx & deps & m & Hfx & Hdeps & _).
    destruct (Hframe n fx deps Hfx Hdeps) as [Hp Hl].
    destruct (Hu n Hn) as [Hp0 Hl0]. split; [congruence|auto].
Qed.

End cycle.

(** *** [load] starts its dependencies together *)

Section together.

Lemma still_refl st : still st st.
Proof. by split. Qed.

Lemma still_trans st st1 st2 : still st st1 -> still st1 st2 -> still st st2.
Proof. intros [Hq1 Hp1] [Hq2 Hp2]. split; [congruence|auto]. Qed.

Lemma new_promise_still count st :
  still st (new_promise count st).2
  ∧ is_pending (length (promises st)) (new_promise count st).2 = true.
Proof.
  unfold still, is_pending. simpl. split; [split; [done|]|].
  - intros q Hq. destruct (promises st !! q) as [pr|] eqn:Hlook; [|done].
    by rewrite (lookup_app_l_Some _ _ _ _ Hlook).
  - by rewrite lookup_app_r, Nat.sub_diag by lia.
Qed.

Lemma subscribe_still q r st : is_pending q st = true -> still st (subscribe q r st).
Proof.
  unfold still, is_pending, subscribe. intros Hq.
  destruct (promises st !! q) as [pr|] eqn:Hlook; [|done].
  destruct (status pr) eqn:Hst; [done|]. split; [done|]. simpl.
  intros q' Hq'. destruct (decide (q' = q)) as [->|Hne].
  - by rewrite list_lookup_insert_eq by (by eapply lookup_lt_Some).
  - by rewrite list_lookup_insert_ne.
Qed.

Lemma still_same st st' :
  promises st' = promises st -> microtasks st' = microtasks st -> still st st'.
Proof. unfold still, is_pending. intros -> ->. by split. Qed.

(** [run_setup] with a setup that waits: the caller's promise stays
    pending and nothing is queued. *)
Lemma run_setup_waits_still n fx r st :
  setup fx = Some SetupWaits ->
  is_pending r st = true ->
  still st (run_setup n fx r st) ∧ is_pending r (run_setup n fx r st) = true.
Proof.
  intros Hsetup Hr.
  set (sp := length (promises st)).
  set (st1 := (new_promise 0 st).2).
  set (q := length (promises st1)).
  set (st2 := with_setupCalls (λ calls, calls ++ [(n, q)])
                (new_promise 0 (emit (SetupStart n) st1)).2).
  set (st3 := subscribe q (ResumeSetup n sp) st2).
  set (st4 := with_setupPromises (<[n := sp]>) st3).
  set (st5 := subscribe sp (ResumeLoadAfterSetup n r) st4).
  assert (run_setup n fx r st = st5) as ->.
  { unfold run_setup, invoke_setup. by rewrite Hsetup. }
  destruct (new_promise_still 0 st) as [H01 Hsp1]. fold st1 sp in H01, Hsp1.
  assert (still st1 st2 ∧ is_pending q st2 = true) as [H12 Hq2].
  { destruct (new_promise_still 0 (emit (SetupStart n) st1)) as [Ha Hb].
    split; [|exact Hb]. eapply still_trans; [|apply still_same; reflexivity].
    eapply still_trans; [apply still_same; reflexivity|exact Ha]. }
  pose proof (subscribe_still q (ResumeSetup n sp) st2 Hq2) as H23. fold st3 in H23.
  assert (still st3 st4) as H34 by (by apply still_same).
  assert (is_pending sp st4 = true) as Hsp4.
  { by apply H34, H23, H12. }
  pose proof (subscribe_still sp (ResumeLoadAfterSetup n r) st4 Hsp4) as H45.
  fold st5 in H45.
  assert (still st st5) as Hall.
  { repeat (eapply still_trans; [eassumption|]). apply still_refl. }
  split; [done|]. by apply Hall.
Qed.

Lemma load_waiting_leaf depth d st :
  waiting_leaf st d -> idle st d ->
  ∃ p st',
    load (S depth) d st = (p, st')
    ∧ fixtures st' = fixtures st
    ∧ loadedFixtures st' = loadedFixtures st
    ∧ (∀ n, n ≠ d -> setupPromises st' !! n = setupPromises st !! n)
    ∧ log st' = log st ++ [SetupStart d]
    ∧ (setupCalls st').*1 = (setupCalls st).*1 ++ [d]
    ∧ still st st'
    ∧ is_pending p st' = true.
Proof.
  intros (fx & Hfx & Hdeps & Hsetup) [Hp Hl]. simpl.
  rewrite Hfx, Hp, decide_False, Hdeps by done.
  eexists _, _. split; [reflexivity|].
  match goal with |- context [run_setup d fx ?r ?s] =>
    destruct (run_setup_fields d fx r s) as (Hf & Hlo & Hsp & Hc & Hlog) end.
  rewrite Hf, Hlo, Hsp, Hc, Hlog. unfold setup_events. rewrite Hsetup. simpl.
  split_and!; try done.
  - intros n Hne. by rewrite lookup_insert_ne.
  - by rewrite fmap_app.
  - eapply still_trans; [apply new_promise_still|].
    apply run_setup_waits_still; [done|]. apply new_promise_still.
  - apply run_setup_waits_still; [done|]. apply new_promise_still.
Qed.

Lemma load_each_waiting_leaves depth deps :
  ∀ st,
    NoDup deps ->
    (∀ d, d ∈ deps -> waiting_leaf st d ∧ idle st d) ->
    ∃ ps st',
      load_each (load (S depth)) deps st = (ps, st')
      ∧ fixtures st' = fixtures st
      ∧ loadedFixtures st' = loadedFixtures st
      ∧ (∀ n, n ∉ deps -> setupPromises st' !! n = setupPromises st !! n)
      ∧ log st' = log st ++ map SetupStart deps
      ∧ (setupCalls st').*1 = (setupCalls st).*1 ++ deps
      ∧ still st st'
      ∧ Forall (λ p, is_pending p st' = true) ps
      ∧ length ps = length deps.
Proof.
  induction deps as [|d rest IH]; intros st Hnd Hall.
  { exists [], st. simpl. rewrite !app_nil_r. by split_and!. }
  apply NoDup_cons in Hnd as [Hd Hnd].
  destruct (Hall d) as [Hleaf Hidle]; [by left|].
  destruct (load_waiting_leaf depth d st Hleaf Hidle)
    as (p & st1 & Hload & Hf1 & Hl1 & Hp1 & Hlog1 & Hc1 & Hst1 & Hpend1).
  destruct (IH st1 Hnd)
    as (ps & st2 & Hrest & Hf2 & Hl2 & Hp2 & Hlog2 & Hc2 & Hst2 & Hpend2 & Hlen).
  { intros d' Hd'. destruct (Hall d') as [(fx & ? & ? & ?) [? ?]]; [by right|].
    split; [exists fx; by rewrite Hf1|].
    split; [rewrite Hp1; [done|by intros ->]|by rewrite Hl1]. }
  exists (p :: ps), st2. cbn [load_each]. rewrite Hload, Hrest.
  split_and!; try congruence.
  - intros n Hn. rewrite Hp2, Hp1; [done|..]; set_solver.
  - by rewrite Hlog2, Hlog1, <-(assoc_L (++)).
  - by rewrite Hc2, Hc1, <-(assoc_L (++)).
  - by eapply still_trans.
  - constructor; [by apply Hst2|done].
  - simpl. by rewrite Hlen.
Qed.

Lemma subscribe_all_still all ps :
  ∀ st, Forall (λ p, is_pending p st = true) ps ->
    still st (foldl (λ st p, subscribe p (AllElement all) st) st ps).
Proof.
  induction ps as [|p ps IH]; intros st Hall; simpl; [apply still_refl|].
  apply Forall_cons in Hall as [Hp Hps].
  pose proof (subscribe_still p (AllElement all) st Hp) as Hs.
  eapply still_trans; [exact Hs|]. apply IH.
  eapply Forall_impl; [exact Hps|]. intros q Hq. by apply Hs.
Qed.

(** [Promise.all] of pending promises, at least one: nothing is queued,
    and the new promise is pending. *)
Lemma promise_all_still ps st :
  ps ≠ [] -> Forall (λ p, is_pending p st = true) ps ->
  still st (promise_all ps st).2
  ∧ is_pending (promise_all ps st).1 (promise_all ps st).2 = true.
Proof.
  intros Hne Hall. unfold promise_all.
  destruct (new_promise_still (length ps) st) as [H0 Hfresh].
  destruct (new_promise (length ps) st) as [all st0] eqn:Hnew. cbn [snd] in *.
  assert (all = length (promises st)) as -> by (by injection Hnew).
  destruct ps as [|p ps]; [done|]. cbn [fst snd].
  assert (Forall (λ p0, is_pending p0 st0 = true) (p :: ps)) as Hall0.
  { eapply Forall_impl; [exact Hall|]. intros q Hq. by apply H0. }
  pose proof (subscribe_all_still (length (promises st)) (p :: ps) st0 Hall0) as Hs.
  split; [by eapply still_trans|]. by apply Hs.
Qed.

End together.

(** [f] depends on [d1] and [d2], whose setups wait: when [load("f")] has
    returned and no microtask is left, both setups have been started and
    neither has ended; [d2] is then set up and loaded while [d1] still
    waits. *)
Lemma load_runs_dependency_setups_concurrently :
  (log <$> (snd <$> run 8 64 [[CallLoad "f"]] two_waiting_deps))
  = Some [SetupStart "d1"; SetupStart "d2"]
  ∧ (log <$> (snd <$> run 8 64 [[CallLoad "f"]; [SettleSetup 1 Fulfilled]]
                        two_waiting_deps))
    = Some [SetupStart "d1"; SetupStart "d2"; SetupEnd "d2"; Loaded "d2"].
Proof. vm_compute. done. Qed.

(** C4 (as the code has it): [load] calls [load] for every declared
    dependency, in declared order, before it awaits any of them
    ([Promise.all] over the mapped calls). For dependencies that are
    distinct registered fixtures without a dependency list whose setup
    waits, none of them loaded or in flight: when [load] returns its
    promise, the setups of all of them have been started, in declared
    order, none has ended and nothing has been loaded, so they run
    concurrently; the returned promise is pending and, for at least one
    dependency, no microtask was queued: [load] goes on only when the
    environment settles a setup. *)
Theorem load_starts_all_dependencies depth fixtureName fx deps st :
  fixtures st !! fixtureName = Some fx ->
  dependencies fx = Some deps ->
  idle st fixtureName ->
  NoDup deps ->
  (∀ d, d ∈ deps -> waiting_leaf st d ∧ idle st d) ->
  ∃ p st',
    load (S (S depth)) fixtureName st = (p, st')
    ∧ log st' = log st ++ map SetupStart deps
    ∧ (setupCalls st').*1 = (setupCalls st).*1 ++ deps
    ∧ loadedFixtures st' = loadedFixtures st
    ∧ (deps ≠ [] -> microtasks st' = microtasks st ∧ is_pending p st' = true).
Proof.
  intros Hfx Hdeps [Hp Hl] Hnd Hall.
  remember (S depth) as depth' eqn:Hdepth. simpl.
  rewrite Hfx, Hp, decide_False, Hdeps by done. subst depth'.
  destruct (new_promise_still 0 st) as [H0 Hr0].
  match goal with |- context [load_each (load (S depth)) deps ?s] =>
    destruct (load_each_waiting_leaves depth deps s Hnd Hall)
      as (ps & st1 & Heach & Hf1 & Hl1 & Hp1 & Hlog1 & Hc1 & Hst1 & Hpend1 & Hlen)
  end.
  rewrite Heach.
  pose proof (promise_all_heap_only ps st1) as Hho.
  pose proof (promise_all_still ps st1) as Hstill.
  destruct (promise_all ps st1) as [all st2] eqn:Hall2.
  destruct Hho as (_ & Hl2 & _ & Hc2 & Hlog2). simpl in *.
  eexists _, _. split; [reflexivity|].
  autorewrite with fields. rewrite Hlog2, Hc2, Hl2. split_and!; try done.
  intros Hne. destruct Hstill as [H12 Hall']; [by destruct deps, ps|done|].
  pose proof (subscribe_still all
                (ResumeLoadAfterDeps fixtureName fx (length (promises st))) st2 Hall')
    as H23.
  split.
  - destruct H23 as [-> _]. destruct H12 as [-> _]. by destruct Hst1 as [-> _].
  - by apply H23, H12, Hst1.
Qed.

Lemma load_starts_all_dependencies_witness :
  ∃ p st',
    load 3 "f" two_waiting_deps = (p, st')
    ∧ log st' = log two_waiting_deps ++ map SetupStart ["d1"; "d2"]
    ∧ (setupCalls st').*1 = (setupCalls two_waiting_deps).*1 ++ ["d1"; "d2"]
    ∧ loadedFixtures st' = loadedFixtures two_waiting_deps
    ∧ (["d1"; "d2"] ≠ [] ->
       microtasks st' = microtasks two_waiting_deps ∧ is_pending p st' = true).
Proof.
  apply (load_starts_all_dependencies 1 "f"
           (fixture "f" (Some ["d1"; "d2"]) (Some SetupCompletes))
           ["d1"; "d2"] two_waiting_deps).
  - reflexivity.
  - reflexivity.
  - split; [reflexivity|]. vm_compute. set_solver.
  - apply (bool_decide_unpack _). vm_compute. exact I.
  - intros d [->|[->|[]%elem_of_nil]%elem_of_cons]%elem_of_cons.
    + split; [|split; [reflexivity|vm_compute; set_solver]].
      exists (fixture "d1" None (Some SetupWaits)). by split_and!.
    + split; [|split; [reflexivity|vm_compute; set_solver]].
      exists (fixture "d2" None (Some SetupWaits)). by split_and!.
Defined.

(** *** Calls of [load] that overlap *)

(** A fixture with a dependency list is not marked in flight when its
    [load] returns: the setup promise is stored only after the
    dependencies were awaited, so a second call passes both checks. *)
Lemma load_with_dependencies_stays_idle depth fixtureName fx deps st r st' :
  fixtures st !! fixtureName = Some fx ->
  dependencies fx = Some deps ->
  idle st fixtureName ->
  load depth fixtureName st = (r, st') ->
  idle st' fixtureName.
Proof.
  intros Hfx Hdeps [Hp Hl] Hload.
  destruct (load_sync_frame depth fixtureName st r st' Hload) as [_ Hframe].
  destruct (Hframe fixtureName fx deps Hfx Hdeps) as [Hp' Hl'].
  split; [congruence|auto].
Qed.

(** For a fixture without a dependency list the setup promise is stored
    before [load] returns, so a second call finds it: it invokes no setup
    and returns a promise that adopts the stored one. *)
Lemma load_without_dependencies_is_shared depth depth' fixtureName fx st :
  fixtures st !! fixtureName = Some fx ->
  dependencies fx = None ->
  idle st fixtureName ->
  ∃ p1 st1,
    load (S depth) fixtureName st = (p1, st1)
    ∧ setupPromises st1 !! fixtureName = Some (S (length (promises st)))
    ∧ load (S depth') fixtureName st1
      = (length (promises st1),
         enqueue (ThenableJob (length (promises st1)) (S (length (promises st))))
           (new_promise 0 st1).2).
Proof.
  intros Hfx Hdeps [Hp Hl]. eexists _, _. split.
  { simpl. rewrite Hfx, Hp, decide_False, Hdeps by done. reflexivity. }
  match goal with |- context [run_setup fixtureName fx ?r ?s] =>
    destruct (run_setup_fields fixtureName fx r s) as (Hf & _ & Hsp & _) end.
  simpl in Hf, Hsp. rewrite length_app, Nat.add_1_r in Hsp. split.
  - by rewrite Hsp, lookup_insert_eq.
  - simpl. by rewrite Hf, Hfx, Hsp, lookup_insert_eq.
Qed.

(** C2 at its failing input: [load("testData")] is called twice in the same
    task. Both promises are fulfilled and the fixture is loaded, but the
    setup callback of [testData] has been invoked twice (that of
    [database], which has no dependency list, once). *)
Theorem concurrent_loads_run_setup_twice :
  ∃ p1 p2 st,
    run 8 64 [[CallLoad "testData"; CallLoad "testData"]] readme_fixtures
    = Some ([p1; p2], st)
    ∧ status_of p1 st = Some Fulfilled
    ∧ status_of p2 st = Some Fulfilled
    ∧ isLoaded "testData" st = true
    ∧ setup_count "testData" st = 2
    ∧ setup_count "database" st = 1
    ∧ log st = [SetupStart "database"; SetupEnd "database"; Loaded "database";
                SetupStart "testData"; SetupEnd "testData";
                SetupStart "testData"; SetupEnd "testData";
                Loaded "testData"; Loaded "testData"].
Proof. eexists _, _, _. split; [vm_compute; reflexivity|]. vm_compute. done. Qed.

(** Scenario 2 of the specification: the setups run in the order
    [db], [seedData]. *)
Lemma load_seedData_log :
  ∃ p st,
    run 8 64 [[CallLoad "seedData"]] db_seedData = Some ([p], st)
    ∧ status_of p st = Some Fulfilled
    ∧ log st = [SetupStart "db"; SetupEnd "db"; Loaded "db";
                SetupStart "seedData"; SetupEnd "seedData"; Loaded "seedData"].
Proof. eexists _, _. split; [vm_compute; reflexivity|]. vm_compute. done. Qed.

(** C8 at its failing input: a single [load("x")] on an acyclic graph in
    which [d] is reached twice. Both calls of [load("d")], and under them
    both calls of [load("e")], pass the checks and run the setup; the
    second setup of [e] ends after the first. The setup of [d] is started
    a second time after the setup of [f], which depends on [d], has been
    started. *)
Theorem shared_dependency_setup_restarts :
  ∃ p st,
    run 8 64 [[CallLoad "x"]; [SettleSetup 0 Fulfilled]; [SettleSetup 1 Fulfilled]]
      shared_dependency
    = Some ([p], st)
    ∧ status_of p st = Some Fulfilled
    ∧ depends shared_dependency "f" "d"
    ∧ log st = [SetupStart "e"; SetupStart "e";
                SetupEnd "e"; Loaded "e";
                SetupStart "d"; SetupEnd "d"; Loaded "d";
                SetupStart "f"; SetupEnd "f"; Loaded "f";
                SetupEnd "e"; Loaded "e";
                SetupStart "d"; SetupEnd "d"; Loaded "d";
                SetupStart "x"; SetupEnd "x"; Loaded "x"].
Proof.
  eexists _, _. split; [vm_compute; reflexivity|].
  split; [vm_compute; reflexivity|]. split; [|vm_compute; reflexivity].
  exists (fixture "f" (Some ["d"]) (Some SetupCompletes)).
  split; [reflexivity|]. simpl. by apply list_elem_of_singleton.
Qed.

(** *** A rejected setup promise stays in [setupPromises] *)

Section rejected.
Context (fixtureName : string) (p : nat) (e : Error).





Lemma status_of_lt q o st : status_of q st = Some o -> q < length (promises st).
Proof.
  unfold status_of. intros H. apply lookup_lt_is_Some.
  destruct (promises st !! q); [done|discriminate].
Qed.






















Lemma drain_cons fuel m rest st :
  microtasks st = m :: rest ->
  drain (S fuel) st = drain fuel (run_microtask m (with_microtasks (λ _, rest) st)).
Proof. intros Hm. simpl. by rewrite Hm. Qed.

Lemma drain_nil fuel st : microtasks st = [] -> drain fuel st = Some st.
Proof. intros Hm. destruct fuel; simpl; by rewrite Hm. Qed.

Lemma subscribe_settled q r o st :
  status_of q st = Some o -> subscribe q r st = enqueue (React r o) st.
Proof.
  unfold status_of, subscribe. destruct (promises st !! q) as [pr|]; [|done].
  simpl. by intros ->.
Qed.



End rejected.





(** *** What a failing [unload] leaves, and what [unloadAll] unloads *)




Section unload_more.

(** The fixtures of [S] are loaded and each has a dependent in [S] or is a
    dependency of [x]: they are the fixtures whose [unload] is under way
    when [unload x] is called. Such a call does not unload any of them,
    and does not return normally for one of them. *)
Definition keeps (unloadf : string -> State -> option (Result Error unit * State))
  : Prop :=
  ∀ (S : gset string) x st r st',
    S ⊆ loadedFixtures st ->
    (∀ y, y ∈ S -> ∃ g, (g ∈ S ∨ g = x) ∧ depends st g y) ->
    unloadf x st = Some (r, st') ->
    S ⊆ loadedFixtures st' ∧ (x ∈ S -> r ≠ Ok tt).

Lemma unload_dependents_keeps unloadf x :
  keeps unloadf ->
  (∀ n st r st', unloadf n st = Some (r, st') -> fixtures st' = fixtures st) ->
  ∀ (S : gset string) entries st r st',
    S ⊆ loadedFixtures st ->
    x ∈ loadedFixtures st ->
    (∀ y, y ∈ S -> ∃ g, (g ∈ S ∨ g = x) ∧ depends st g y) ->
    (∀ g cfg, (g, cfg) ∈ entries -> fixtures st !! g = Some cfg) ->
    unload_dependents unloadf x entries st = Some (r, st') ->
    fixtures st' = fixtures st
    ∧ S ⊆ loadedFixtures st'
    ∧ x ∈ loadedFixtures st'
    ∧ (r = Ok tt ->
       ∀ g cfg, (g, cfg) ∈ entries -> x ∈ default [] (dependencies cfg) ->
         (g ∉ S) ∧ g ≠ x).
Proof.
  intros Hkeeps Hframe S.
  induction entries as [|[g cfg] rest IH]; intros st r st' HS Hx Hdep Hent Hu; simpl in Hu.
  { injection Hu as <- <-. split_and!; [done..|]. intros _ ? ? Hin. by apply elem_of_nil in Hin. }
  assert (∀ g' cfg', (g', cfg') ∈ rest -> fixtures st !! g' = Some cfg') as Hrest.
  { intros g' cfg' Hin. apply Hent. by right. }
  case_decide as Hd.
  - destruct (unloadf g st) as [[r1 st1]|] eqn:Hg; [|done].
    destruct (Hkeeps (S ∪ {[x]}) g st r1 st1) as [HS1 Hr1]; [set_solver| |done|].
    { intros y [Hy| ->%elem_of_singleton]%elem_of_union.
      - destruct (Hdep y Hy) as (g' & Hg' & Hgy). exists g'. split; [|done].
        left. set_solver.
      - exists g. split; [by right|]. exists cfg. split; [|done]. apply Hent. by left. }
    pose proof (Hframe _ _ _ _ Hg) as Hf1.
    destruct r1 as [[]|e].
    + destruct (IH st1 r st') as (Hf & HS' & Hx' & Hok); [set_solver|set_solver| | |done|].
      { intros y Hy. destruct (Hdep y Hy) as (g' & Hg' & Hgy). exists g'.
        split; [done|]. unfold depends in *. by rewrite Hf1. }
      { intros g' cfg' Hin. rewrite Hf1. by apply Hrest. }
      split_and!; [congruence|done..|].
      intros Hr g' cfg' [[= -> ->]|Hin]%elem_of_cons Hd'; [|by eapply Hok].
      assert (g ∉ S ∪ {[x]}) as Hnot by (intros Hin; by apply Hr1 in Hin).
      set_solver.
    + injection Hu as <- <-. split_and!; [done|set_solver|set_solver|done].
  - destruct (IH st r st' HS Hx Hdep Hrest Hu) as (Hf & HS' & Hx' & Hok).
    split_and!; [done..|].
    intros Hr g' cfg' [[= -> ->]|Hin]%elem_of_cons Hd'; [done|by eapply Hok].
Qed.

Lemma unload_fixtures depth n st r st' :
  unload depth n st = Some (r, st') -> fixtures st' = fixtures st.
Proof. intros Hu. by destruct (unload_frame depth n st r st' Hu) as (? & _). Qed.

Lemma unload_keeps depth : keeps (unload depth).
Proof.
  induction depth as [|depth IH]; intros S x st r st' HS Hdep Hu; [done|]. simpl in Hu.
  destruct (fixtures st !! x) as [fx|] eqn:Hfx.
  2:{ injection Hu as <- <-. by split. }
  case_decide as Hloaded.
  2:{ injection Hu as <- <-. split; [done|]. intros Hin. set_solver. }
  destruct (unload_dependents (unload depth) x (map_to_list (fixtures st)) st)
    as [[r1 st1]|] eqn:Hloop; [|done].
  destruct (unload_dependents_keeps (unload depth) x IH (unload_fixtures depth)
              S _ _ _ _ HS Hloaded Hdep
              (λ g cfg H, proj1 (elem_of_map_to_list _ _ _) H) Hloop)
    as (Hf1 & HS1 & Hx1 & Hok).
  destruct r1 as [[]|e].
  - assert (x ∉ S) as HxS.
    { intros Hin. destruct (Hdep x Hin) as (g & Hg & cfg & Hcfg & Hd).
      destruct (Hok eq_refl g cfg) as [HgS Hgx]; [by apply elem_of_map_to_list|done|].
      by destruct Hg. }
    unfold run_teardown in Hu.
    destruct (teardown fx) as [[|msg]|]; injection Hu as <- <-; simpl;
      (split; [set_solver|done]).
  - injection Hu as <- <-. by split.
Qed.

(** Before its own teardown, a fixture that is unloaded is still loaded:
    the calls for its dependents do not remove it. *)
Lemma unload_dependents_keep_fixture depth x st r st' :
  x ∈ loadedFixtures st ->
  unload_dependents (unload depth) x (map_to_list (fixtures st)) st = Some (r, st') ->
  x ∈ loadedFixtures st' ∧ fixtures st' = fixtures st
  ∧ loadedFixtures st' ⊆ loadedFixtures st.
Proof.
  intros Hx Hloop.
  destruct (unload_dependents_keeps (unload depth) x (unload_keeps depth)
              (unload_fixtures depth) ∅ (map_to_list (fixtures st)) st r st')
    as (Hf1 & _ & Hx1 & _); [set_solver|done|set_solver| |done|].
  { intros g cfg Hin. by apply elem_of_map_to_list. }
  split_and!; [done..|].
  clear Hx Hx1 Hf1. revert Hloop. generalize (map_to_list (fixtures st)).
  intros entries. revert st. induction entries as [|[g cfg] rest IHe]; intros st Hl; simpl in Hl.
  - by injection Hl as <- <-.
  - case_decide; [|by eapply IHe].
    destruct (unload depth g st) as [[[[]|err] st2]|] eqn:Hg; try discriminate.
    + destruct (unload_frame _ _ _ _ _ Hg) as (_&_&_&_&_&Hsub).
      etrans; [by eapply IHe|done].
    + injection Hl as <- <-. by destruct (unload_frame _ _ _ _ _ Hg) as (_&_&_&_&_&Hsub).
Qed.

End unload_more.

Section unload_errors.

Lemma unload_dependents_log depth x :
  ∀ entries st st',
    unload_dependents (unload depth) x entries st = Some (Ok tt, st') ->
    fixtures st' = fixtures st ∧ ∃ events, log st' = log st ++ events.
Proof.
  intros entries st st' Hloop.
  destruct (unload_dependents_shrinks (unload depth) x
              (λ n s s' H, let '(conj a (conj b _)) := unload_shrinks depth n s s' H
                           in conj a b)
              _ _ _ Hloop) as [(Hf & _ & _ & ev & Hlog & _) _].
  split; [done|by exists ev].
Qed.

(** An [unload] that throws: the fixture is not registered and nothing
    has happened; or the teardown of a loaded fixture, the one named or one
    that depends on it, has thrown, that fixture is still loaded and the
    start of its teardown is the last event. In both cases the fixture
    named is loaded if it was. *)
Lemma unload_throws depth :
  ∀ x st e st', unload depth x st = Some (Throw e, st') ->
    (x ∈ loadedFixtures st -> x ∈ loadedFixtures st')
    ∧ ((fixtures st !! x = None ∧ e = FixtureNotFound x ∧ st' = st)
       ∨ (∃ g cfg msg pre,
            fixtures st !! g = Some cfg
            ∧ teardown cfg = Some (TeardownFails msg)
            ∧ e = CallbackError msg
            ∧ g ∈ loadedFixtures st'
            ∧ log st' = log st ++ pre ++ [TeardownStart g]
            ∧ (g = x ∨ tc (depends st) g x))).
Proof.
  induction depth as [|depth IH]; intros x st e st' Hu; [done|]. simpl in Hu.
  destruct (fixtures st !! x) as [fx|] eqn:Hfx.
  2:{ injection Hu as <- <-. split; [done|by left]. }
  case_decide as Hloaded; [|done].
  destruct (unload_dependents (unload depth) x (map_to_list (fixtures st)) st)
    as [[r1 st1]|] eqn:Hloop; [|done].
  destruct (unload_dependents_keep_fixture depth x st r1 st1 Hloaded Hloop)
    as (Hx1 & Hf1 & _).
  destruct r1 as [[]|e1].
  - (* the teardown of [x] throws *)
    destruct (unload_dependents_log depth x _ _ _ Hloop) as [_ [ev1 Hlog1]].
    unfold run_teardown in Hu.
    destruct (teardown fx) as [[|msg]|] eqn:Htd; try discriminate.
    injection Hu as <- <-. split; [done|]. right.
    exists x, fx, msg, ev1. split_and!; [done..| |by left].
    simpl. by rewrite Hlog1, <-(assoc_L (++)).
  - injection Hu as <- <-. split; [done|]. right.
    assert (∀ entries st0 ev0,
              (∀ g cfg, (g, cfg) ∈ entries -> fixtures st !! g = Some cfg) ->
              fixtures st0 = fixtures st ->
              log st0 = log st ++ ev0 ->
              unload_dependents (unload depth) x entries st0 = Some (Throw e1, st1) ->
              ∃ g cfg msg pre,
                fixtures st !! g = Some cfg
                ∧ teardown cfg = Some (TeardownFails msg)
                ∧ e1 = CallbackError msg
                ∧ g ∈ loadedFixtures st1
                ∧ log st1 = log st ++ pre ++ [TeardownStart g]
                ∧ tc (depends st) g x) as Hgen.
    { clear Hloop Hx1 Hf1.
      induction entries as [|[g cfg] rest IHe]; intros st0 ev0 Hent Hf0 Hlog0 Hl;
        simpl in Hl; [done|].
      assert (∀ g' cfg', (g', cfg') ∈ rest -> fixtures st !! g' = Some cfg') as Hrest.
      { intros g' cfg' Hin. apply Hent. by right. }
      case_decide as Hd; [|by eapply IHe].
      assert (depends st g x) as Hgx.
      { exists cfg. split; [apply Hent; by left|done]. }
      destruct (unload depth g st0) as [[[[]|err] st2]|] eqn:Hg; try discriminate.
      - destruct (unload_shrinks depth g st0 st2 Hg) as ((Hf2 & _ & _ & ev2 & Hlog2 & _) & _).
        eapply (IHe st2 (ev0 ++ ev2)); [done|congruence| |done].
        by rewrite Hlog2, Hlog0, <-(assoc_L (++)).
      - injection Hl as <- <-.
        destruct (IH g st0 err st2 Hg) as [_ [(Hnone & _)|(g' & cfg' & msg & pre & H1 & H2 & H3 & H4 & H5 & H6)]].
        { rewrite Hf0 in Hnone. destruct Hgx as (c & Hc & _). congruence. }
        exists g', cfg', msg, (ev0 ++ pre). split_and!; [congruence|done..| |].
        + by rewrite H5, Hlog0, <-!(assoc_L (++)).
        + destruct H6 as [->|Htc]; [by apply tc_once|].
          eapply tc_r; [|exact Hgx].
          clear -Htc Hf0. induction Htc as [a b Hab|a b c Hab _ IHtc].
          * apply tc_once. unfold depends in *. by rewrite <-Hf0.
          * eapply tc_l; [|exact IHtc]. unfold depends in *. by rewrite <-Hf0. }
    destruct (Hgen (map_to_list (fixtures st)) st []) 
      as (g & cfg & msg & pre & ? & ? & ? & ? & ? & ?); [|done|by rewrite app_nil_r|done|].
    { intros g cfg Hin. by apply elem_of_map_to_list. }
    exists g, cfg, msg, pre. split_and!; [done..|by right].
Qed.

End unload_errors.

(** When [unload] throws, nothing was loaded by the call and the fixture
    named is still loaded if it was. Either the fixture is not registered
    and the state is as before; or the teardown of a loaded fixture has
    thrown, of the fixture named or of one that depends on it, directly or
    through other fixtures: that fixture is still loaded and the call
    ended where its teardown threw. *)
Theorem unload_failure_keeps_fixture_loaded depth fixtureName st e st' :
  unload depth fixtureName st = Some (Throw e, st') ->
  loadedFixtures st' ⊆ loadedFixtures st
  ∧ (fixtureName ∈ loadedFixtures st -> fixtureName ∈ loadedFixtures st')
  ∧ ((fixtures st !! fixtureName = None ∧ e = FixtureNotFound fixtureName ∧ st' = st)
     ∨ (∃ g cfg msg pre,
          fixtures st !! g = Some cfg
          ∧ teardown cfg = Some (TeardownFails msg)
          ∧ e = CallbackError msg
          ∧ g ∈ loadedFixtures st'
          ∧ log st' = log st ++ pre ++ [TeardownStart g]
          ∧ (g = fixtureName ∨ tc (depends st) g fixtureName))).
Proof.
  intros Hu. destruct (unload_frame depth fixtureName st _ st' Hu) as (_&_&_&_&_&Hsub).
  destruct (unload_throws depth fixtureName st e st' Hu) as [Hkeep Hcause].
  by split_and!.
Qed.

#[global] Instance Teardown_eq_dec : EqDecision Teardown.
Proof. solve_decision. Defined.

(** [db] and [seedData] are loaded; the teardown of [seedData] throws. *)
Definition stuck_seedData : State :=
  let seedData :=
    {| name := "seedData"; scope := suite; dependencies := Some ["db"];
       setup := Some SetupCompletes; teardown := Some (TeardownFails "stuck") |} in
  let st := initial (registry [fixture "db" None (Some SetupCompletes); seedData]) in
  default st (snd <$> run 8 64 [[CallLoad "seedData"]] st).

Lemma unload_failure_keeps_fixture_loaded_witness :
  let st' := emit (TeardownStart "seedData") stuck_seedData in
  unload 4 "db" stuck_seedData = Some (Throw (CallbackError "stuck"), st')
  ∧ elements (loadedFixtures st') = ["seedData"; "db"]
  ∧ loadedFixtures st' ⊆ loadedFixtures stuck_seedData
  ∧ ("db" ∈ loadedFixtures stuck_seedData -> "db" ∈ loadedFixtures st')
  ∧ ((fixtures stuck_seedData !! "db" = None
      ∧ CallbackError "stuck" = FixtureNotFound "db" ∧ st' = stuck_seedData)
     ∨ (∃ g cfg msg pre,
          fixtures stuck_seedData !! g = Some cfg
          ∧ teardown cfg = Some (TeardownFails msg)
          ∧ CallbackError "stuck" = CallbackError msg
          ∧ g ∈ loadedFixtures st'
          ∧ log st' = log stuck_seedData ++ pre ++ [TeardownStart g]
          ∧ (g = "db" ∨ tc (depends stuck_seedData) g "db"))).
Proof.
  intros st'.
  assert (unload 4 "db" stuck_seedData = Some (Throw (CallbackError "stuck"), st')) as Hu
    by (vm_compute; reflexivity).
  split; [exact Hu|]. split; [vm_compute; reflexivity|].
  exact (unload_failure_keeps_fixture_loaded 4 "db" stuck_seedData
           (CallbackError "stuck") st' Hu).
Defined.

(** *** The events of an [unload] that returns *)

Section unload_events.












End unload_events.





(** *** The promises and the queue after each operation *)

Section heap.
Context {A : Type}.
Implicit Types (ps l : list A).

Lemma lookup_end0 ps a l : (ps ++ a :: l) !! length ps = Some a.
Proof. by apply list_lookup_middle. Qed.

Lemma lookup_end1 ps a b l : (ps ++ a :: b :: l) !! S (length ps) = Some b.
Proof. induction ps as [|? ? IH]; [done|exact IH]. Qed.

Lemma lookup_end2 ps a b c l : (ps ++ a :: b :: c :: l) !! S (S (length ps)) = Some c.
Proof. induction ps as [|? ? IH]; [done|exact IH]. Qed.

Lemma insert_end0 ps a l x : <[length ps := x]> (ps ++ a :: l) = ps ++ x :: l.
Proof. induction ps; [done|]. simpl. by f_equal. Qed.

Lemma insert_end1 ps a b l x :
  <[S (length ps) := x]> (ps ++ a :: b :: l) = ps ++ a :: x :: l.
Proof. induction ps; [done|]. simpl. by f_equal. Qed.

Lemma insert_end2 ps a b c l x :
  <[S (S (length ps)) := x]> (ps ++ a :: b :: c :: l) = ps ++ a :: b :: x :: l.
Proof. induction ps; [done|]. simpl. by f_equal. Qed.

End heap.

Lemma promises_settle q o st :
  promises (settle q o st)
  = match promises st !! q with
    | Some pr =>
      match status pr with
      | None => <[q := {| status := Some o; reactions := [];
                          remaining := remaining pr |}]> (promises st)
      | Some _ => promises st
      end
    | None => promises st
    end.
Proof. unfold settle. by repeat case_match. Qed.

Lemma microtasks_settle q o st :
  microtasks (settle q o st)
  = match promises st !! q with
    | Some pr =>
      match status pr with
      | None => microtasks st ++ map (λ r, React r o) (reactions pr)
      | Some _ => microtasks st
      end
    | None => microtasks st
    end.
Proof. unfold settle. by repeat case_match. Qed.

Lemma promises_subscribe q r st :
  promises (subscribe q r st)
  = match promises st !! q with
    | Some pr =>
      match status pr with
      | None => <[q := {| status := None; reactions := reactions pr ++ [r];
                          remaining := remaining pr |}]> (promises st)
      | Some _ => promises st
      end
    | None => promises st
    end.
Proof. unfold subscribe. by repeat case_match. Qed.

Lemma microtasks_subscribe q r st :
  microtasks (subscribe q r st)
  = match promises st !! q with
    | Some pr =>
      match status pr with
      | None => microtasks st
      | Some o => microtasks st ++ [React r o]
      end
    | None => microtasks st
    end.
Proof. unfold subscribe. by repeat case_match. Qed.

Ltac heap_fields :=
  cbn [promises microtasks fixtures loadedFixtures setupPromises setupCalls log
       with_promises with_microtasks with_setupPromises with_setupCalls
       with_loadedFixtures emit new_promise enqueue fst snd
       status reactions remaining pending].

Ltac heap_eval :=
  repeat first
    [ progress rewrite ?promises_settle, ?microtasks_settle, ?promises_subscribe,
                       ?microtasks_subscribe
    | progress heap_fields
    | progress rewrite ?length_app, ?Nat.add_1_r, <-?(assoc_L (++))
    | progress cbn [app length]
    | progress rewrite ?lookup_end0, ?lookup_end1, ?lookup_end2,
                       ?insert_end0, ?insert_end1, ?insert_end2 ].

(** The promises and the queue after [run_setup], for each behaviour of
    the setup callback: the setup promise [sp] is the first new promise,
    the promise of the callback the second. *)
Lemma run_setup_heap n fx result st :
  let sp := length (promises st) in
  let awaited := {| status := None; reactions := [ResumeLoadAfterSetup n result];
                    remaining := 0 |} in
  let settled o := {| status := Some o; reactions := []; remaining := 0 |} in
  match setup fx with
  | Some SetupCompletes =>
    promises (run_setup n fx result st) = promises st ++ [awaited; settled Fulfilled]
    ∧ microtasks (run_setup n fx result st)
      = microtasks st ++ [React (ResumeSetup n sp) Fulfilled]
  | Some (SetupFails msg) =>
    promises (run_setup n fx result st)
    = promises st ++ [awaited; settled (Rejected (CallbackError msg))]
    ∧ microtasks (run_setup n fx result st)
      = microtasks st ++ [React (ResumeSetup n sp) (Rejected (CallbackError msg))]
  | Some SetupWaits =>
    promises (run_setup n fx result st)
    = promises st ++ [awaited; {| status := None; reactions := [ResumeSetup n sp];
                                  remaining := 0 |}]
    ∧ microtasks (run_setup n fx result st) = microtasks st
  | None =>
    promises (run_setup n fx result st) = promises st ++ [settled Fulfilled]
    ∧ microtasks (run_setup n fx result st)
      = microtasks st ++ [React (ResumeLoadAfterSetup n result) Fulfilled]
  end.
Proof.
  intros sp awaited settled. unfold run_setup, invoke_setup, finish_setup.
  destruct (setup fx) as [[|msg|]|]; split; heap_eval; done.
Qed.

(** [load] of a registered fixture without a dependency list that is
    neither loaded nor in flight. *)
Lemma load_leaf depth n fx st :
  fixtures st !! n = Some fx ->
  dependencies fx = None ->
  idle st n ->
  load (S depth) n st
  = (length (promises st),
     run_setup n fx (length (promises st)) (new_promise 0 st).2).
Proof.
  intros Hfx Hdeps [Hp Hl]. simpl. by rewrite Hfx, Hp, decide_False, Hdeps.
Qed.

(** The setup of [n] has ended and the setup arrow of [load] is resumed,
    with nothing else in the queue: the fixture is marked loaded, its
    entry of [setupPromises] deleted, and the promise the call of [load]
    returned is fulfilled; two jobs. *)
Lemma setup_arrow_completes fuel n st ps q_promise l :
  promises st
  = ps ++ pending 0
       :: {| status := None; reactions := [ResumeLoadAfterSetup n (length ps)];
             remaining := 0 |}
       :: q_promise :: l ->
  microtasks st = [React (ResumeSetup n (S (length ps))) Fulfilled] ->
  ∃ st',
    drain (S (S fuel)) st = Some st'
    ∧ promises st'
      = ps ++ {| status := Some Fulfilled; reactions := []; remaining := 0 |}
           :: {| status := Some Fulfilled; reactions := []; remaining := 0 |}
           :: q_promise :: l
    ∧ microtasks st' = []
    ∧ fixtures st' = fixtures st
    ∧ loadedFixtures st' = {[n]} ∪ loadedFixtures st
    ∧ setupPromises st' = delete n (setupPromises st)
    ∧ setupCalls st' = setupCalls st
    ∧ log st' = log st ++ [Loaded n].
Proof.
  intros Hps Hq.
  rewrite (drain_cons _ _ _ _ Hq). cbn [run_microtask]. unfold finish_setup.
  match goal with |- context [drain (S fuel) ?s] => set (st1 := s) end.
  assert (promises st1
          = ps ++ pending 0
               :: {| status := Some Fulfilled; reactions := []; remaining := 0 |}
               :: q_promise :: l) as Hps1.
  { unfold st1. heap_eval. rewrite Hps. by heap_eval. }
  assert (microtasks st1 = [React (ResumeLoadAfterSetup n (length ps)) Fulfilled]) as Hq1.
  { unfold st1. heap_eval. rewrite Hps. by heap_eval. }
  rewrite (drain_cons _ _ _ _ Hq1). cbn [run_microtask].
  match goal with |- context [drain fuel ?s] => set (st2 := s) end.
  assert (promises st2
          = ps ++ {| status := Some Fulfilled; reactions := []; remaining := 0 |}
               :: {| status := Some Fulfilled; reactions := []; remaining := 0 |}
               :: q_promise :: l) as Hps2.
  { unfold st2. heap_eval. rewrite Hps1. by heap_eval. }
  assert (microtasks st2 = []) as Hq2.
  { unfold st2. heap_eval. rewrite Hps1. by heap_eval. }
  exists st2. split; [by apply drain_nil|]. split; [done|]. split; [done|].
  unfold st2, st1. autorewrite with fields. simpl. autorewrite with fields. by simpl.
Qed.

(** [load] of a loaded fixture that has no entry in [setupPromises]
    returns a promise that is already fulfilled and does nothing else. *)
Lemma load_loaded depth n fx st :
  fixtures st !! n = Some fx ->
  setupPromises st !! n = None ->
  n ∈ loadedFixtures st ->
  load (S depth) n st
  = (length (promises st), settle (length (promises st)) Fulfilled
                                        (new_promise 0 st).2)
  ∧ status_of (length (promises st))
      (settle (length (promises st)) Fulfilled (new_promise 0 st).2) = Some Fulfilled
  ∧ microtasks (settle (length (promises st)) Fulfilled (new_promise 0 st).2)
    = microtasks st.
Proof.
  intros Hfx Hp Hl. split_and!.
  - simpl. by rewrite Hfx, Hp, decide_True.
  - unfold status_of. by heap_eval.
  - heap_eval. by rewrite app_nil_r.
Qed.

(** A registered fixture without a dependency list, neither loaded nor in
    flight, whose setup completes: [load], called with an empty microtask
    queue, invokes the setup once; two jobs later the returned promise is
    fulfilled, the fixture is loaded and [setupPromises] is as before. A
    second [load] then returns a fulfilled promise without invoking the
    setup again. *)
Theorem load_runs_setup_once_and_marks_loaded depth fuel fixtureName fx st :
  microtasks st = [] ->
  fixtures st !! fixtureName = Some fx ->
  dependencies fx = None ->
  setup fx = Some SetupCompletes ->
  idle st fixtureName ->
  ∃ st',
    run (S depth) (S (S fuel)) [[CallLoad fixtureName]] st
    = Some ([length (promises st)], st')
    ∧ status_of (length (promises st)) st' = Some Fulfilled
    ∧ microtasks st' = []
    ∧ fixtures st' = fixtures st
    ∧ loadedFixtures st' = {[fixtureName]} ∪ loadedFixtures st
    ∧ setupPromises st' = setupPromises st
    ∧ log st' = log st ++ [SetupStart fixtureName; SetupEnd fixtureName;
                           Loaded fixtureName]
    ∧ setup_count fixtureName st' = S (setup_count fixtureName st)
    ∧ ∃ st'',
        run (S depth) fuel [[CallLoad fixtureName]] st'
        = Some ([length (promises st')], st'')
        ∧ status_of (length (promises st')) st'' = Some Fulfilled
        ∧ log st'' = log st'
        ∧ setup_count fixtureName st'' = setup_count fixtureName st'
        ∧ loadedFixtures st'' = loadedFixtures st'.
Proof.
  intros Hq Hfx Hdeps Hsetup Hidle.
  pose proof (load_leaf depth fixtureName fx st Hfx Hdeps Hidle) as Hload.
  set (result := length (promises st)) in *.
  set (st1 := run_setup fixtureName fx result (new_promise 0 st).2) in *.
  pose proof (run_setup_heap fixtureName fx result (new_promise 0 st).2) as Hheap.
  rewrite Hsetup in Hheap. cbn zeta in Hheap. fold st1 in Hheap.
  destruct Hheap as [Hps1 Hq1].
  destruct (run_setup_fields fixtureName fx result (new_promise 0 st).2)
    as (Hf1 & Hl1 & Hsp1 & Hc1 & Hlog1).
  fold st1 in Hf1, Hl1, Hsp1, Hc1, Hlog1. rewrite Hsetup in Hl1, Hc1.
  unfold setup_events in Hlog1. rewrite Hsetup in Hlog1.
  revert Hps1 Hq1 Hf1 Hl1 Hsp1 Hc1 Hlog1. heap_eval. rewrite Hq.
  intros Hps1 Hq1 Hf1 Hl1 Hsp1 Hc1 Hlog1.
  destruct (setup_arrow_completes fuel fixtureName st1 (promises st)
              {| status := Some Fulfilled; reactions := []; remaining := 0 |} [])
    as (st2 & Hdrain & Hps2 & Hq2 & Hf2 & Hl2 & Hsp2 & Hc2 & Hlog2); [done|done|].
  assert (setupPromises st2 = setupPromises st) as Hsp.
  { rewrite Hsp2, Hsp1. apply delete_insert_id. by destruct Hidle. }
  assert (status_of result st2 = Some Fulfilled) as Hres.
  { unfold status_of, result. by rewrite Hps2, lookup_end0. }
  exists st2. split_and!.
  - cbn [run exec]. rewrite Hload. cbn [mbind option_bind]. rewrite Hdrain. done.
  - done.
  - done.
  - congruence.
  - by rewrite Hl2, Hl1.
  - done.
  - by rewrite Hlog2, Hlog1, <-(assoc_L (++)).
  - unfold setup_count. rewrite Hc2, Hc1, filter_app, length_app.
    rewrite filter_cons_True by done. simpl. lia.
  - destruct (load_loaded depth fixtureName fx st2) as (Hload2 & Hst2 & Hq2');
      [congruence|rewrite Hsp; by destruct Hidle|rewrite Hl2; set_solver|].
    eexists. split_and!.
    + cbn [run exec]. rewrite Hload2. cbn [mbind option_bind].
      rewrite drain_nil by (by rewrite Hq2'). done.
    + done.
    + by autorewrite with fields.
    + unfold setup_count. by autorewrite with fields.
    + by autorewrite with fields.
Qed.

Lemma load_runs_setup_once_and_marks_loaded_witness :
  ∃ st',
    run 1 2 [[CallLoad "db"]] db_seedData = Some ([length (promises db_seedData)], st')
    ∧ status_of (length (promises db_seedData)) st' = Some Fulfilled
    ∧ microtasks st' = []
    ∧ fixtures st' = fixtures db_seedData
    ∧ loadedFixtures st' = {["db"]} ∪ loadedFixtures db_seedData
    ∧ setupPromises st' = setupPromises db_seedData
    ∧ log st' = log db_seedData ++ [SetupStart "db"; SetupEnd "db"; Loaded "db"]
    ∧ setup_count "db" st' = S (setup_count "db" db_seedData)
    ∧ ∃ st'',
        run 1 0 [[CallLoad "db"]] st' = Some ([length (promises st')], st'')
        ∧ status_of (length (promises st')) st'' = Some Fulfilled
        ∧ log st'' = log st'
        ∧ setup_count "db" st'' = setup_count "db" st'
        ∧ loadedFixtures st'' = loadedFixtures st'.
Proof.
  apply (load_runs_setup_once_and_marks_loaded 0 0 "db"
           (fixture "db" None (Some SetupCompletes)) db_seedData).
  - reflexivity.
  - reflexivity.
  - reflexivity.
  - reflexivity.
  - split; [reflexivity|]. vm_compute. set_solver.
Defined.

(** [load] of a fixture whose entry of [setupPromises] is a settled
    promise, called with an empty queue: the returned promise adopts the
    stored one and has its outcome two jobs later; nothing else changes,
    no setup is invoked. *)
Lemma load_adopts_settled depth fuel n sp o st :
  is_Some (fixtures st !! n) ->
  setupPromises st !! n = Some sp ->
  status_of sp st = Some o ->
  microtasks st = [] ->
  ∃ st',
    run (S depth) (S (S fuel)) [[CallLoad n]] st = Some ([length (promises st)], st')
    ∧ status_of (length (promises st)) st' = Some o
    ∧ heap_only st st'
    ∧ microtasks st' = [].
Proof.
  intros [fx Hfx] Hsp Ho Hq.
  assert (load (S depth) n st
          = (length (promises st),
             enqueue (ThenableJob (length (promises st)) sp) (new_promise 0 st).2))
    as Hload.
  { simpl. by rewrite Hfx, Hsp. }
  set (r := length (promises st)) in *.
  set (st1 := enqueue (ThenableJob r sp) (new_promise 0 st).2) in *.
  assert (microtasks st1 = [ThenableJob r sp]) as Hq1.
  { unfold st1. heap_eval. by rewrite Hq. }
  assert (sp < length (promises st)) as Hlt by (by eapply status_of_lt).
  set (st2 := run_microtask (ThenableJob r sp) (with_microtasks (λ _, []) st1)).
  assert (st2 = enqueue (React (Adopt r) o) (with_microtasks (λ _, []) st1)) as Hst2.
  { unfold st2. cbn [run_microtask]. apply subscribe_settled.
    unfold status_of, st1 in *. heap_eval. by rewrite lookup_app_l. }
  assert (microtasks st2 = [React (Adopt r) o]) as Hq2 by (by rewrite Hst2).
  set (st3 := run_microtask (React (Adopt r) o) (with_microtasks (λ _, []) st2)).
  assert (promises st2 = promises st ++ [pending 0]) as Hps2 by (by rewrite Hst2).
  assert (status_of r st3 = Some o ∧ microtasks st3 = []) as [Hres Hq3].
  { unfold st3, status_of. cbn [run_microtask]. heap_eval. rewrite Hps2.
    unfold r. by heap_eval. }
  exists st3. split_and!; [|done| |done].
  - cbn [run exec]. rewrite Hload. cbn [mbind option_bind].
    rewrite (drain_cons _ _ _ _ Hq1). fold st2.
    rewrite (drain_cons _ _ _ _ Hq2). fold st3.
    rewrite (drain_nil _ _ Hq3). done.
  - unfold st3. cbn [run_microtask].
    eapply heap_only_trans; [|apply settle_heap_only].
    rewrite Hst2. by repeat split.
Qed.

(** A fixture without a [setup] callback and without a dependency list:
    [load] marks it loaded, and leaves its fulfilled setup promise in
    [setupPromises] (the arrow function has deleted the entry before
    [load] stores the promise). After [unload], a [load] of the fixture
    finds that promise: the call is fulfilled, but the fixture is not
    marked loaded again. *)
Theorem load_after_unload_leaves_fixture_unloaded depth fuel fixtureName fx st :
  microtasks st = [] ->
  fixtures st !! fixtureName = Some fx ->
  dependencies fx = None ->
  setup fx = None ->
  idle st fixtureName ->
  ∃ st1,
    run (S depth) (S fuel) [[CallLoad fixtureName]] st
    = Some ([length (promises st)], st1)
    ∧ status_of (length (promises st)) st1 = Some Fulfilled
    ∧ fixtureName ∈ loadedFixtures st1
    ∧ setupPromises st1 !! fixtureName = Some (S (length (promises st)))
    ∧ status_of (S (length (promises st))) st1 = Some Fulfilled
    ∧ ∀ depth' st2,
        unload depth' fixtureName st1 = Some (Ok tt, st2) ->
        ∃ st3,
          run (S depth) (S (S fuel)) [[CallLoad fixtureName]] st2
          = Some ([length (promises st2)], st3)
          ∧ status_of (length (promises st2)) st3 = Some Fulfilled
          ∧ (fixtureName ∉ loadedFixtures st3)
          ∧ isLoaded fixtureName st3 = false
          ∧ log st3 = log st2.
Proof.
  intros Hq Hfx Hdeps Hsetup Hidle.
  pose proof (load_leaf depth fixtureName fx st Hfx Hdeps Hidle) as Hload.
  set (result := length (promises st)) in *.
  set (st0 := run_setup fixtureName fx result (new_promise 0 st).2) in *.
  pose proof (run_setup_heap fixtureName fx result (new_promise 0 st).2) as Hheap.
  rewrite Hsetup in Hheap. cbn zeta in Hheap. fold st0 in Hheap.
  destruct Hheap as [Hps0 Hq0].
  destruct (run_setup_fields fixtureName fx result (new_promise 0 st).2)
    as (Hf0 & Hl0 & Hsp0 & Hc0 & Hlog0).
  fold st0 in Hf0, Hl0, Hsp0, Hc0, Hlog0. rewrite Hsetup in Hl0, Hc0.
  revert Hps0 Hq0 Hf0 Hl0 Hsp0 Hc0 Hlog0. heap_eval. rewrite Hq.
  intros Hps0 Hq0 Hf0 Hl0 Hsp0 Hc0 Hlog0.
  set (st1 := run_microtask (React (ResumeLoadAfterSetup fixtureName result) Fulfilled)
                (with_microtasks (λ _, []) st0)).
  assert (promises st1
          = promises st ++ [{| status := Some Fulfilled; reactions := [];
                               remaining := 0 |};
                            {| status := Some Fulfilled; reactions := [];
                               remaining := 0 |}]
          ∧ microtasks st1 = []) as [Hps1 Hq1].
  { unfold st1. cbn [run_microtask]. heap_eval. rewrite Hps0. unfold result.
    by heap_eval. }
  assert (heap_only st0 st1) as (Hf1 & Hl1 & Hsp1 & Hc1 & Hlog1).
  { unfold st1. cbn [run_microtask].
    eapply heap_only_trans; [|apply settle_heap_only]. by repeat split. }
  exists st1. split_and!.
  - cbn [run exec]. rewrite Hload. cbn [mbind option_bind].
    rewrite (drain_cons _ _ _ _ Hq0). fold st1. by rewrite (drain_nil _ _ Hq1).
  - unfold status_of, result. by rewrite Hps1, lookup_end0.
  - rewrite Hl1, Hl0. set_solver.
  - by rewrite Hsp1, Hsp0, lookup_insert_eq.
  - unfold status_of, result. by rewrite Hps1, lookup_end1.
  - intros depth' st2 Hu.
    destruct (unload_frame depth' fixtureName st1 _ st2 Hu)
      as (Hf2 & Hsp2 & Hps2 & Hq2 & Hc2 & Hsub2).
    destruct (unload_shrinks depth' fixtureName st1 st2 Hu) as (_ & Hout & _).
    destruct (load_adopts_settled depth fuel fixtureName (S result) Fulfilled st2)
      as (st3 & Hrun & Hres & (Hf3 & Hl3 & Hsp3 & Hc3 & Hlog3) & Hq3).
    + rewrite Hf2, Hf1, Hf0. by eexists.
    + by rewrite Hsp2, Hsp1, Hsp0, lookup_insert_eq.
    + unfold status_of, result. by rewrite Hps2, Hps1, lookup_end1.
    + by rewrite Hq2.
    + exists st3. split_and!; [done|done| | |done].
      * by rewrite Hl3.
      * unfold isLoaded. apply bool_decide_eq_false. by rewrite Hl3.
Qed.

(** A fixture without callbacks of its own. *)
Definition marker_only : State :=
  initial (registry [{| name := "marker"; scope := test; dependencies := None;
                        setup := None; teardown := None |}]).

Lemma load_after_unload_leaves_fixture_unloaded_witness :
  ∃ st1,
    run 1 1 [[CallLoad "marker"]] marker_only
    = Some ([length (promises marker_only)], st1)
    ∧ status_of (length (promises marker_only)) st1 = Some Fulfilled
    ∧ "marker" ∈ loadedFixtures st1
    ∧ setupPromises st1 !! "marker" = Some (S (length (promises marker_only)))
    ∧ status_of (S (length (promises marker_only))) st1 = Some Fulfilled
    ∧ ∀ depth' st2,
        unload depth' "marker" st1 = Some (Ok tt, st2) ->
        ∃ st3,
          run 1 2 [[CallLoad "marker"]] st2 = Some ([length (promises st2)], st3)
          ∧ status_of (length (promises st2)) st3 = Some Fulfilled
          ∧ ("marker" ∉ loadedFixtures st3)
          ∧ isLoaded "marker" st3 = false
          ∧ log st3 = log st2.
Proof.
  apply (load_after_unload_leaves_fixture_unloaded 0 0 "marker"
           {| name := "marker"; scope := test; dependencies := None;
              setup := None; teardown := None |} marker_only).
  - reflexivity.
  - reflexivity.
  - reflexivity.
  - reflexivity.
  - split; [reflexivity|]. vm_compute. set_solver.
Defined.

(** [reset] does not cancel a setup that is in flight. A fixture without
    a dependency list whose setup waits is being loaded; [reset] is
    called; then the setup ends. The setup arrow of [load] goes on where
    it was: the fixture is marked loaded, after the [reset], and the
    promise of the [load] is fulfilled. *)
Theorem reset_does_not_cancel_setup_in_flight depth fuel fixtureName fx st :
  microtasks st = [] ->
  fixtures st !! fixtureName = Some fx ->
  dependencies fx = None ->
  setup fx = Some SetupWaits ->
  idle st fixtureName ->
  ∃ st',
    run (S depth) (S (S fuel))
      [[CallLoad fixtureName]; [CallReset];
       [SettleSetup (length (setupCalls st)) Fulfilled]] st
    = Some ([length (promises st)], st')
    ∧ status_of (length (promises st)) st' = Some Fulfilled
    ∧ loadedFixtures st' = {[fixtureName]}
    ∧ isLoaded fixtureName st' = true
    ∧ log st' = log st ++ [SetupStart fixtureName; SetupEnd fixtureName;
                           Loaded fixtureName].
Proof.
  intros Hq Hfx Hdeps Hsetup Hidle.
  pose proof (load_leaf depth fixtureName fx st Hfx Hdeps Hidle) as Hload.
  set (result := length (promises st)) in *.
  set (st1 := run_setup fixtureName fx result (new_promise 0 st).2) in *.
  pose proof (run_setup_heap fixtureName fx result (new_promise 0 st).2) as Hheap.
  rewrite Hsetup in Hheap. cbn zeta in Hheap. fold st1 in Hheap.
  destruct Hheap as [Hps1 Hq1].
  destruct (run_setup_fields fixtureName fx result (new_promise 0 st).2)
    as (Hf1 & Hl1 & Hsp1 & Hc1 & Hlog1).
  fold st1 in Hf1, Hl1, Hsp1, Hc1, Hlog1. rewrite Hsetup in Hl1, Hc1.
  unfold setup_events in Hlog1. rewrite Hsetup in Hlog1.
  revert Hps1 Hq1 Hf1 Hl1 Hsp1 Hc1 Hlog1. heap_eval. rewrite Hq.
  intros Hps1 Hq1 Hf1 Hl1 Hsp1 Hc1 Hlog1.
  set (st2 := settle_setup (length (setupCalls st)) Fulfilled (reset st1)).
  assert (st2 = settle (S (S result)) Fulfilled
                  (emit (SetupEnd fixtureName) (reset st1))) as Hst2.
  { unfold st2, settle_setup, is_pending, reset. heap_eval.
    rewrite Hc1, Hps1. unfold result. by heap_eval. }
  assert (promises st2
          = promises st
            ++ [pending 0;
                {| status := None;
                   reactions := [ResumeLoadAfterSetup fixtureName (length (promises st))];
                   remaining := 0 |};
                {| status := Some Fulfilled; reactions := []; remaining := 0 |}]
          ∧ microtasks st2
            = [React (ResumeSetup fixtureName (S (length (promises st)))) Fulfilled])
    as [Hps2 Hq2].
  { rewrite Hst2. unfold reset, result. heap_eval. rewrite Hps1, Hq1. by heap_eval. }
  destruct (setup_arrow_completes fuel fixtureName st2 (promises st)
              {| status := Some Fulfilled; reactions := []; remaining := 0 |} [])
    as (st3 & Hdrain & Hps3 & Hq3 & Hf3 & Hl3 & Hsp3 & Hc3 & Hlog3); [done|done|].
  assert (loadedFixtures st3 = {[fixtureName]}) as Hloaded.
  { rewrite Hl3, Hst2. autorewrite with fields. unfold reset. heap_eval.
    apply leibniz_equiv. set_solver. }
  exists st3. split_and!.
  - cbn [run exec]. rewrite Hload. cbn [mbind option_bind].
    rewrite (drain_nil _ _ Hq1). cbn [mbind option_bind].
    rewrite (drain_nil _ (reset st1)) by (unfold reset; by heap_eval).
    cbn [mbind option_bind]. fold st2. rewrite Hdrain. done.
  - unfold status_of, result. by rewrite Hps3, lookup_end0.
  - done.
  - unfold isLoaded. apply bool_decide_eq_true. rewrite Hloaded. set_solver.
  - rewrite Hlog3, Hst2. autorewrite with fields. unfold reset. heap_eval.
    by rewrite Hlog1, <-!(assoc_L (++)).
Qed.

Lemma reset_does_not_cancel_setup_in_flight_witness :
  ∃ st',
    run 1 2 [[CallLoad "d1"]; [CallReset];
             [SettleSetup (length (setupCalls two_waiting_deps)) Fulfilled]]
      two_waiting_deps
    = Some ([length (promises two_waiting_deps)], st')
    ∧ status_of (length (promises two_waiting_deps)) st' = Some Fulfilled
    ∧ loadedFixtures st' = {["d1"]}
    ∧ isLoaded "d1" st' = true
    ∧ log st' = log two_waiting_deps ++ [SetupStart "d1"; SetupEnd "d1"; Loaded "d1"].
Proof.
  apply (reset_does_not_cancel_setup_in_flight 0 0 "d1"
           (fixture "d1" None (Some SetupWaits)) two_waiting_deps).
  - reflexivity.
  - reflexivity.
  - reflexivity.
  - reflexivity.
  - split; [reflexivity|]. vm_compute. set_solver.
Defined.

(** *** The registry *)

Lemma run_microtask_fixtures m st : fixtures (run_microtask m st) = fixtures st.
Proof.
  destruct m as [[n fx result|n sp|n result|all|target] o|target source]; simpl;
    try destruct o; autorewrite with fields; try done.
  - by destruct (run_setup_fields n fx result st) as (? & _).
  - unfold finish_setup. by autorewrite with fields.
  - by destruct (element_fulfilled_heap_only all st) as (? & _).
Qed.

Lemma settle_setup_fixtures i o st : fixtures (settle_setup i o st) = fixtures st.
Proof.
  unfold settle_setup. destruct (setupCalls st !! i) as [[n q]|]; [|done].
  destruct (is_pending q st); [|done]. destruct o; by autorewrite with fields.
Qed.

Lemma step_fixtures st st' : step st st' -> fixtures st' = fixtures st.
Proof.
  intros [depth n r st1 Hl|m rest Hm|i o|depth n r st1 Hu].
  - by destruct (load_sync_frame depth n st r st1 Hl) as [? _].
  - by rewrite run_microtask_fixtures.
  - apply settle_setup_fixtures.
  - by destruct (unload_frame depth n st r st1 Hu) as (? & _).
Qed.

(** What a test can do with the manager: register a fixture, reset the
    manager, and the steps of [load] and [unload] and of the event loop. *)
Inductive operation (st : State) : State -> Prop :=
| op_register cfg r st' : register cfg st = (r, st') -> operation st st'
| op_reset : operation st (reset st)
| op_step st' : step st st' -> operation st st'.

(** A registered fixture keeps its configuration whatever is done with
    the manager afterwards, [reset] included: no operation removes or
    replaces an entry of [fixtures], and [register] throws for its name
    and changes nothing. *)
Theorem registered_fixture_is_never_replaced st st' fixtureName cfg :
  rtc operation st st' ->
  fixtures st !! fixtureName = Some cfg ->
  fixtures st' !! fixtureName = Some cfg
  ∧ ∀ cfg', name cfg' = fixtureName ->
      register cfg' st' = (Throw (FixtureAlreadyRegistered fixtureName), st').
Proof.
  intros Hops Hcfg.
  assert (fixtures st' !! fixtureName = Some cfg) as Hcfg'.
  { induction Hops as [st|st st1 st2 Hop _ IH]; [done|]. apply IH.
    destruct Hop as [c r st1 Hreg| |st1 Hstep].
    - unfold register in Hreg. destruct (fixtures st !! name c) eqn:Hc.
      + by injection Hreg as <- <-.
      + injection Hreg as <- <-. simpl. rewrite lookup_insert_ne; [done|].
        intros Heq. congruence.
    - done.
    - by rewrite (step_fixtures _ _ Hstep). }
  split; [done|]. intros cfg' <-. unfold register. by rewrite Hcfg'.
Qed.

Lemma registered_fixture_is_never_replaced_witness :
  let st' := reset (load 8 "db" db_seedData).2 in
  let db := fixture "db" None (Some SetupCompletes) in
  fixtures st' !! "db" = Some db
  ∧ ∀ cfg', name cfg' = "db" ->
      register cfg' st' = (Throw (FixtureAlreadyRegistered "db"), st').
Proof.
  intros st' db.
  apply (registered_fixture_is_never_replaced db_seedData st' "db" db).
  - eapply rtc_l; [|apply rtc_once, op_reset].
    apply op_step. eapply (step_load _ 8 "db"). apply surjective_pairing.
  - reflexivity.
Defined.

(** *** Dependencies are loaded before a fixture is set up *)

(** What a promise of the heap is for. *)
Inductive Kind : Type :=
| KResult (d : string)       (* returned by a call of [load d] *)
| KSetup (d : string)        (* the promise of the setup arrow of [load d] *)
| KCallback (d : string)     (* returned by the setup callback of [d] *)
| KAll (deps : list string). (* [Promise.all] over the loads of [deps] *)

(** The reaction is the one [Promise.all] number [a] has registered. *)
Definition rweight (a : nat) (r : Reaction) : nat :=
  match r with
  | AllElement a' => if decide (a' = a) then 1 else 0
  | _ => 0
  end.

Definition mweight (a : nat) (m : Microtask) : nat :=
  match m with
  | React r _ => rweight a r
  | ThenableJob _ _ => 0
  end.

(** The elements of [Promise.all] number [a] that have not settled, and
    those whose settlement is in the queue. *)
Definition attached (a : nat) (ps : list Promise) : nat :=
  sum_list_with (λ pr, sum_list_with (rweight a) (reactions pr)) ps.

Definition queued (a : nat) (ms : list Microtask) : nat :=
  sum_list_with (mweight a) ms.

Lemma rweight_pos a rs :
  sum_list_with (rweight a) rs ≠ 0 ↔ AllElement a ∈ rs.
Proof.
  induction rs as [|r rs IH]; simpl.
  - split; [done|by intros ?%elem_of_nil].
  - rewrite elem_of_cons, <-IH. destruct r; simpl; try case_decide; subst;
      split; try lia; try (intros [[=]|?]; done); auto; intros [[= ->]|?]; done.
Qed.

Lemma attached_insert a ps p pr pr' :
  ps !! p = Some pr ->
  attached a (<[p := pr']> ps) + sum_list_with (rweight a) (reactions pr)
  = attached a ps + sum_list_with (rweight a) (reactions pr').
Proof.
  unfold attached. revert p. induction ps as [|x ps IH]; intros [|p] Hp; try done.
  - injection Hp as ->. simpl. lia.
  - simpl in *. specialize (IH p Hp). lia.
Qed.

Lemma attached_pos a ps :
  attached a ps ≠ 0 ↔ ∃ p pr, ps !! p = Some pr ∧ AllElement a ∈ reactions pr.
Proof.
  unfold attached. induction ps as [|x ps IH]; simpl.
  - split; [done|]. by intros (p & pr & Hp & _).
  - split.
    + intros Hne. destruct (decide (sum_list_with (rweight a) (reactions x) = 0)) as [Hz|Hnz].
      * destruct IH as [IH _]. destruct IH as (p & pr & Hp & Hin); [lia|].
        by exists (S p), pr.
      * exists 0, x. split; [done|]. by apply rweight_pos.
    + intros ([|p] & pr & Hp & Hin).
      * injection Hp as ->. apply rweight_pos in Hin. lia.
      * destruct IH as [_ IH]. assert (sum_list_with
          (λ pr0, sum_list_with (rweight a) (reactions pr0)) ps ≠ 0); [|lia].
        apply IH. by exists p, pr.
Qed.

Lemma queued_pos a ms :
  queued a ms ≠ 0 ↔ ∃ o, React (AllElement a) o ∈ ms.
Proof.
  unfold queued. induction ms as [|m ms IH]; simpl.
  - split; [done|]. by intros (o & ?%elem_of_nil).
  - split.
    + intros Hne. destruct (decide (mweight a m = 0)) as [Hz|Hnz].
      * destruct IH as [IH _]. destruct IH as (o & Hin); [lia|]. exists o. by right.
      * destruct m as [[| | |a'|] o|]; simpl in Hnz; try done.
        case_decide; [subst|done]. exists o. by left.
    + intros (o & [<-|Hin]%elem_of_cons).
      * simpl. rewrite decide_True by done. lia.
      * destruct IH as [_ IH]. assert (sum_list_with (mweight a) ms ≠ 0); [|lia].
        apply IH. by exists o.
Qed.

Lemma queued_reactions a o rs :
  queued a (map (λ r, React r o) rs) = sum_list_with (rweight a) rs.
Proof. unfold queued. induction rs as [|r rs IH]; simpl; [done|]. by rewrite IH. Qed.

(** [f] is registered and the dependencies it declares are in [loaded]. *)
Definition dependencies_in (fs : gmap string FixtureConfig) (loaded : gset string)
    (f : string) : Prop :=
  ∃ fx, fs !! f = Some fx ∧ ∀ d, d ∈ default [] (dependencies fx) -> d ∈ loaded.

(** A promise of kind [k] may be settled with [o]: the promises of [load]
    and of its setup arrow are fulfilled for a loaded fixture only, that
    of [Promise.all] when all the dependencies are loaded. *)
Definition outcome_ok (loaded : gset string) (k : Kind) (o : Outcome) : Prop :=
  match o with
  | Rejected _ => True
  | Fulfilled =>
    match k with
    | KResult d | KSetup d => d ∈ loaded
    | KAll deps => ∀ d, d ∈ deps -> d ∈ loaded
    | KCallback _ => True
    end
  end.

(** The reaction [r] waits for a promise of kind [k]. *)
Definition reaction_ok (fs : gmap string FixtureConfig) (L : list Kind) (loaded : gset string) (k : Kind) (r : Reaction)
  : Prop :=
  match r with
  | ResumeLoadAfterDeps f fx res =>
    fs !! f = Some fx ∧ k = KAll (default [] (dependencies fx))
    ∧ L !! res = Some (KResult f)
  | ResumeSetup d sp =>
    k = KCallback d ∧ L !! sp = Some (KSetup d) ∧ dependencies_in fs loaded d
  | ResumeLoadAfterSetup d res => k = KSetup d ∧ L !! res = Some (KResult d)
  | AllElement a => ∃ d deps, k = KResult d ∧ L !! a = Some (KAll deps)
  | Adopt t => ∃ d, k = KSetup d ∧ L !! t = Some (KResult d)
  end.

Definition promise_ok (fs : gmap string FixtureConfig) (L : list Kind) (loaded : gset string) (k : Kind) (pr : Promise)
  : Prop :=
  (∀ o, status pr = Some o -> outcome_ok loaded k o)
  ∧ Forall (reaction_ok fs L loaded k) (reactions pr).

Definition microtask_ok (fs : gmap string FixtureConfig) (L : list Kind) (loaded : gset string) (m : Microtask) : Prop :=
  match m with
  | React r o => ∃ k, reaction_ok fs L loaded k r ∧ outcome_ok loaded k o
  | ThenableJob t s => ∃ d, L !! s = Some (KSetup d) ∧ L !! t = Some (KResult d)
  end.

(** The counter of a pending [Promise.all] is the number of its elements
    that have not been delivered. *)
Definition count_ok (L : list Kind) (ps : list Promise) (ms : list Microtask) (a : nat)
  : Prop :=
  ∀ deps pr, L !! a = Some (KAll deps) -> ps !! a = Some pr -> status pr = None ->
    remaining pr = attached a ps + queued a ms.

(** For a pending [Promise.all]: a rejection is on its way, or every
    dependency is loaded or its load is still awaited. *)
Definition cover_ok (L : list Kind) (loaded : gset string) (ps : list Promise)
    (ms : list Microtask) (a : nat) : Prop :=
  ∀ deps pr, L !! a = Some (KAll deps) -> ps !! a = Some pr -> status pr = None ->
    (∃ e, React (AllElement a) (Rejected e) ∈ ms)
    ∨ ∀ d, d ∈ deps ->
        d ∈ loaded
        ∨ ∃ p pr', ps !! p = Some pr' ∧ L !! p = Some (KResult d)
                   ∧ AllElement a ∈ reactions pr'.

(** The invariant of the promises and the queue; the promises of [X] are
    exempt from the count. *)
Definition heap_inv (fs : gmap string FixtureConfig) (X : nat -> Prop) (L : list Kind) (loaded : gset string)
    (ps : list Promise) (ms : list Microtask) : Prop :=
  Forall2 (promise_ok fs L loaded) L ps
  ∧ Forall (microtask_ok fs L loaded) ms
  ∧ ∀ a, ¬ X a -> count_ok L ps ms a ∧ cover_ok L loaded ps ms a.

(** [L'] has the kinds of [L], and more. *)
Definition grows (L L' : list Kind) : Prop :=
  ∀ p k, L !! p = Some k -> L' !! p = Some k.

Lemma grows_app L L' : grows L (L ++ L').
Proof. intros p k H. by apply lookup_app_l_Some. Qed.

Lemma grows_refl L : grows L L.
Proof. by intros p k. Qed.

Lemma grows_trans L1 L2 L3 : grows L1 L2 -> grows L2 L3 -> grows L1 L3.
Proof. intros H1 H2 p k H. auto. Qed.

Lemma dependencies_in_mono fs fs' loaded loaded' f :
  fs ⊆ fs' -> loaded ⊆ loaded' ->
  dependencies_in fs loaded f -> dependencies_in fs' loaded' f.
Proof.
  intros Hfs Hsub (fx & Hfx & H). exists fx. split.
  - by eapply lookup_weaken.
  - intros d Hd. apply Hsub. auto.
Qed.

Lemma outcome_ok_mono loaded loaded' k o :
  loaded ⊆ loaded' -> outcome_ok loaded k o -> outcome_ok loaded' k o.
Proof.
  intros Hsub. destruct o; [|done]. destruct k; simpl; try done; try (by apply Hsub).
  intros H d Hd. apply Hsub. auto.
Qed.

Lemma reaction_ok_mono fs fs' L L' loaded loaded' k r :
  fs ⊆ fs' -> grows L L' -> loaded ⊆ loaded' ->
  reaction_ok fs L loaded k r -> reaction_ok fs' L' loaded' k r.
Proof.
  intros Hfs HL Hsub. destruct r; simpl.
  - intros (? & ? & ?). split_and!; auto. by eapply lookup_weaken.
  - intros (? & ? & ?). split_and!; auto. by eapply dependencies_in_mono.
  - intros (? & ?). auto.
  - intros (d & deps & ? & ?). exists d, deps. auto.
  - intros (d & ? & ?). exists d. auto.
Qed.

Lemma promise_ok_mono fs fs' L L' loaded loaded' k pr :
  fs ⊆ fs' -> grows L L' -> loaded ⊆ loaded' ->
  promise_ok fs L loaded k pr -> promise_ok fs' L' loaded' k pr.
Proof.
  intros Hfs HL Hsub [Ho Hr]. split.
  - intros o Hs. eapply outcome_ok_mono; [done|]. auto.
  - eapply Forall_impl; [exact Hr|]. intros r. by apply reaction_ok_mono.
Qed.

Lemma microtask_ok_mono fs fs' L L' loaded loaded' m :
  fs ⊆ fs' -> grows L L' -> loaded ⊆ loaded' ->
  microtask_ok fs L loaded m -> microtask_ok fs' L' loaded' m.
Proof.
  intros Hfs HL Hsub. destruct m as [r o|t s]; simpl.
  - intros (k & Hr & Ho). exists k. split.
    + by eapply reaction_ok_mono.
    + by eapply outcome_ok_mono.
  - intros (d & ? & ?). exists d. auto.
Qed.

Lemma heap_inv_loaded fs fs' X L loaded loaded' ps ms :
  fs ⊆ fs' -> loaded ⊆ loaded' ->
  heap_inv fs X L loaded ps ms -> heap_inv fs' X L loaded' ps ms.
Proof.
  intros Hfs Hsub (Hps & Hms & Hc). split_and!.
  - eapply Forall2_impl; [exact Hps|]. intros k pr.
    by apply promise_ok_mono; [|apply grows_refl|].
  - eapply Forall_impl; [exact Hms|]. intros m.
    by apply microtask_ok_mono; [|apply grows_refl|].
  - intros a Ha. destruct (Hc a Ha) as [Hcount Hcover]. split; [done|].
    intros deps pr HL Hp Hs. destruct (Hcover deps pr HL Hp Hs) as [?|Hall]; [by left|].
    right. intros d Hd. destruct (Hall d Hd) as [?|?]; [left; by apply Hsub|by right].
Qed.

Lemma heap_inv_exempt fs (X X' : nat -> Prop) L loaded ps ms :
  (∀ a, X a -> X' a) -> heap_inv fs X L loaded ps ms -> heap_inv fs X' L loaded ps ms.
Proof. intros HX (Hps & Hms & Hc). split_and!; [done..|]. intros a Ha. apply Hc. auto. Qed.

(** A new pending promise that is not a [Promise.all]. *)
Lemma heap_inv_new fs (X : nat -> Prop) L loaded ps ms k c :
  (∀ deps, k = KAll deps -> X (length ps)) ->
  heap_inv fs X L loaded ps ms ->
  heap_inv fs X (L ++ [k]) loaded (ps ++ [pending c]) ms
  ∧ (L ++ [k]) !! length ps = Some k.
Proof.
  intros Hk (Hps & Hms & Hc).
  pose proof (Forall2_length _ _ _ Hps) as Hlen.
  split; [|by rewrite <-Hlen, lookup_end0].
  split_and!.
  - apply Forall2_app.
    + eapply Forall2_impl; [exact Hps|]. intros k' pr.
      apply promise_ok_mono; [done|apply grows_app|done].
    + constructor; [|constructor]. split; [done|constructor].
  - eapply Forall_impl; [exact Hms|]. intros m.
    apply microtask_ok_mono; [done|apply grows_app|done].
  - intros a Ha.
    assert (∀ deps, (L ++ [k]) !! a = Some (KAll deps) -> L !! a = Some (KAll deps)) as Hold.
    { intros deps HL. destruct (decide (a < length L)) as [Hlt|Hge].
      - by rewrite lookup_app_l in HL.
      - rewrite lookup_app_r in HL by lia.
        destruct (a - length L) as [|n] eqn:Hn; simpl in HL; [|done].
        injection HL as ->. destruct Ha. replace a with (length ps) by lia.
        by eapply Hk. }
    destruct (Hc a Ha) as [Hcount Hcover]. split.
    + intros deps pr HL Hp Hs. apply Hold in HL.
      assert (ps !! a = Some pr) as Hp'.
      { rewrite lookup_app_l in Hp; [done|]. rewrite <-Hlen. by eapply lookup_lt_Some. }
      rewrite (Hcount deps pr HL Hp' Hs). unfold attached.
      rewrite sum_list_with_app. simpl. lia.
    + intros deps pr HL Hp Hs. apply Hold in HL.
      assert (ps !! a = Some pr) as Hp'.
      { rewrite lookup_app_l in Hp; [done|]. rewrite <-Hlen. by eapply lookup_lt_Some. }
      destruct (Hcover deps pr HL Hp' Hs) as [?|Hall]; [by left|]. right.
      intros d Hd. destruct (Hall d Hd) as [?|(p & pr' & H1 & H2 & H3)]; [by left|].
      right. exists p, pr'. split_and!; [by apply lookup_app_l_Some|by apply grows_app|done].
Qed.

(** A pending promise of kind [k] is settled with an outcome that its
    kind allows. *)
Lemma heap_inv_settle fs X L loaded ps ms p k pr o :
  heap_inv fs X L loaded ps ms ->
  L !! p = Some k -> ps !! p = Some pr -> status pr = None ->
  outcome_ok loaded k o ->
  heap_inv fs X L loaded
    (<[p := {| status := Some o; reactions := []; remaining := remaining pr |}]> ps)
    (ms ++ map (λ r, React r o) (reactions pr)).
Proof.
  intros (Hps & Hms & Hc) HL Hp Hs Ho.
  destruct (Forall2_lookup_lr _ _ _ _ _ _ Hps HL Hp) as [_ Hrs].
  split_and!.
  - rewrite <-(list_insert_id L p k) at 2 by done.
    apply Forall2_insert; [done|]. split; [|constructor].
    simpl. by intros o' [= <-].
  - apply Forall_app. split; [done|]. apply Forall_fmap.
    eapply Forall_impl; [exact Hrs|]. intros r Hr. simpl. by exists k.
  - intros a Ha. destruct (Hc a Ha) as [Hcount Hcover].
    assert (∀ pr0, <[p := {| status := Some o; reactions := [];
                             remaining := remaining pr |}]> ps !! a = Some pr0 ->
                   status pr0 = None -> a ≠ p ∧ ps !! a = Some pr0) as Hother.
    { intros pr0 Hl Hs0. destruct (decide (a = p)) as [->|Hne].
      - rewrite list_lookup_insert_eq in Hl by (by eapply lookup_lt_Some).
        injection Hl as <-. done.
      - by rewrite list_lookup_insert_ne in Hl. }
    split.
    + intros deps pr0 HLa Hl Hs0. destruct (Hother pr0 Hl Hs0) as [Hne Hl'].
      rewrite (Hcount deps pr0 HLa Hl' Hs0).
      pose proof (attached_insert a ps p pr
                    {| status := Some o; reactions := []; remaining := remaining pr |} Hp)
        as Hatt.
      simpl in Hatt. unfold queued in *. rewrite sum_list_with_app.
      fold (queued a (map (λ r, React r o) (reactions pr))).
      rewrite queued_reactions. lia.
    + intros deps pr0 HLa Hl Hs0. destruct (Hother pr0 Hl Hs0) as [Hne Hl'].
      destruct (Hcover deps pr0 HLa Hl' Hs0) as [[e He]|Hall].
      { left. exists e. apply elem_of_app. by left. }
      destruct (decide (sum_list_with (rweight a) (reactions pr) = 0)) as [Hz|Hnz].
      * right. intros d Hd. destruct (Hall d Hd) as [?|(q & pr' & H1 & H2 & H3)]; [by left|].
        right. exists q, pr'. split_and!; [|done..].
        rewrite list_lookup_insert_ne; [done|]. intros <-.
        rewrite Hp in H1. injection H1 as <-.
        apply rweight_pos in H3. done.
      * apply rweight_pos in Hnz. destruct o as [|e].
        -- right. intros d Hd.
           destruct (Hall d Hd) as [?|(q & pr' & H1 & H2 & H3)]; [by left|].
           destruct (decide (q = p)) as [->|Hqp].
           ++ left. rewrite HL in H2. injection H2 as ->. exact Ho.
           ++ right. exists q, pr'. by rewrite list_lookup_insert_ne.
        -- left. exists e. apply elem_of_app. right.
           apply list_elem_of_fmap. by exists (AllElement a).
Qed.

(** A reaction is registered with a pending promise. *)
Lemma heap_inv_subscribe fs (X : nat -> Prop) L loaded ps ms p k pr r :
  heap_inv fs X L loaded ps ms ->
  L !! p = Some k -> ps !! p = Some pr -> status pr = None ->
  reaction_ok fs L loaded k r ->
  (∀ a, ¬ X a -> rweight a r = 0) ->
  heap_inv fs X L loaded
    (<[p := {| status := None; reactions := reactions pr ++ [r];
               remaining := remaining pr |}]> ps)
    ms.
Proof.
  intros (Hps & Hms & Hc) HL Hp Hs Hr Hw.
  destruct (Forall2_lookup_lr _ _ _ _ _ _ Hps HL Hp) as [Hst Hrs].
  assert (∀ a pr0, <[p := {| status := None; reactions := reactions pr ++ [r];
                             remaining := remaining pr |}]> ps !! a = Some pr0 ->
            ∃ pr1, ps !! a = Some pr1 ∧ status pr1 = status pr0
                   ∧ remaining pr1 = remaining pr0
                   ∧ ∀ x, x ∈ reactions pr1 -> x ∈ reactions pr0) as Hsame.
  { intros a pr0 Hl. destruct (decide (a = p)) as [->|Hne].
    - rewrite list_lookup_insert_eq in Hl by (by eapply lookup_lt_Some).
      injection Hl as <-. exists pr. split_and!; [done..|].
      intros x Hx. simpl. apply elem_of_app. by left.
    - rewrite list_lookup_insert_ne in Hl by done. by exists pr0. }
  split_and!; [|done|].
  - rewrite <-(list_insert_id L p k) at 2 by done.
    apply Forall2_insert; [done|]. split; [done|].
    simpl. apply Forall_app. split; [done|]. by constructor.
  - intros a Ha. destruct (Hc a Ha) as [Hcount Hcover]. split.
    + intros deps pr0 HLa Hl Hs0.
      destruct (Hsame a pr0 Hl) as (pr1 & Hl1 & Hs1 & Hr1 & _).
      rewrite <-Hr1, (Hcount deps pr1 HLa Hl1) by congruence.
      pose proof (attached_insert a ps p pr
                    {| status := None; reactions := reactions pr ++ [r];
                       remaining := remaining pr |} Hp) as Hatt.
      simpl in Hatt. rewrite sum_list_with_app in Hatt. simpl in Hatt.
      rewrite (Hw a Ha) in Hatt. lia.
    + intros deps pr0 HLa Hl Hs0.
      destruct (Hsame a pr0 Hl) as (pr1 & Hl1 & Hs1 & _).
      destruct (Hcover deps pr1 HLa Hl1) as [?|Hall]; [congruence|by left|].
      right. intros d Hd. destruct (Hall d Hd) as [?|(q & pr' & H1 & H2 & H3)]; [by left|].
      right. destruct (decide (q = p)) as [->|Hqp].
      * eexists p, _. rewrite list_lookup_insert_eq by (by eapply lookup_lt_Some).
        split_and!; [done..|]. simpl. rewrite Hp in H1. injection H1 as <-.
        apply elem_of_app. by left.
      * exists q, pr'. by rewrite list_lookup_insert_ne.
Qed.

(** A job that is not the delivery of an element of a [Promise.all] is
    put into the queue, or taken from it. *)
Lemma heap_inv_enqueue fs (X : nat -> Prop) L loaded ps ms m :
  heap_inv fs X L loaded ps ms ->
  microtask_ok fs L loaded m ->
  (∀ a, ¬ X a -> mweight a m = 0) ->
  heap_inv fs X L loaded ps (ms ++ [m]).
Proof.
  intros (Hps & Hms & Hc) Hm Hw. split_and!; [done| |].
  - apply Forall_app. split; [done|]. by constructor.
  - intros a Ha. destruct (Hc a Ha) as [Hcount Hcover]. split.
    + intros deps pr HL Hp Hs. rewrite (Hcount deps pr HL Hp Hs).
      unfold queued. rewrite sum_list_with_app. simpl. rewrite (Hw a Ha). lia.
    + intros deps pr HL Hp Hs. destruct (Hcover deps pr HL Hp Hs) as [[e He]|?]; [|by right].
      left. exists e. apply elem_of_app. by left.
Qed.

Lemma heap_inv_pop fs (X : nat -> Prop) L loaded ps ms m :
  heap_inv fs X L loaded ps (m :: ms) ->
  (∀ a, ¬ X a -> mweight a m = 0) ->
  heap_inv fs X L loaded ps ms ∧ microtask_ok fs L loaded m.
Proof.
  intros (Hps & Hms & Hc) Hw. apply Forall_cons in Hms as [Hm Hms].
  split; [|done]. split_and!; [done..|].
  intros a Ha. destruct (Hc a Ha) as [Hcount Hcover]. split.
  - intros deps pr HL Hp Hs. rewrite (Hcount deps pr HL Hp Hs).
    unfold queued. simpl. rewrite (Hw a Ha). lia.
  - intros deps pr HL Hp Hs. destruct (Hcover deps pr HL Hp Hs) as [[e He]|?]; [|by right].
    left. exists e. apply elem_of_cons in He as [<-|He]; [|done].
    specialize (Hw a Ha). simpl in Hw. by rewrite decide_True in Hw.
Qed.


(** The count of a settled promise is not constrained. *)
Lemma heap_inv_unexempt fs (X : nat -> Prop) L loaded ps ms :
  (∀ a, X a ∨ ¬ X a) ->
  heap_inv fs X L loaded ps ms ->
  (∀ a pr, X a -> ps !! a = Some pr -> status pr = None ->
     count_ok L ps ms a ∧ cover_ok L loaded ps ms a) ->
  heap_inv fs (λ _, False) L loaded ps ms.
Proof.
  intros Hdec (Hps & Hms & Hc) HX. split_and!; [done..|]. intros a _.
  destruct (Hdec a) as [Ha|Ha]; [|by apply Hc].
  split; intros deps pr HL Hp Hs; by eapply (HX a pr Ha Hp Hs).
Qed.

(** The counter of an exempt promise is set. *)
Lemma heap_inv_remaining fs (X : nat -> Prop) L loaded ps ms a pr n :
  heap_inv fs X L loaded ps ms -> ps !! a = Some pr -> X a ->
  heap_inv fs X L loaded
    (<[a := {| status := status pr; reactions := reactions pr; remaining := n |}]> ps)
    ms.
Proof.
  intros (Hps & Hms & Hc) Hp HXa.
  destruct (Forall2_lookup_r _ _ _ _ _ Hps Hp) as (k & HL & Hst & Hrs).
  split_and!; [|done|].
  - rewrite <-(list_insert_id L a k) at 2 by done. apply Forall2_insert; [done|]. by split.
  - intros a' Ha'. assert (a' ≠ a) as Hne by (by intros ->).
    destruct (Hc a' Ha') as [Hcount Hcover]. split.
    + intros deps pr0 HLa Hl Hs0. rewrite list_lookup_insert_ne in Hl by done.
      rewrite (Hcount deps pr0 HLa Hl Hs0).
      pose proof (attached_insert a' ps a pr
                    {| status := status pr; reactions := reactions pr;
                       remaining := n |} Hp) as Hatt.
      simpl in Hatt. lia.
    + intros deps pr0 HLa Hl Hs0. rewrite list_lookup_insert_ne in Hl by done.
      destruct (Hcover deps pr0 HLa Hl Hs0) as [?|Hall]; [by left|]. right.
      intros d Hd. destruct (Hall d Hd) as [?|(q & pr' & H1 & H2 & H3)]; [by left|].
      right. destruct (decide (q = a)) as [->|Hqa].
      * eexists a, _. rewrite list_lookup_insert_eq by (by eapply lookup_lt_Some).
        split_and!; [done..|]. simpl. rewrite Hp in H1. by injection H1 as <-.
      * exists q, pr'. by rewrite list_lookup_insert_ne.
Qed.

(** One element of a [Promise.all] is delivered as fulfilled: when it was
    the last one, all the dependencies are loaded. *)
Lemma heap_inv_element fs L loaded ps rest a pr :
  heap_inv fs (λ _, False) L loaded ps (React (AllElement a) Fulfilled :: rest) ->
  ps !! a = Some pr ->
  heap_inv fs (λ a', a' = a) L loaded
    (<[a := {| status := status pr; reactions := reactions pr;
               remaining := pred (remaining pr) |}]> ps) rest
  ∧ (status pr = None ->
     if decide (remaining pr ≤ 1)%nat
     then ∀ deps, L !! a = Some (KAll deps) -> ∀ d, d ∈ deps -> d ∈ loaded
     else count_ok L (<[a := {| status := status pr; reactions := reactions pr;
                                remaining := pred (remaining pr) |}]> ps) rest a
          ∧ cover_ok L loaded
              (<[a := {| status := status pr; reactions := reactions pr;
                         remaining := pred (remaining pr) |}]> ps) rest a).
Proof.
  intros Hinv Hp. split.
  - apply heap_inv_remaining; [|done..].
    eapply (heap_inv_pop fs (λ a', a' = a)).
    + eapply heap_inv_exempt; [|exact Hinv]. done.
    + intros a' Ha'. simpl. by rewrite decide_False by done.
  - intros Hs. destruct Hinv as (Hps & Hms & Hc).
    destruct (Hc a) as [Hcount Hcover]; [tauto|].
    pose proof (attached_insert a ps a pr
                  {| status := status pr; reactions := reactions pr;
                     remaining := pred (remaining pr) |} Hp) as Hatt.
    simpl in Hatt.
    assert (∀ deps, L !! a = Some (KAll deps) ->
              remaining pr = attached a ps + S (queued a rest)) as Hrem.
    { intros deps HL. rewrite (Hcount deps pr HL Hp Hs). unfold queued. simpl.
      rewrite decide_True by done. lia. }
    case_decide as Hle.
    + intros deps HL d Hd. specialize (Hrem deps HL).
      destruct (Hcover deps pr HL Hp Hs) as [[e He]|Hall].
      * apply elem_of_cons in He as [?|He]; [done|].
        assert (queued a rest ≠ 0); [|lia]. apply queued_pos. by exists (Rejected e).
      * destruct (Hall d Hd) as [?|(q & pr' & H1 & H2 & H3)]; [done|].
        assert (attached a ps ≠ 0); [|lia]. apply attached_pos. by exists q, pr'.
    + split.
      * intros deps pr0 HL Hl _.
        rewrite list_lookup_insert_eq in Hl by (by eapply lookup_lt_Some).
        injection Hl as <-. simpl. specialize (Hrem deps HL). lia.
      * intros deps pr0 HL Hl _.
        destruct (Hcover deps pr HL Hp Hs) as [[e He]|Hall].
        -- left. exists e. by apply elem_of_cons in He as [?|He].
        -- right. intros d Hd.
           destruct (Hall d Hd) as [?|(q & pr' & H1 & H2 & H3)]; [by left|].
           right. destruct (decide (q = a)) as [->|Hqa].
           ++ eexists a, _. rewrite list_lookup_insert_eq by (by eapply lookup_lt_Some).
              split_and!; [done..|]. simpl. rewrite Hp in H1. by injection H1 as <-.
           ++ exists q, pr'. by rewrite list_lookup_insert_ne.
Qed.

(** The events the order is about: a setup starts, a fixture is marked
    loaded. *)
Definition ordered_event (ev : Event) : option string :=
  match ev with
  | SetupStart f | Loaded f => Some f
  | _ => None
  end.

(** Each such event of a fixture comes after [Loaded d] for every
    dependency [d] the fixture declares. *)
Definition log_ok (fs : gmap string FixtureConfig) (events : list Event) : Prop :=
  ∀ l1 l2 ev f, events = l1 ++ ev :: l2 -> ordered_event ev = Some f ->
    ∃ fx, fs !! f = Some fx
          ∧ ∀ d, d ∈ default [] (dependencies fx) -> Loaded d ∈ l1.

(** The invariant of the manager: [L] gives the kind of each promise,
    [loaded] the fixtures that were marked loaded at some time. *)
Record inv (X : nat -> Prop) (L : list Kind) (loaded : gset string) (st : State)
  : Prop := {
  inv_heap : heap_inv (fixtures st) X L loaded (promises st) (microtasks st);
  inv_loaded : ∀ d, d ∈ loadedFixtures st -> d ∈ loaded;
  inv_marked : ∀ d, d ∈ loaded -> Loaded d ∈ log st;
  inv_setupPromises : ∀ d p, setupPromises st !! d = Some p -> L !! p = Some (KSetup d);
  inv_setupCalls : ∀ d q, (d, q) ∈ setupCalls st -> L !! q = Some (KCallback d);
  inv_log : log_ok (fixtures st) (log st)
}.

Lemma log_ok_snoc fs events ev :
  log_ok fs events ->
  (∀ f, ordered_event ev = Some f ->
     ∃ fx, fs !! f = Some fx
           ∧ ∀ d, d ∈ default [] (dependencies fx) -> Loaded d ∈ events) ->
  log_ok fs (events ++ [ev]).
Proof.
  intros Hok Hev l1 l2 ev' f Heq Hf.
  destruct l2 as [|x l2 _] using rev_ind.
  - apply app_inj_tail in Heq as [-> ->]. auto.
  - change (ev' :: l2 ++ [x]) with ((ev' :: l2) ++ [x]) in Heq.
    rewrite (assoc_L (++)) in Heq. apply app_inj_tail in Heq as [-> _].
    by eapply Hok.
Qed.

Lemma log_ok_app fs events more :
  log_ok fs events -> Forall (λ ev, ordered_event ev = None) more ->
  log_ok fs (events ++ more).
Proof.
  intros Hok. induction more as [|x more IH] using rev_ind; intros Hmore.
  - by rewrite (right_id_L [] (++)).
  - apply Forall_app in Hmore as [Hmore Hx]. rewrite Forall_singleton in Hx.
    rewrite (assoc_L (++)). apply log_ok_snoc; [auto|]. intros f Hf. congruence.
Qed.

Lemma log_ok_registry fs fs' events : fs ⊆ fs' -> log_ok fs events -> log_ok fs' events.
Proof.
  intros Hfs Hok l1 l2 ev f Heq Hf. destruct (Hok l1 l2 ev f Heq Hf) as (fx & Hfx & H).
  exists fx. split; [by eapply lookup_weaken|done].
Qed.

(** Only the promises and the queue change. *)
Lemma inv_heap_only X X' L L' loaded st st' :
  inv X L loaded st -> heap_only st st' -> grows L L' ->
  heap_inv (fixtures st) X' L' loaded (promises st') (microtasks st') ->
  inv X' L' loaded st'.
Proof.
  intros [Hh Hl Hm Hsp Hsc Hlog] (Hf & Hlf & Hs & Hc & Hlg) HL Hheap.
  split; rewrite ?Hf, ?Hlf, ?Hs, ?Hc, ?Hlg; auto.
Qed.

Lemma inv_exempt (X X' : nat -> Prop) L loaded st :
  (∀ a, X a -> X' a) -> inv X L loaded st -> inv X' L loaded st.
Proof.
  intros HX Hinv. eapply inv_heap_only; [done|apply heap_only_refl|apply grows_refl|].
  eapply heap_inv_exempt; [done|]. by destruct Hinv.
Qed.

Lemma inv_new_promise (X : nat -> Prop) L loaded st k c :
  inv X L loaded st ->
  (∀ deps, k = KAll deps -> X (length (promises st))) ->
  inv X (L ++ [k]) loaded (with_promises (λ ps, ps ++ [pending c]) st)
  ∧ (L ++ [k]) !! length (promises st) = Some k.
Proof.
  intros Hinv Hk.
  destruct (heap_inv_new (fixtures st) X L loaded (promises st) (microtasks st) k c Hk)
    as [Hheap Hlast]; [by destruct Hinv|].
  split; [|done].
  eapply inv_heap_only; [done|by repeat split|apply grows_app|done].
Qed.

Lemma inv_settle X L loaded st p k o :
  inv X L loaded st -> L !! p = Some k -> outcome_ok loaded k o ->
  inv X L loaded (settle p o st).
Proof.
  intros Hinv HL Ho. unfold settle.
  destruct (promises st !! p) as [pr|] eqn:Hp; [|done].
  destruct (status pr) eqn:Hs; [done|].
  eapply inv_heap_only; [done|by repeat split|apply grows_refl|]. simpl.
  eapply heap_inv_settle; [by destruct Hinv|done..].
Qed.

Lemma inv_enqueue (X : nat -> Prop) L loaded st m :
  inv X L loaded st -> microtask_ok (fixtures st) L loaded m ->
  (∀ a, ¬ X a -> mweight a m = 0) ->
  inv X L loaded (enqueue m st).
Proof.
  intros Hinv Hm Hw.
  eapply inv_heap_only; [done|by repeat split|apply grows_refl|]. simpl.
  apply heap_inv_enqueue; [by destruct Hinv|done..].
Qed.

Lemma inv_subscribe (X : nat -> Prop) L loaded st p k r :
  inv X L loaded st -> L !! p = Some k ->
  reaction_ok (fixtures st) L loaded k r ->
  (∀ a, ¬ X a -> rweight a r = 0) ->
  inv X L loaded (subscribe p r st).
Proof.
  intros Hinv HL Hr Hw. unfold subscribe.
  destruct (promises st !! p) as [pr|] eqn:Hp; [|done].
  destruct (status pr) as [o|] eqn:Hs.
  - apply inv_enqueue; [done| |done]. exists k. split; [done|].
    destruct Hinv as [(Hps & _) _ _ _ _ _].
    destruct (Forall2_lookup_lr _ _ _ _ _ _ Hps HL Hp) as [Hst _]. auto.
  - eapply inv_heap_only; [done|by repeat split|apply grows_refl|]. simpl.
    eapply heap_inv_subscribe; [by destruct Hinv|done..].
Qed.

(** An event the order is not about. *)
Lemma inv_emit X L loaded st ev :
  inv X L loaded st -> ordered_event ev = None -> inv X L loaded (emit ev st).
Proof.
  intros [Hh Hl Hm Hsp Hsc Hlog] Hev. split; simpl; auto.
  - intros d Hd. apply elem_of_app. left. auto.
  - apply log_ok_snoc; [done|]. intros f Hf. congruence.
Qed.

(** A setup starts. *)
Lemma inv_emit_SetupStart X L loaded st f :
  inv X L loaded st -> dependencies_in (fixtures st) loaded f ->
  inv X L loaded (emit (SetupStart f) st).
Proof.
  intros [Hh Hl Hm Hsp Hsc Hlog] (fx & Hfx & Hdeps). split; simpl; auto.
  - intros d Hd. apply elem_of_app. left. auto.
  - apply log_ok_snoc; [done|]. intros f' [= <-]. exists fx. auto.
Qed.

(** [loadedFixtures.add]. *)
Lemma inv_mark_loaded X L loaded st f :
  inv X L loaded st -> dependencies_in (fixtures st) loaded f ->
  inv X L ({[f]} ∪ loaded)
    (emit (Loaded f) (with_loadedFixtures (λ s, {[f]} ∪ s) st)).
Proof.
  intros [Hh Hl Hm Hsp Hsc Hlog] (fx & Hfx & Hdeps). split; simpl; auto.
  - eapply heap_inv_loaded; [done| |done]. set_solver.
  - intros d [->%elem_of_singleton|Hd]%elem_of_union; set_solver.
  - intros d [->%elem_of_singleton|Hd]%elem_of_union; apply elem_of_app.
    + right. by left.
    + left. auto.
  - apply log_ok_snoc; [done|]. intros f' [= <-]. exists fx. auto.
Qed.

Lemma inv_setupPromises_insert X L loaded st f p :
  inv X L loaded st -> L !! p = Some (KSetup f) ->
  inv X L loaded (with_setupPromises (<[f := p]>) st).
Proof.
  intros [Hh Hl Hm Hsp Hsc Hlog] HL. split; simpl; auto.
  intros d q [[<- <-]|[_ Hq]]%lookup_insert_Some; auto.
Qed.

Lemma inv_setupPromises_delete X L loaded st f :
  inv X L loaded st -> inv X L loaded (with_setupPromises (delete f) st).
Proof.
  intros [Hh Hl Hm Hsp Hsc Hlog]. split; simpl; auto.
  intros d q [_ Hq]%lookup_delete_Some. auto.
Qed.

Lemma inv_setupCalls_add X L loaded st f q :
  inv X L loaded st -> L !! q = Some (KCallback f) ->
  inv X L loaded (with_setupCalls (λ calls, calls ++ [(f, q)]) st).
Proof.
  intros [Hh Hl Hm Hsp Hsc Hlog] HL. split; simpl; auto.
  intros d q' [Hin|Hin%list_elem_of_singleton]%elem_of_app; [auto|].
  by injection Hin as -> ->.
Qed.

(** An invariant for some kinds and some set of marked fixtures that
    extend the given ones. *)
Definition inv_from (L : list Kind) (loaded : gset string) (st : State)
    (P : list Kind -> Prop) : Prop :=
  ∃ L' loaded', grows L L' ∧ loaded ⊆ loaded'
                ∧ inv (λ _, False) L' loaded' st ∧ P L'.

(** The end of the setup arrow. *)
Lemma inv_finish_setup X L loaded st f sp :
  inv X L loaded st -> dependencies_in (fixtures st) loaded f ->
  L !! sp = Some (KSetup f) ->
  inv X L ({[f]} ∪ loaded) (finish_setup f sp st).
Proof.
  intros Hinv Hdeps HL. unfold finish_setup.
  eapply inv_settle; [|done|simpl; set_solver].
  apply inv_setupPromises_delete. by apply inv_mark_loaded.
Qed.

(** The setup callback is invoked. *)
Lemma inv_invoke_setup (X : nat -> Prop) L loaded st f behaviour q st' :
  inv X L loaded st -> dependencies_in (fixtures st) loaded f ->
  invoke_setup f behaviour st = (q, st') ->
  inv X (L ++ [KCallback f]) loaded st'
  ∧ (L ++ [KCallback f]) !! q = Some (KCallback f)
  ∧ fixtures st' = fixtures st.
Proof.
  intros Hinv Hdeps Hcall. unfold invoke_setup, new_promise in Hcall.
  destruct (inv_new_promise X L loaded (emit (SetupStart f) st) (KCallback f) 0)
    as [Hnew Hq]; [by apply inv_emit_SetupStart|done|].
  simpl in Hq.
  pose proof (inv_setupCalls_add _ _ _ _ f (length (promises st)) Hnew Hq) as Hcalls.
  destruct behaviour as [|msg|]; injection Hcall as <- <-.
  - split_and!; [|done|by rewrite (proj1 (settle_heap_only _ _ _))].
    eapply inv_settle; [|done..]. by apply inv_emit.
  - split_and!; [|done|by rewrite (proj1 (settle_heap_only _ _ _))].
    eapply inv_settle; [|done..]. done.
  - split_and!; done.
Qed.

(** [load] from the setup arrow to [await setupPromise]. *)
Lemma inv_run_setup L loaded st f fx result :
  inv (λ _, False) L loaded st ->
  fixtures st !! f = Some fx ->
  (∀ d, d ∈ default [] (dependencies fx) -> d ∈ loaded) ->
  L !! result = Some (KResult f) ->
  inv_from L loaded (run_setup f fx result st) (λ _, True).
Proof.
  intros Hinv Hfx Hdeps Hres.
  assert (dependencies_in (fixtures st) loaded f) as Hin by (by exists fx).
  unfold run_setup, new_promise.
  destruct (inv_new_promise _ L loaded st (KSetup f) 0 Hinv) as [Hnew Hsp]; [done|].
  set (sp := length (promises st)) in *.
  set (st1 := with_promises (λ ps, ps ++ [pending 0]) st) in *.
  destruct (setup fx) as [behaviour|].
  - destruct (invoke_setup f behaviour st1) as [q st2] eqn:Hcall.
    destruct (inv_invoke_setup _ _ _ _ _ _ _ _ Hnew Hin Hcall) as (H2 & Hq & Hf2).
    exists ((L ++ [KSetup f]) ++ [KCallback f]), loaded.
    split_and!; [|done| |done].
    { eapply grows_trans; apply grows_app. }
    eapply inv_subscribe; [| |simpl; split; [done|]|done].
    + apply inv_setupPromises_insert; [|by apply grows_app].
      eapply inv_subscribe; [done|done| |done].
      simpl. split_and!; [done|by apply grows_app|].
      exists fx. split; [|done]. by rewrite Hf2.
    + by apply grows_app.
    + by apply grows_app, grows_app.
  - exists (L ++ [KSetup f]), ({[f]} ∪ loaded).
    split_and!; [apply grows_app|set_solver| |done].
    eapply inv_subscribe; [| |simpl; split; [done|]|done].
    + apply inv_setupPromises_insert; [|done].
      by apply inv_finish_setup.
    + done.
    + by apply grows_app.
Qed.

(** *** [Promise.all] *)

Lemma rejected_dec (a : nat) (ms : list Microtask) :
  (∃ e, React (AllElement a) (Rejected e) ∈ ms)
  ∨ ¬ ∃ e, React (AllElement a) (Rejected e) ∈ ms.
Proof.
  induction ms as [|m ms [[e He]|IH]].
  - right. by intros [e ?%elem_of_nil].
  - left. exists e. by right.
  - destruct m as [[| | |a'|] [|e]|];
      try (right; intros [e' [[=]|?]%elem_of_cons]; apply IH; by exists e').
    destruct (decide (a' = a)) as [->|Hne].
    + left. exists e. by left.
    + right. intros [e' [[=]|?]%elem_of_cons]; [done|]. apply IH. by exists e'.
Qed.

(** No reaction refers to a promise that does not exist yet. *)
Lemma heap_inv_fresh fs X L loaded ps ms a :
  heap_inv fs X L loaded ps ms -> L !! a = None ->
  attached a ps = 0 ∧ queued a ms = 0.
Proof.
  intros (Hps & Hms & _) HL. split.
  - destruct (decide (attached a ps = 0)) as [|Hne]; [done|].
    apply attached_pos in Hne as (p & pr & Hp & Hin).
    destruct (Forall2_lookup_r _ _ _ _ _ Hps Hp) as (k & _ & _ & Hrs).
    rewrite Forall_forall in Hrs. destruct (Hrs _ Hin) as (d & deps & _ & Ha).
    congruence.
  - destruct (decide (queued a ms = 0)) as [|Hne]; [done|].
    apply queued_pos in Hne as (o & Hin).
    rewrite Forall_forall in Hms. destruct (Hms _ Hin) as (k & (d & deps & _ & Ha) & _).
    congruence.
Qed.

(** The load of [d] is accounted for in [Promise.all] number [a]. *)
Definition covered (L : list Kind) (loaded : gset string) (a : nat) (st : State)
    (d : string) : Prop :=
  d ∈ loaded
  ∨ (∃ e, React (AllElement a) (Rejected e) ∈ microtasks st)
  ∨ ∃ p pr, promises st !! p = Some pr ∧ L !! p = Some (KResult d)
            ∧ AllElement a ∈ reactions pr.

Lemma inv_lookup X L loaded st p k :
  inv X L loaded st -> L !! p = Some k ->
  ∃ pr, promises st !! p = Some pr ∧ promise_ok (fixtures st) L loaded k pr.
Proof.
  intros [(Hps & _) _ _ _ _ _] HL.
  destruct (Forall2_lookup_l _ _ _ _ _ Hps HL) as (pr & Hp & Hok). by exists pr.
Qed.

(** [Promise.all] subscribes to one element. *)
Lemma subscribe_element L loaded a deps st p d :
  inv (λ a', a' = a) L loaded st ->
  L !! a = Some (KAll deps) -> L !! p = Some (KResult d) ->
  inv (λ a', a' = a) L loaded (subscribe p (AllElement a) st)
  ∧ attached a (promises (subscribe p (AllElement a) st))
    + queued a (microtasks (subscribe p (AllElement a) st))
    = S (attached a (promises st) + queued a (microtasks st))
  ∧ promises (subscribe p (AllElement a) st) !! a = promises st !! a
  ∧ covered L loaded a (subscribe p (AllElement a) st) d
  ∧ ∀ d', covered L loaded a st d' ->
          covered L loaded a (subscribe p (AllElement a) st) d'.
Proof.
  intros Hinv Ha HL.
  assert (p ≠ a) as Hne by (intros ->; congruence).
  assert (reaction_ok (fixtures st) L loaded (KResult d) (AllElement a)) as Hr.
  { simpl. by exists d, deps. }
  assert (∀ a', a' ≠ a -> rweight a' (AllElement a) = 0) as Hw.
  { intros a' Ha'. simpl. by rewrite decide_False by done. }
  pose proof (inv_subscribe _ _ _ _ _ _ _ Hinv HL Hr Hw) as Hinv'.
  split; [done|]. clear Hinv'.
  destruct (inv_lookup _ _ _ _ _ _ Hinv HL) as (pr & Hp & Hst & Hrs).
  unfold covered, subscribe. rewrite Hp. destruct (status pr) as [o|] eqn:Hs.
  - split_and!.
    + simpl. unfold queued. rewrite sum_list_with_app. simpl.
      rewrite decide_True by done. lia.
    + done.
    + destruct o as [|e].
      * left. by apply (Hst Fulfilled).
      * right. left. exists e. simpl. apply elem_of_app. right. by left.
    + intros d' [?|[[e He]|Hatt]]; [by left| |by right; right].
      right. left. exists e. simpl. apply elem_of_app. by left.
  - simpl. split_and!.
    + pose proof (attached_insert a (promises st) p pr
                    {| status := None; reactions := reactions pr ++ [AllElement a];
                       remaining := remaining pr |} Hp) as Hatt.
      simpl in Hatt. rewrite sum_list_with_app in Hatt. simpl in Hatt.
      rewrite decide_True in Hatt by done. lia.
    + by rewrite list_lookup_insert_ne.
    + right. right. eexists p, _.
      rewrite list_lookup_insert_eq by (by eapply lookup_lt_Some).
      split_and!; [done..|]. simpl. apply elem_of_app. right. by left.
    + intros d' [?|[?|(q & pr' & H1 & H2 & H3)]]; [by left|by right; left|].
      right. right. destruct (decide (q = p)) as [->|Hqp].
      * eexists p, _. rewrite list_lookup_insert_eq by (by eapply lookup_lt_Some).
        split_and!; [done..|]. simpl. rewrite Hp in H1. injection H1 as <-.
        apply elem_of_app. by left.
      * exists q, pr'. by rewrite list_lookup_insert_ne.
Qed.

(** [Promise.all] subscribes to all its elements. *)
Lemma subscribe_elements L loaded a deps :
  ∀ ps ds st,
    inv (λ a', a' = a) L loaded st ->
    L !! a = Some (KAll deps) ->
    Forall2 (λ d p, L !! p = Some (KResult d)) ds ps ->
    inv (λ a', a' = a) L loaded (foldl (λ st p, subscribe p (AllElement a) st) st ps)
    ∧ attached a (promises (foldl (λ st p, subscribe p (AllElement a) st) st ps))
      + queued a (microtasks (foldl (λ st p, subscribe p (AllElement a) st) st ps))
      = attached a (promises st) + queued a (microtasks st) + length ps
    ∧ promises (foldl (λ st p, subscribe p (AllElement a) st) st ps) !! a
      = promises st !! a
    ∧ (∀ d, d ∈ ds ->
         covered L loaded a (foldl (λ st p, subscribe p (AllElement a) st) st ps) d)
    ∧ ∀ d, covered L loaded a st d ->
           covered L loaded a (foldl (λ st p, subscribe p (AllElement a) st) st ps) d.
Proof.
  induction ps as [|p ps IH]; intros ds st Hinv Ha Hall.
  - apply Forall2_nil_inv_r in Hall as ->. simpl.
    split_and!; [done|lia|done| |done]. by intros d ?%elem_of_nil.
  - apply Forall2_cons_inv_r in Hall as (d & ds' & Hd & Hall & ->).
    destruct (subscribe_element _ _ _ _ _ _ _ Hinv Ha Hd)
      as (Hinv1 & Hcount1 & Hsame1 & Hcov1 & Hmono1).
    destruct (IH ds' _ Hinv1 Ha Hall) as (Hinv2 & Hcount2 & Hsame2 & Hcov2 & Hmono2).
    simpl. split_and!; [done| |congruence| |auto].
    + rewrite Hcount2, Hcount1. lia.
    + intros d' [->|Hd']%elem_of_cons; auto.
Qed.

(** A settled promise stays as it is. *)
Lemma settle_settled p o st pr :
  promises (settle p o st) !! p = Some pr -> status pr ≠ None.
Proof.
  unfold settle. destruct (promises st !! p) as [pr0|] eqn:Hp; [|congruence].
  destruct (status pr0) eqn:Hs; [congruence|]. simpl.
  rewrite list_lookup_insert_eq by (by eapply lookup_lt_Some). by intros [= <-].
Qed.

Lemma settle_id p o st pr :
  promises st !! p = Some pr -> status pr ≠ None -> settle p o st = st.
Proof. intros Hp Hs. unfold settle. rewrite Hp. by destruct (status pr). Qed.

Lemma inv_unexempt a L loaded st :
  inv (λ a', a' = a) L loaded st ->
  (∀ pr, promises st !! a = Some pr -> status pr = None ->
     count_ok L (promises st) (microtasks st) a
     ∧ cover_ok L loaded (promises st) (microtasks st) a) ->
  inv (λ _, False) L loaded st.
Proof.
  intros Hinv Ha.
  eapply inv_heap_only; [done|apply heap_only_refl|apply grows_refl|].
  eapply (heap_inv_unexempt _ (λ a', a' = a)); [|by destruct Hinv|].
  - intros a'. destruct (decide (a' = a)); auto.
  - intros a' pr ->. apply Ha.
Qed.

Lemma inv_promise_all L loaded st deps ps :
  inv (λ _, False) L loaded st ->
  Forall2 (λ d p, L !! p = Some (KResult d)) deps ps ->
  inv (λ _, False) (L ++ [KAll deps]) loaded (promise_all ps st).2
  ∧ (L ++ [KAll deps]) !! (promise_all ps st).1 = Some (KAll deps).
Proof.
  intros Hinv Hall. unfold promise_all, new_promise.
  set (a := length (promises st)).
  assert (L !! a = None) as Hfresh.
  { apply lookup_ge_None. destruct Hinv as [(Hps & _) _ _ _ _ _].
    rewrite (Forall2_length _ _ _ Hps). done. }
  destruct (heap_inv_fresh _ _ _ _ _ _ a (inv_heap _ _ _ _ Hinv) Hfresh) as [Hatt Hq].
  destruct (inv_new_promise (λ a', a' = a) L loaded st (KAll deps) (length ps))
    as [Hnew Ha]; [by eapply inv_exempt; [|exact Hinv]|done|].
  fold a in Ha.
  set (st1 := with_promises (λ ps0, ps0 ++ [pending (length ps)]) st) in *.
  assert (promises st1 !! a = Some (pending (length ps))) as Hpa.
  { simpl. by apply lookup_end0. }
  assert (Forall2 (λ d p0, (L ++ [KAll deps]) !! p0 = Some (KResult d)) deps ps)
    as Hall'.
  { eapply Forall2_impl; [exact Hall|]. intros d p0. apply grows_app. }
  destruct (subscribe_elements _ _ _ _ ps deps st1 Hnew Ha Hall')
    as (Hinv2 & Hcount & Hsame & Hcov & _).
  remember (foldl (λ st0 p0, subscribe p0 (AllElement a) st0) st1 ps) as st2 eqn:Hst2.
  assert (attached a (promises st1) + queued a (microtasks st1) = 0) as Hzero.
  { simpl. unfold attached in *. rewrite sum_list_with_app. simpl. lia. }
  clearbody st1.
  destruct ps as [|p ps']; cbn [fst snd]; (split; [|done]).
  - apply Forall2_nil_inv_r in Hall as ->.
    apply (inv_unexempt a).
    + eapply inv_settle; [done..|]. simpl. by intros d ?%elem_of_nil.
    + intros pr Hpr Hs. by destruct (settle_settled _ _ _ _ Hpr).
  - apply (inv_unexempt a); [done|]. intros pr Hpr Hs.
    rewrite Hsame, Hpa in Hpr. injection Hpr as <-. split.
    + intros deps' pr' _ Hpr' _. rewrite Hsame, Hpa in Hpr'. injection Hpr' as <-.
      simpl in *. lia.
    + intros deps' pr' HL' _ _. rewrite Ha in HL'. injection HL' as <-.
      destruct (rejected_dec a (microtasks st2)) as [?|Hno]; [by left|].
      right. intros d Hd. destruct (Hcov d Hd) as [?|[?|?]]; [by left|done|by right].
Qed.

(** *** The calls and the event loop *)

Lemma inv_from_trans L loaded L1 loaded1 st (P : list Kind -> Prop) :
  grows L L1 -> loaded ⊆ loaded1 -> inv_from L1 loaded1 st P -> inv_from L loaded st P.
Proof.
  intros HL Hl (L2 & loaded2 & HL2 & Hl2 & Hinv & HP). exists L2, loaded2.
  split_and!; [by eapply grows_trans|set_solver|done..].
Qed.

Lemma inv_from_here L loaded st (P : list Kind -> Prop) :
  inv (λ _, False) L loaded st -> P L -> inv_from L loaded st P.
Proof. intros Hinv HP. exists L, loaded. split_and!; [apply grows_refl|done..]. Qed.

Lemma inv_load_each (loadf : string -> State -> nat * State) :
  (∀ f st p st' L loaded,
     loadf f st = (p, st') -> inv (λ _, False) L loaded st ->
     fixtures st' = fixtures st
     ∧ inv_from L loaded st' (λ L', L' !! p = Some (KResult f))) ->
  ∀ deps st ps st' L loaded,
    load_each loadf deps st = (ps, st') -> inv (λ _, False) L loaded st ->
    fixtures st' = fixtures st
    ∧ inv_from L loaded st'
        (λ L', Forall2 (λ d p, L' !! p = Some (KResult d)) deps ps).
Proof.
  intros Hf. induction deps as [|dep rest IH]; intros st r st' L loaded Hl Hinv;
    simpl in Hl.
  - injection Hl as <- <-. split; [done|]. apply inv_from_here; [done|]. constructor.
  - destruct (loadf dep st) as [p st1] eqn:Hdep.
    destruct (Hf _ _ _ _ _ _ Hdep Hinv) as (Hf1 & L1 & loaded1 & HL1 & Hl1 & Hinv1 & Hp).
    destruct (load_each loadf rest st1) as [ps st2] eqn:Hrest.
    injection Hl as <- <-.
    destruct (IH _ _ _ _ _ Hrest Hinv1)
      as (Hf2 & L2 & loaded2 & HL2 & Hl2 & Hinv2 & Hps).
    split; [congruence|]. exists L2, loaded2.
    split_and!; [by eapply grows_trans|set_solver|done|].
    constructor; [|done]. by apply HL2.
Qed.

(** The synchronous part of [load] keeps the invariant; the promise it
    returns is that of a load of the fixture. *)
Lemma inv_load depth :
  ∀ f st p st' L loaded,
    load depth f st = (p, st') -> inv (λ _, False) L loaded st ->
    fixtures st' = fixtures st
    ∧ inv_from L loaded st' (λ L', L' !! p = Some (KResult f)).
Proof.
  induction depth as [|depth IH]; intros f st r st' L loaded Hl Hinv.
  all: split; [by destruct (load_sync_frame _ _ _ _ _ Hl)|].
  all: simpl in Hl.
  all: destruct (inv_new_promise _ L loaded st (KResult f) 0 Hinv) as [Hnew Hres];
    [done|].
  all: set (result := length (promises st)) in *.
  all: set (st1 := with_promises (λ ps, ps ++ [pending 0]) st) in *.
  all: (eapply inv_from_trans; [apply (grows_app L [KResult f])|done|]).
  { injection Hl as <- <-. apply inv_from_here; [|done]. by eapply inv_settle. }
  destruct (fixtures st !! f) as [fx|] eqn:Hfx.
  2:{ injection Hl as <- <-. apply inv_from_here; [|done]. by eapply inv_settle. }
  destruct (setupPromises st !! f) as [inflight|] eqn:Hsp.
  { injection Hl as <- <-. apply inv_from_here; [|done].
    apply inv_enqueue; [done| |done]. exists f. split; [|done].
    by apply (inv_setupPromises _ _ _ _ Hnew). }
  case_decide as Hloaded.
  { injection Hl as <- <-. apply inv_from_here; [|done].
    eapply inv_settle; [done..|]. simpl. by apply (inv_loaded _ _ _ _ Hinv). }
  destruct (dependencies fx) as [deps|] eqn:Hdeps.
  - destruct (load_each (load depth) deps st1) as [ps st2] eqn:Heach.
    destruct (inv_load_each _ IH _ _ _ _ _ _ Heach Hnew)
      as (Hf2 & L2 & loaded2 & HL2 & Hl2 & Hinv2 & Hps).
    destruct (inv_promise_all _ _ _ _ _ Hinv2 Hps) as [Hinv3 Hall].
    destruct (promise_all ps st2) as [all st3] eqn:Hpa. simpl in Hinv3, Hall.
    injection Hl as <- <-.
    assert (fixtures st3 = fixtures st) as Hf3.
    { pose proof (promise_all_heap_only ps st2) as (Hf3 & _).
      rewrite Hpa in Hf3. simpl in Hf3. by rewrite Hf3, Hf2. }
    exists (L2 ++ [KAll deps]), loaded2. split_and!.
    + eapply grows_trans; [exact HL2|apply grows_app].
    + done.
    + eapply inv_subscribe; [done|done| |done]. simpl. rewrite Hf3, Hdeps.
      split_and!; [done..|]. by apply grows_app, HL2.
    + by apply grows_app, HL2.
  - injection Hl as <- <-.
    destruct (inv_run_setup (L ++ [KResult f]) loaded st1 f fx result)
      as (L2 & loaded2 & HL2 & Hl2 & Hinv2 & _); [done|done| |done|].
    { rewrite Hdeps. by intros d ?%elem_of_nil. }
    exists L2, loaded2. split_and!; [done..|]. by apply HL2.
Qed.

(** A job is taken from the queue. *)
Lemma inv_pop (X : nat -> Prop) L loaded st m rest :
  inv X L loaded st -> microtasks st = m :: rest ->
  (∀ a, ¬ X a -> mweight a m = 0) ->
  inv X L loaded (with_microtasks (λ _, rest) st)
  ∧ microtask_ok (fixtures st) L loaded m.
Proof.
  intros Hinv Hm Hw.
  destruct (heap_inv_pop (fixtures st) X L loaded (promises st) rest m) as [Hheap Hok];
    [rewrite <-Hm; by destruct Hinv|done|].
  split; [|done].
  eapply inv_heap_only; [done|by repeat split|apply grows_refl|done].
Qed.

Lemma outcome_ok_result loaded d o :
  outcome_ok loaded (KSetup d) o -> outcome_ok loaded (KResult d) o.
Proof. by destruct o. Qed.

(** A job of the microtask queue keeps the invariant. *)
Lemma inv_run_microtask L loaded st m rest :
  inv (λ _, False) L loaded st -> microtasks st = m :: rest ->
  inv_from L loaded (run_microtask m (with_microtasks (λ _, rest) st)) (λ _, True).
Proof.
  intros Hinv Hm.
  set (st0 := with_microtasks (λ _, rest) st).
  destruct m as [[f fx res|f sp|f res|a|t] o|t s].
  - destruct (inv_pop _ _ _ _ _ _ Hinv Hm) as [Hinv0 (k & (Hfx & -> & Hres) & Ho)];
      [done|].
    destruct o as [|e]; simpl.
    + by apply inv_run_setup.
    + apply inv_from_here; [|done]. by eapply inv_settle.
  - destruct (inv_pop _ _ _ _ _ _ Hinv Hm) as [Hinv0 (k & (-> & Hsp & Hdeps) & Ho)];
      [done|].
    destruct o as [|e]; simpl.
    + exists L, ({[f]} ∪ loaded). split_and!; [apply grows_refl|set_solver| |done].
      by apply inv_finish_setup.
    + apply inv_from_here; [|done]. by eapply inv_settle.
  - destruct (inv_pop _ _ _ _ _ _ Hinv Hm) as [Hinv0 (k & (-> & Hres) & Ho)]; [done|].
    simpl. apply inv_from_here; [|done]. eapply inv_settle; [done..|].
    by apply outcome_ok_result.
  - assert (inv (λ a', a' = a) L loaded st) as Hinv' by (by eapply inv_exempt; [|exact Hinv]).
    destruct (inv_pop _ _ _ _ _ _ Hinv' Hm)
      as [Hinv0 (k & (d & deps & -> & Ha) & Ho)].
    { intros a' Ha'. simpl. by rewrite decide_False by done. }
    apply inv_from_here; [|done]. destruct o as [|e]; simpl.
    + unfold element_fulfilled.
      destruct (promises st0 !! a) as [pr|] eqn:Hp.
      2:{ apply (inv_unexempt a); [done|]. intros pr Hpr. congruence. }
      destruct (heap_inv_element (fixtures st) L loaded (promises st) rest a pr)
        as [Hheap Hlast]; [rewrite <-Hm; by destruct Hinv|done|].
      set (st1 := with_promises _ st0).
      assert (inv (λ a', a' = a) L loaded st1) as Hinv1.
      { eapply inv_heap_only; [exact Hinv|by repeat split|apply grows_refl|done]. }
      assert (promises st1 !! a
              = Some {| status := status pr; reactions := reactions pr;
                        remaining := pred (remaining pr) |}) as Hp1.
      { simpl. apply list_lookup_insert_eq. by eapply lookup_lt_Some. }
      destruct (status pr) as [o|] eqn:Hs.
      * assert (inv (λ _, False) L loaded st1) as Hdone.
        { apply (inv_unexempt a); [done|]. intros pr1 Hpr1. rewrite Hp1 in Hpr1.
          by injection Hpr1 as <-. }
        case_decide; [|done]. by erewrite settle_id.
      * specialize (Hlast eq_refl). case_decide.
        -- apply (inv_unexempt a).
           ++ eapply inv_settle; [done..|]. simpl. by apply Hlast.
           ++ intros pr1 Hpr1 Hs1. by destruct (settle_settled _ _ _ _ Hpr1).
        -- apply (inv_unexempt a); [done|]. by intros _ _ _.
    + apply (inv_unexempt a).
      * by eapply inv_settle.
      * intros pr1 Hpr1 Hs1. by destruct (settle_settled _ _ _ _ Hpr1).
  - destruct (inv_pop _ _ _ _ _ _ Hinv Hm) as [Hinv0 (k & (d & -> & Ht) & Ho)]; [done|].
    simpl. apply inv_from_here; [|done]. eapply inv_settle; [done..|].
    by apply outcome_ok_result.
  - destruct (inv_pop _ _ _ _ _ _ Hinv Hm) as [Hinv0 (d & Hs & Ht)]; [done|].
    simpl. apply inv_from_here; [|done]. eapply inv_subscribe; [done..| |done].
    simpl. by exists d.
Qed.

(** The environment settles the promise of a setup callback. *)
Lemma inv_settle_setup L loaded st i o :
  inv (λ _, False) L loaded st -> inv (λ _, False) L loaded (settle_setup i o st).
Proof.
  intros Hinv. unfold settle_setup.
  destruct (setupCalls st !! i) as [[f q]|] eqn:Hi; [|done].
  destruct (is_pending q st); [|done].
  assert (L !! q = Some (KCallback f)) as Hq.
  { apply (inv_setupCalls _ _ _ _ Hinv). by eapply list_elem_of_lookup_2. }
  destruct o as [|e].
  - eapply inv_settle; [|done..]. by apply inv_emit.
  - by eapply inv_settle.
Qed.

(** [unload] writes no event the order is about. *)
Lemma unload_log depth :
  ∀ n st r st', unload depth n st = Some (r, st') ->
    ∃ more, log st' = log st ++ more ∧ Forall (λ ev, ordered_event ev = None) more.
Proof.
  induction depth as [|depth IH]; intros n st r st' Hu; [done|]. simpl in Hu.
  assert (∀ st0, ∃ more, log st0 = log st0 ++ more
                         ∧ Forall (λ ev, ordered_event ev = None) more) as Hrefl.
  { intros st0. exists []. by rewrite (right_id_L [] (++)). }
  destruct (fixtures st !! n) as [fx|]; [|injection Hu as <- <-; apply Hrefl].
  case_decide; [|injection Hu as <- <-; apply Hrefl].
  assert (∀ entries st0 r0 st1,
            unload_dependents (unload depth) n entries st0 = Some (r0, st1) ->
            ∃ more, log st1 = log st0 ++ more
                    ∧ Forall (λ ev, ordered_event ev = None) more) as Hloop.
  { induction entries as [|[g cfg] rest IHe]; intros st0 r0 st1 Hl; simpl in Hl.
    - injection Hl as <- <-. apply Hrefl.
    - case_decide; [|by eapply IHe].
      destruct (unload depth g st0) as [[[[]|err] st2]|] eqn:Hg; try discriminate.
      + destruct (IH _ _ _ _ Hg) as (m1 & H1 & Hm1).
        destruct (IHe _ _ _ Hl) as (m2 & H2 & Hm2).
        exists (m1 ++ m2). split; [|by apply Forall_app].
        by rewrite H2, H1, (assoc_L (++)).
      + injection Hl as <- <-. by eapply IH. }
  destruct (unload_dependents (unload depth) n _ st) as [[[[]|err] st1]|] eqn:Hdeps;
    try discriminate.
  - destruct (Hloop _ _ _ _ Hdeps) as (m1 & H1 & Hm1).
    unfold run_teardown in Hu.
    destruct (teardown fx) as [[|msg]|]; injection Hu as <- <-; simpl; rewrite H1.
    + exists (m1 ++ [TeardownStart n; TeardownEnd n; Unloaded n]).
      split; [by rewrite <-!(assoc_L (++))|].
      apply Forall_app. split; [done|]. by repeat constructor.
    + exists (m1 ++ [TeardownStart n]).
      split; [by rewrite <-!(assoc_L (++))|].
      apply Forall_app. split; [done|]. by repeat constructor.
    + exists (m1 ++ [Unloaded n]).
      split; [by rewrite <-!(assoc_L (++))|].
      apply Forall_app. split; [done|]. by repeat constructor.
  - injection Hu as <- <-. by eapply Hloop.
Qed.

Lemma inv_unload depth n st r st' L loaded :
  unload depth n st = Some (r, st') ->
  inv (λ _, False) L loaded st -> inv (λ _, False) L loaded st'.
Proof.
  intros Hu [Hh Hl Hm Hsp Hsc Hlog].
  destruct (unload_frame _ _ _ _ _ Hu) as (Hf & Hs & Hp & Hq & Hc & Hsub).
  destruct (unload_log _ _ _ _ _ Hu) as (more & Hmore & Hun).
  split; rewrite ?Hf, ?Hs, ?Hp, ?Hq, ?Hc, ?Hmore; auto.
  - intros d Hd. apply elem_of_app. left. auto.
  - by apply log_ok_app.
Qed.

Lemma inv_reset L loaded st :
  inv (λ _, False) L loaded st -> inv (λ _, False) L loaded (reset st).
Proof. intros [Hh Hl Hm Hsp Hsc Hlog]. split; simpl; auto; set_solver. Qed.

Lemma inv_register cfg st r st' L loaded :
  register cfg st = (r, st') ->
  inv (λ _, False) L loaded st -> inv (λ _, False) L loaded st'.
Proof.
  unfold register. intros Hreg Hinv.
  destruct (fixtures st !! name cfg) eqn:Hcfg; injection Hreg as <- <-; [done|].
  destruct Hinv as [Hh Hl Hm Hsp Hsc Hlog].
  assert (fixtures st ⊆ <[name cfg := cfg]> (fixtures st)) as Hsub
    by (by apply insert_subseteq).
  split; simpl; auto.
  - by apply (heap_inv_loaded (fixtures st) _ _ _ loaded loaded).
  - by eapply log_ok_registry.
Qed.

Lemma inv_initial fs : inv (λ _, False) [] ∅ (initial fs).
Proof.
  split; simpl; try done.
  - by intros d q ?%elem_of_nil.
  - intros l1 l2 ev f Heq. by destruct l1.
Qed.

(** Every operation keeps the invariant. *)
Lemma inv_operation st st' L loaded :
  operation st st' -> inv (λ _, False) L loaded st ->
  ∃ L' loaded', inv (λ _, False) L' loaded' st'.
Proof.
  intros [cfg r st1 Hreg| |st1 [depth n r st2 Hl|m rest Hm|i o|depth n r st2 Hu]] Hinv.
  - exists L, loaded. by eapply inv_register.
  - exists L, loaded. by apply inv_reset.
  - destruct (inv_load _ _ _ _ _ _ _ Hl Hinv) as (_ & L' & loaded' & _ & _ & H & _).
    by exists L', loaded'.
  - destruct (inv_run_microtask _ _ _ _ _ Hinv Hm) as (L' & loaded' & _ & _ & H & _).
    by exists L', loaded'.
  - exists L, loaded. by apply inv_settle_setup.
  - exists L, loaded. by eapply inv_unload.
Qed.

Lemma inv_reachable fs st :
  rtc operation (initial fs) st -> ∃ L loaded, inv (λ _, False) L loaded st.
Proof.
  intros Hops. apply rtc_nsteps in Hops as [n Hops].
  revert st Hops. induction n as [|n IH]; intros st Hops.
  - inversion Hops; subst. eexists _, _. apply inv_initial.
  - apply nsteps_inv_r in Hops as (st1 & Hops & Hop).
    destruct (IH _ Hops) as (L & loaded & Hinv). by eapply inv_operation.
Qed.

(** Emptying the microtask queue is a sequence of operations. *)
Lemma drain_operations fuel :
  ∀ st st', drain fuel st = Some st' -> rtc operation st st'.
Proof.
  induction fuel as [|fuel IH]; intros st st' Hd; simpl in Hd;
    destruct (microtasks st) as [|m rest] eqn:Hm; try discriminate.
  - injection Hd as <-. done.
  - injection Hd as <-. done.
  - eapply rtc_l; [|by apply IH]. by apply op_step, step_microtask.
Qed.

(** A fixture is set up after its dependencies. Whatever is done with the
    manager, from the start on (fixtures registered; [load] called, also
    while earlier calls are suspended; jobs of the microtask queue;
    setups ending or failing; [unload] calls; [reset]): when the [setup]
    callback of a fixture is invoked, and when the fixture is added to
    [loadedFixtures], every dependency the fixture declares has been
    added to [loadedFixtures] before, at least once. (The dependency may
    have been unloaded or reset since.) *)
Theorem setup_starts_after_dependencies_are_loaded fs st f fx d before after :
  rtc operation (initial fs) st ->
  fixtures st !! f = Some fx ->
  d ∈ default [] (dependencies fx) ->
  log st = before ++ SetupStart f :: after ∨ log st = before ++ Loaded f :: after ->
  Loaded d ∈ before.
Proof.
  intros Hops Hfx Hd Hlog.
  destruct (inv_reachable _ _ Hops) as (L & loaded & Hinv).
  pose proof (inv_log _ _ _ _ Hinv) as Hok.
  destruct Hlog as [Hlog|Hlog];
    destruct (Hok _ _ _ f Hlog eq_refl) as (fx' & Hfx' & Hall);
    rewrite Hfx in Hfx'; injection Hfx' as <-; auto.
Qed.

Lemma setup_starts_after_dependencies_are_loaded_witness :
  let st := default db_seedData (drain 64 (load 8 "seedData" db_seedData).2) in
  let before := [SetupStart "db"; SetupEnd "db"; Loaded "db"] in
  let after := [SetupEnd "seedData"; Loaded "seedData"] in
  log st = before ++ SetupStart "seedData" :: after ∧ Loaded "db" ∈ before.
Proof.
  intros st before after.
  assert (log st = before ++ SetupStart "seedData" :: after) as Hlog
    by (vm_compute; reflexivity).
  split; [exact Hlog|].
  apply (setup_starts_after_dependencies_are_loaded
           (fixtures db_seedData) st "seedData"
           (fixture "seedData" (Some ["db"]) (Some SetupCompletes)) "db" before after).
  - eapply rtc_l.
    + apply op_step. eapply (step_load _ 8 "seedData"). apply surjective_pairing.
    + apply (drain_operations 64). by vm_compute.
  - by vm_compute.
  - by left.
  - by left.
Defined.

(** *** Loaded fixtures have their dependencies loaded *)

(** What the manager does while fixtures are only loaded: no [unload], no
    [reset]. *)
Inductive loading (st : State) : State -> Prop :=
| loading_register cfg r st' : register cfg st = (r, st') -> loading st st'
| loading_load depth fixtureName r st' :
    load depth fixtureName st = (r, st') -> loading st st'
| loading_microtask m rest :
    microtasks st = m :: rest ->
    loading st (run_microtask m (with_microtasks (λ _, rest) st))
| loading_settle_setup i o : loading st (settle_setup i o st).

(** Every fixture that was marked loaded is loaded. *)
Definition marks (st : State) : Prop :=
  ∀ d, Loaded d ∈ log st -> d ∈ loadedFixtures st.

Lemma loading_operation st st' : loading st st' -> operation st st'.
Proof.
  intros [cfg r st1 Hreg|depth n r st1 Hl|m rest Hm|i o].
  - by eapply op_register.
  - by eapply op_step, step_load.
  - by apply op_step, step_microtask.
  - apply op_step, step_settle_setup.
Qed.

Lemma marks_heap_only st st' : heap_only st st' -> marks st -> marks st'.
Proof. intros (_ & Hl & _ & _ & Hlog) Hm d. rewrite Hl, Hlog. apply Hm. Qed.

Lemma marks_run_setup f fx result st : marks st -> marks (run_setup f fx result st).
Proof.
  intros Hm d. destruct (run_setup_fields f fx result st) as (_ & -> & _ & _ & ->).
  unfold setup_events. intros [Hd|Hd]%elem_of_app.
  - destruct (setup fx); [auto|]. apply elem_of_union. right. auto.
  - destruct (setup fx) as [[| |]|]; rewrite ?elem_of_cons, ?elem_of_nil in Hd;
      try (destruct Hd as [[=]|[[=]|[]]]; fail); try (destruct Hd as [[=]|[]]; fail).
    destruct Hd as [[= ->]|[]]. apply elem_of_union. left. by apply elem_of_singleton.
Qed.

Lemma marks_finish_setup f sp st : marks st -> marks (finish_setup f sp st).
Proof.
  intros Hm d. unfold finish_setup. rewrite settle_log, settle_loadedFixtures. simpl.
  intros [Hd|[= ->]%list_elem_of_singleton]%elem_of_app; apply elem_of_union.
  - right. auto.
  - left. by apply elem_of_singleton.
Qed.

Lemma marks_load_each (loadf : string -> State -> nat * State) :
  (∀ n st r st', loadf n st = (r, st') -> marks st -> marks st') ->
  ∀ deps st r st', load_each loadf deps st = (r, st') -> marks st -> marks st'.
Proof.
  intros Hf. induction deps as [|dep rest IH]; intros st r st' Hl Hm; simpl in Hl.
  - by injection Hl as <- <-.
  - destruct (loadf dep st) as [p st1] eqn:Hdep.
    destruct (load_each loadf rest st1) as [ps st2] eqn:Hrest.
    injection Hl as <- <-. eapply IH; eauto.
Qed.

Lemma marks_load depth :
  ∀ n st r st', load depth n st = (r, st') -> marks st -> marks st'.
Proof.
  induction depth as [|depth IH]; intros n st r st' Hl Hm; simpl in Hl.
  { injection Hl as <- <-. eapply marks_heap_only; [|done].
    eapply heap_only_trans; [|apply settle_heap_only]. by repeat split. }
  destruct (fixtures st !! n) as [fx|].
  2:{ injection Hl as <- <-. eapply marks_heap_only; [|done].
      eapply heap_only_trans; [|apply settle_heap_only]. by repeat split. }
  destruct (setupPromises st !! n).
  { injection Hl as <- <-. eapply marks_heap_only; [|done]. by repeat split. }
  case_decide.
  { injection Hl as <- <-. eapply marks_heap_only; [|done].
    eapply heap_only_trans; [|apply settle_heap_only]. by repeat split. }
  destruct (dependencies fx) as [deps|].
  - destruct (load_each (load depth) deps _) as [ps st1] eqn:Heach.
    destruct (promise_all ps st1) as [all st2] eqn:Hall. injection Hl as <- <-.
    eapply marks_heap_only; [apply subscribe_heap_only|].
    eapply marks_heap_only.
    { pose proof (promise_all_heap_only ps st1) as H1. by rewrite Hall in H1. }
    eapply marks_load_each; [exact IH|exact Heach|].
    eapply marks_heap_only; [|done]. by repeat split.
  - injection Hl as <- <-. apply marks_run_setup.
    eapply marks_heap_only; [|done]. by repeat split.
Qed.

Lemma marks_run_microtask m rest st :
  marks st -> marks (run_microtask m (with_microtasks (λ _, rest) st)).
Proof.
  intros Hm.
  assert (marks (with_microtasks (λ _, rest) st)) as Hm0.
  { eapply marks_heap_only; [|done]. by repeat split. }
  destruct m as [[f fx res|f sp|f res|a|t] [|e]|t s]; simpl;
    try (eapply marks_heap_only; [apply settle_heap_only|done]).
  - by apply marks_run_setup.
  - by apply marks_finish_setup.
  - eapply marks_heap_only; [apply element_fulfilled_heap_only|done].
  - eapply marks_heap_only; [apply subscribe_heap_only|done].
Qed.

Lemma marks_settle_setup i o st : marks st -> marks (settle_setup i o st).
Proof.
  intros Hm. unfold settle_setup.
  destruct (setupCalls st !! i) as [[f q]|]; [|done].
  destruct (is_pending q st); [|done].
  destruct o as [|e]; (eapply marks_heap_only; [apply settle_heap_only|]); [|done].
  intros d. simpl. intros [Hd|[=]%list_elem_of_singleton]%elem_of_app. auto.
Qed.

Lemma marks_loading st st' : loading st st' -> marks st -> marks st'.
Proof.
  intros [cfg r st1 Hreg|depth n r st1 Hl|m rest Hq|i o] Hm.
  - unfold register in Hreg. by destruct (fixtures st !! name cfg); injection Hreg as <- <-.
  - by eapply marks_load.
  - by apply marks_run_microtask.
  - by apply marks_settle_setup.
Qed.

Lemma drain_loading fuel :
  ∀ st st', drain fuel st = Some st' -> rtc loading st st'.
Proof.
  induction fuel as [|fuel IH]; intros st st' Hd; simpl in Hd;
    destruct (microtasks st) as [|m rest] eqn:Hm; try discriminate.
  - injection Hd as <-. done.
  - injection Hd as <-. done.
  - eapply rtc_l; [|by apply IH]. by apply loading_microtask.
Qed.

(** While fixtures are only loaded (registrations, calls of [load] that
    may overlap, the jobs of the microtask queue, setups ending or
    failing; no [unload], no [reset]), at every moment each loaded
    fixture has all the dependencies it declares loaded: [isLoaded] of a
    fixture implies [isLoaded] of its dependencies. *)
Theorem loaded_fixture_has_dependencies_loaded fs st :
  rtc loading (initial fs) st -> deps_loaded st.
Proof.
  intros Hrun.
  assert (marks st) as Hmarks.
  { apply rtc_nsteps in Hrun as [n Hrun]. revert st Hrun.
    induction n as [|n IH]; intros st Hrun.
    - inversion Hrun; subst. intros d Hd. simpl in Hd. by apply elem_of_nil in Hd.
    - apply nsteps_inv_r in Hrun as (st1 & Hrun & Hstep).
      eapply marks_loading; eauto. }
  destruct (inv_reachable fs st) as (L & loaded & Hinv).
  { eapply rtc_subrel; [|exact Hrun]. apply loading_operation. }
  intros f d Hf (fx & Hfx & Hd).
  apply (inv_loaded _ _ _ _ Hinv), (inv_marked _ _ _ _ Hinv) in Hf.
  apply list_elem_of_split in Hf as (l1 & l2 & Hlog).
  destruct (inv_log _ _ _ _ Hinv l1 l2 (Loaded f) f Hlog eq_refl) as (fx' & Hfx' & Hall).
  rewrite Hfx in Hfx'. injection Hfx' as <-.
  apply Hmarks. rewrite Hlog. apply elem_of_app. left. auto.
Qed.

Lemma loaded_fixture_has_dependencies_loaded_witness :
  let st0 := default shared_dependency (drain 64 (load 8 "x" shared_dependency).2) in
  let st := default shared_dependency (drain 64 (settle_setup 0 Fulfilled st0)) in
  isLoaded "f" st = true ∧ deps_loaded st.
Proof.
  intros st0 st.
  assert (isLoaded "f" st = true) as Hloaded by (vm_compute; reflexivity).
  split; [exact Hloaded|].
  apply (loaded_fixture_has_dependencies_loaded (fixtures shared_dependency) st).
  eapply rtc_l; [eapply (loading_load _ 8 "x"); apply surjective_pairing|].
  transitivity st0; [apply (drain_loading 64); by vm_compute|].
  eapply rtc_l; [apply (loading_settle_setup _ 0 Fulfilled)|].
  apply (drain_loading 64). by vm_compute.
Defined.

(** *** Fixtures that are never set up *)

(** A fixture that was marked loaded was registered. *)
Lemma log_ok_registered fs events d :
  log_ok fs events -> Loaded d ∈ events -> is_Some (fs !! d).
Proof.
  intros Hok (l1 & l2 & Hlog)%list_elem_of_split.
  destruct (Hok l1 l2 (Loaded d) d Hlog eq_refl) as (fx & Hfx & _). by exists fx.
Qed.

(** No fixture of a dependency cycle was marked loaded. *)
Lemma log_ok_cycle fs events (C : gset string) :
  log_ok fs events ->
  (∀ n, n ∈ C -> ∃ fx m, fs !! n = Some fx ∧ m ∈ default [] (dependencies fx) ∧ m ∈ C) ->
  ∀ k l1 l2 n, length l1 < k -> n ∈ C -> events ≠ l1 ++ Loaded n :: l2.
Proof.
  intros Hok Hcyc. induction k as [|k IH]; intros l1 l2 n Hlen Hn Hlog; [lia|].
  destruct (Hcyc n Hn) as (fx & m & Hfx & Hm & HmC).
  destruct (Hok l1 l2 (Loaded n) n Hlog eq_refl) as (fx' & Hfx' & Hall).
  rewrite Hfx in Hfx'. injection Hfx' as <-.
  apply Hall, list_elem_of_split in Hm as (l3 & l4 & ->).
  apply (IH l3 (l4 ++ Loaded n :: l2) m); [|done|].
  - rewrite length_app in Hlen. simpl in Hlen. lia.
  - by rewrite Hlog, <-(assoc_L (++)).
Qed.

(** A fixture that declares a dependency which is not registered is never
    set up: whatever is done with the manager, its [setup] callback is not
    invoked and it is not marked loaded, as long as the dependency is not
    registered. *)
Theorem unregistered_dependency_blocks_setup fs st f fx d :
  rtc operation (initial fs) st ->
  fixtures st !! f = Some fx ->
  d ∈ default [] (dependencies fx) ->
  fixtures st !! d = None ->
  (SetupStart f ∉ log st) ∧ (Loaded f ∉ log st) ∧ isLoaded f st = false.
Proof.
  intros Hops Hfx Hd Hnone.
  destruct (inv_reachable _ _ Hops) as (L & loaded & Hinv).
  pose proof (inv_log _ _ _ _ Hinv) as Hok.
  assert (∀ ev, ordered_event ev = Some f -> ev ∉ log st) as Hnot.
  { intros ev Hev (l1 & l2 & Hlog)%list_elem_of_split.
    destruct (Hok l1 l2 ev f Hlog Hev) as (fx' & Hfx' & Hall).
    rewrite Hfx in Hfx'. injection Hfx' as <-.
    destruct (log_ok_registered _ _ d Hok) as [fd Hfd]; [|congruence].
    rewrite Hlog. apply elem_of_app. left. auto. }
  split_and!; [by apply Hnot|by apply Hnot|].
  apply bool_decide_eq_false. intros Hin.
  apply (Hnot (Loaded f) eq_refl).
  by apply (inv_marked _ _ _ _ Hinv), (inv_loaded _ _ _ _ Hinv).
Qed.

(** [seedData] depends on [db], which is not registered. *)
Definition db_missing : State :=
  initial (registry [fixture "seedData" (Some ["db"]) (Some SetupCompletes)]).

Lemma unregistered_dependency_blocks_setup_witness :
  let st := default db_missing (drain 64 (load 8 "seedData" db_missing).2) in
  status_of 0 st = Some (Rejected (FixtureNotFound "db"))
  ∧ (SetupStart "seedData" ∉ log st) ∧ (Loaded "seedData" ∉ log st)
  ∧ isLoaded "seedData" st = false.
Proof.
  intros st.
  assert (status_of 0 st = Some (Rejected (FixtureNotFound "db"))) as Hrejected
    by (vm_compute; reflexivity).
  split; [exact Hrejected|].
  apply (unregistered_dependency_blocks_setup
           (fixtures db_missing) st "seedData"
           (fixture "seedData" (Some ["db"]) (Some SetupCompletes)) "db").
  - eapply rtc_l.
    + apply op_step. eapply (step_load _ 8 "seedData"). apply surjective_pairing.
    + apply (drain_operations 64). by vm_compute.
  - by vm_compute.
  - by left.
  - by vm_compute.
Defined.

(** A fixture on a dependency cycle is never set up: whatever is done with
    the manager, the [setup] callback of no fixture of the cycle is
    invoked, and none of them is marked loaded. *)
Theorem dependency_cycle_blocks_setup fs st (C : gset string) f :
  rtc operation (initial fs) st ->
  cyclic st C ->
  f ∈ C ->
  (SetupStart f ∉ log st) ∧ (Loaded f ∉ log st) ∧ isLoaded f st = false.
Proof.
  intros Hops Hcyc Hf.
  destruct (inv_reachable _ _ Hops) as (L & loaded & Hinv).
  pose proof (inv_log _ _ _ _ Hinv) as Hok.
  assert (∀ n, n ∈ C ->
            ∃ fx m, fixtures st !! n = Some fx ∧ m ∈ default [] (dependencies fx) ∧ m ∈ C)
    as Hcyc'.
  { intros n Hn. destruct (Hcyc n Hn) as (fx & deps & m & Hfx & Hdeps & Hm & HmC).
    exists fx, m. by rewrite Hdeps. }
  assert (∀ n, n ∈ C -> Loaded n ∉ log st) as Hnever.
  { intros n Hn (l1 & l2 & Hlog)%list_elem_of_split.
    apply (log_ok_cycle _ _ C Hok Hcyc' (S (length l1)) l1 l2 n); [lia|done..]. }
  split_and!; [|by apply Hnever|].
  - intros (l1 & l2 & Hlog)%list_elem_of_split.
    destruct (Hcyc' f Hf) as (fx & m & Hfx & Hm & HmC).
    destruct (Hok l1 l2 (SetupStart f) f Hlog eq_refl) as (fx' & Hfx' & Hall).
    rewrite Hfx in Hfx'. injection Hfx' as <-.
    apply (Hnever m HmC). rewrite Hlog. apply elem_of_app. left. auto.
  - apply bool_decide_eq_false. intros Hin. apply (Hnever f Hf).
    by apply (inv_marked _ _ _ _ Hinv), (inv_loaded _ _ _ _ Hinv).
Qed.

Lemma dependency_cycle_blocks_setup_witness :
  let st := default cycle_after_leaf (drain 256 (load 64 "x" cycle_after_leaf).2) in
  (isLoaded "a" st = true ∧ status_of 0 st = Some (Rejected StackOverflow))
  ∧ (SetupStart "x" ∉ log st) ∧ (Loaded "x" ∉ log st) ∧ isLoaded "x" st = false.
Proof.
  intros st.
  assert (isLoaded "a" st = true ∧ status_of 0 st = Some (Rejected StackOverflow))
    as Hleaf by (split; vm_compute; reflexivity).
  split; [exact Hleaf|].
  apply (dependency_cycle_blocks_setup (fixtures cycle_after_leaf) st {["x"; "y"]} "x").
  - eapply rtc_l.
    + apply op_step. eapply (step_load _ 64 "x"). apply surjective_pairing.
    + apply (drain_operations 256). by vm_compute.
  - intros n [->%elem_of_singleton| ->%elem_of_singleton]%elem_of_union.
    + exists (fixture "x" (Some ["a"; "y"]) (Some SetupCompletes)), ["a"; "y"], "y".
      split_and!; [by vm_compute|reflexivity|by right; left|].
      apply elem_of_union. right. by apply elem_of_singleton.
    + exists (fixture "y" (Some ["x"]) (Some SetupCompletes)), ["x"], "x".
      split_and!; [by vm_compute|reflexivity|by left|].
      apply elem_of_union. left. by apply elem_of_singleton.
  - apply elem_of_union. left. by apply elem_of_singleton.
Defined.

(** *** [load] on a dependency cycle *)

(** No promise goes away, and what is settled stays as it is. *)
Definition keeps_settled (st st' : State) : Prop :=
  (length (promises st) ≤ length (promises st'))%nat
  ∧ ∀ q o, status_of q st = Some o -> status_of q st' = Some o.

Lemma keeps_settled_refl st : keeps_settled st st.
Proof. by split. Qed.

Lemma keeps_settled_trans st st1 st2 :
  keeps_settled st st1 -> keeps_settled st1 st2 -> keeps_settled st st2.
Proof. intros [H1 K1] [H2 K2]. split; [lia|auto]. Qed.

Lemma keeps_settled_same st st' :
  promises st' = promises st -> keeps_settled st st'.
Proof. intros Hp. unfold keeps_settled, status_of. by rewrite Hp. Qed.

Lemma new_promise_keeps_settled count st : keeps_settled st (new_promise count st).2.
Proof.
  unfold keeps_settled, status_of. simpl. split; [rewrite length_app; lia|].
  intros q o Hq. destruct (promises st !! q) as [pr|] eqn:Hlook; [|done].
  by rewrite (lookup_app_l_Some _ _ _ _ Hlook).
Qed.

Lemma settle_keeps_settled p o st : keeps_settled st (settle p o st).
Proof.
  unfold settle. destruct (promises st !! p) as [pr|] eqn:Hp; [|apply keeps_settled_refl].
  destruct (status pr) eqn:Hs; [apply keeps_settled_refl|].
  unfold keeps_settled, status_of. simpl. split; [by rewrite length_insert|].
  intros q o' Hq. destruct (decide (q = p)) as [->|Hne].
  - rewrite Hp in Hq. simpl in Hq. congruence.
  - by rewrite list_lookup_insert_ne.
Qed.

Lemma subscribe_keeps_settled p r st : keeps_settled st (subscribe p r st).
Proof.
  unfold subscribe. destruct (promises st !! p) as [pr|] eqn:Hp; [|apply keeps_settled_refl].
  destruct (status pr) eqn:Hs; [by apply keeps_settled_same|].
  unfold keeps_settled, status_of. simpl. split; [by rewrite length_insert|].
  intros q o' Hq. destruct (decide (q = p)) as [->|Hne].
  - rewrite Hp in Hq. simpl in Hq. congruence.
  - by rewrite list_lookup_insert_ne.
Qed.

Lemma promise_all_keeps_settled ps st : keeps_settled st (promise_all ps st).2.
Proof.
  unfold promise_all.
  pose proof (new_promise_keeps_settled (length ps) st) as Hnew.
  destruct (new_promise (length ps) st) as [all st0]. simpl in Hnew.
  destruct ps as [|p ps]; cbn [snd].
  - eapply keeps_settled_trans; [exact Hnew|apply settle_keeps_settled].
  - eapply keeps_settled_trans; [exact Hnew|]. generalize (p :: ps). clear.
    intros l. revert st0. induction l as [|x l IH]; intros st0; simpl.
    + apply keeps_settled_refl.
    + eapply keeps_settled_trans; [apply subscribe_keeps_settled|apply IH].
Qed.

Lemma run_setup_keeps_settled n fx r st : keeps_settled st (run_setup n fx r st).
Proof.
  unfold run_setup.
  pose proof (new_promise_keeps_settled 0 st) as Hnew.
  destruct (new_promise 0 st) as [sp st1]. simpl in Hnew.
  eapply keeps_settled_trans; [exact Hnew|].
  eapply keeps_settled_trans; [|apply subscribe_keeps_settled].
  eapply keeps_settled_trans; [|by apply keeps_settled_same].
  destruct (setup fx) as [behaviour|].
  - unfold invoke_setup.
    pose proof (new_promise_keeps_settled 0 (emit (SetupStart n) st1)) as Hq.
    destruct (new_promise 0 (emit (SetupStart n) st1)) as [q st2]. simpl in Hq.
    assert (keeps_settled st1 (with_setupCalls (λ calls, calls ++ [(n, q)]) st2)) as Hc.
    { eapply keeps_settled_trans; [|by apply keeps_settled_same].
      eapply keeps_settled_trans; [|exact Hq]. by apply keeps_settled_same. }
    destruct behaviour as [|msg|]; cbn [fst snd];
      (eapply keeps_settled_trans; [|apply subscribe_keeps_settled]).
    + eapply keeps_settled_trans; [|apply settle_keeps_settled].
      eapply keeps_settled_trans; [exact Hc|]. by apply keeps_settled_same.
    + eapply keeps_settled_trans; [|apply settle_keeps_settled]. exact Hc.
    + exact Hc.
  - unfold finish_setup.
    eapply keeps_settled_trans; [|apply settle_keeps_settled].
    by apply keeps_settled_same.
Qed.

Lemma load_each_keeps_settled (loadf : string -> State -> nat * State) :
  (∀ n st, keeps_settled st (loadf n st).2) ->
  ∀ deps st, keeps_settled st (load_each loadf deps st).2.
Proof.
  intros Hf. induction deps as [|dep rest IH]; intros st; simpl.
  - apply keeps_settled_refl.
  - pose proof (Hf dep st) as H1. destruct (loadf dep st) as [p st1]. simpl in H1.
    pose proof (IH st1) as H2. destruct (load_each loadf rest st1) as [ps st2].
    simpl in *. by eapply keeps_settled_trans.
Qed.

Lemma load_keeps_settled depth : ∀ n st, keeps_settled st (load depth n st).2.
Proof.
  induction depth as [|depth IH]; intros n st; simpl.
  { eapply keeps_settled_trans; [apply (new_promise_keeps_settled 0)|].
    apply settle_keeps_settled. }
  destruct (fixtures st !! n) as [fx|]; simpl.
  2:{ eapply keeps_settled_trans; [apply (new_promise_keeps_settled 0)|].
      apply settle_keeps_settled. }
  destruct (setupPromises st !! n); simpl.
  { eapply keeps_settled_trans; [apply (new_promise_keeps_settled 0)|].
    by apply keeps_settled_same. }
  case_decide; simpl.
  { eapply keeps_settled_trans; [apply (new_promise_keeps_settled 0)|].
    apply settle_keeps_settled. }
  destruct (dependencies fx) as [deps|].
  - match goal with |- context [load_each (load depth) deps ?s] =>
      pose proof (load_each_keeps_settled _ IH deps s) as Heach;
      destruct (load_each (load depth) deps s) as [ps st1] end.
    pose proof (promise_all_keeps_settled ps st1) as Hall.
    destruct (promise_all ps st1) as [all st2]. simpl in *.
    eapply keeps_settled_trans; [apply (new_promise_keeps_settled 0)|].
    eapply keeps_settled_trans; [exact Heach|].
    eapply keeps_settled_trans; [exact Hall|apply subscribe_keeps_settled].
  - simpl. eapply keeps_settled_trans; [apply (new_promise_keeps_settled 0)|].
    apply run_setup_keeps_settled.
Qed.

(** On a dependency cycle the calls of [load] nest until no call stack is
    left, whatever its depth: one of the nested calls is rejected with
    the engine's error. *)
Lemma load_on_cycle C depth :
  ∀ fixtureName st,
    cyclic st C -> untouched st C -> fixtureName ∈ C ->
    ∃ q, (length (promises st) ≤ q)%nat
         ∧ status_of q (load depth fixtureName st).2 = Some (Rejected StackOverflow).
Proof.
  induction depth as [|depth IH]; intros fixtureName st Hc Hu Hin.
  { exists (length (promises st)). split; [done|]. simpl. unfold status_of.
    rewrite promises_settle. simpl. rewrite lookup_end0. simpl.
    by rewrite insert_end0, lookup_end0. }
  destruct (Hc fixtureName Hin) as (fx & deps & m & Hfx & Hdeps & Hm & HmC).
  destruct (Hu fixtureName Hin) as [Hp Hl].
  simpl. rewrite Hfx, Hp, decide_False, Hdeps by done.
  assert (∀ st1, cyclic st1 C -> untouched st1 C ->
            ∃ q, (length (promises st1) ≤ q)%nat
                 ∧ status_of q (load_each (load depth) deps st1).2
                   = Some (Rejected StackOverflow)) as Heach.
  { clear Hfx Hdeps Hp Hl Hc Hu st.
    induction deps as [|dep rest IHdeps]; intros st Hc Hu; [by apply elem_of_nil in Hm|].
    simpl.
    pose proof (load_keeps_settled depth dep st) as [Hlen1 _].
    destruct (load depth dep st) as [p st1] eqn:Hdep. simpl in Hlen1.
    destruct (untouched_sync_frame C st st1 Hc Hu (load_sync_frame _ _ _ _ _ Hdep))
      as [Hc1 Hu1].
    pose proof (load_each_keeps_settled _ (load_keeps_settled depth) rest st1)
      as [_ Hkeep].
    apply elem_of_cons in Hm as [->|Hm].
    - destruct (IH dep st Hc Hu HmC) as (q & Hq & Hst). rewrite Hdep in Hst.
      exists q. split; [done|].
      destruct (load_each (load depth) rest st1) as [ps st2]. simpl in *. auto.
    - destruct (IHdeps Hm st1 Hc1 Hu1) as (q & Hq & Hst).
      exists q. split; [lia|].
      by destruct (load_each (load depth) rest st1) as [ps st2]. }
  match goal with |- context [load_each (load depth) deps ?s] =>
    destruct (Heach s Hc Hu) as (q & Hq & Hst);
    destruct (load_each (load depth) deps s) as [ps st1] end.
  pose proof (promise_all_keeps_settled ps st1) as [_ Hall].
  destruct (promise_all ps st1) as [all st2]. simpl in *.
  exists q. split.
  - rewrite length_app in Hq. lia.
  - by apply subscribe_keeps_settled, Hall.
Qed.

(** Every operation keeps the invariant, with the kinds the promises
    have. *)
Lemma inv_operation_from st st' L loaded :
  operation st st' -> inv (λ _, False) L loaded st ->
  inv_from L loaded st' (λ _, True).
Proof.
  intros [cfg r st1 Hreg| |st1 [depth n r st2 Hl|m rest Hm|i o|depth n r st2 Hu]] Hinv.
  - apply inv_from_here; [|done]. by eapply inv_register.
  - apply inv_from_here; [|done]. by apply inv_reset.
  - destruct (inv_load _ _ _ _ _ _ _ Hl Hinv) as (_ & L' & loaded' & ? & ? & ? & _).
    by exists L', loaded'.
  - by apply inv_run_microtask.
  - apply inv_from_here; [|done]. by apply inv_settle_setup.
  - apply inv_from_here; [|done]. by eapply inv_unload.
Qed.

Lemma inv_operations_from st st' L loaded :
  rtc operation st st' -> inv (λ _, False) L loaded st ->
  inv_from L loaded st' (λ _, True).
Proof.
  intros Hops. revert L loaded.
  induction Hops as [st|st st1 st2 Hop _ IH]; intros L loaded Hinv.
  - by apply inv_from_here.
  - destruct (inv_operation_from _ _ _ _ Hop Hinv) as (L1 & loaded1 & HL & Hl & Hinv1 & _).
    eapply inv_from_trans; [exact HL|exact Hl|]. by apply IH.
Qed.

(** No operation removes or replaces a registered fixture. *)
Lemma operations_fixtures st st' n fx :
  rtc operation st st' -> fixtures st !! n = Some fx -> fixtures st' !! n = Some fx.
Proof.
  intros Hops. induction Hops as [st|st st1 st2 Hop _ IH]; [done|]. intros Hfx.
  apply IH. destruct Hop as [c r st1 Hreg| |st1 Hstep].
  - unfold register in Hreg. destruct (fixtures st !! name c) eqn:Hc.
    + by injection Hreg as <- <-.
    + injection Hreg as <- <-. simpl. rewrite lookup_insert_ne; [done|].
      intros Heq. congruence.
  - done.
  - by rewrite (step_fixtures _ _ Hstep).
Qed.

(** Under the invariant no fixture of a dependency cycle was set up or
    marked loaded. *)
Lemma inv_cycle L loaded st (C : gset string) :
  inv (λ _, False) L loaded st -> cyclic st C ->
  ∀ n, n ∈ C -> (SetupStart n ∉ log st) ∧ (Loaded n ∉ log st) ∧ (n ∉ loaded).
Proof.
  intros Hinv Hcyc.
  pose proof (inv_log _ _ _ _ Hinv) as Hok.
  assert (∀ n, n ∈ C ->
            ∃ fx m, fixtures st !! n = Some fx ∧ m ∈ default [] (dependencies fx) ∧ m ∈ C)
    as Hcyc'.
  { intros n Hn. destruct (Hcyc n Hn) as (fx & deps & m & Hfx & Hdeps & Hm & HmC).
    exists fx, m. by rewrite Hdeps. }
  assert (∀ n, n ∈ C -> Loaded n ∉ log st) as Hnever.
  { intros n Hn (l1 & l2 & Hlog)%list_elem_of_split.
    apply (log_ok_cycle _ _ C Hok Hcyc' (S (length l1)) l1 l2 n); [lia|done..]. }
  intros n Hn. split_and!; [|by apply Hnever|].
  - intros (l1 & l2 & Hlog)%list_elem_of_split.
    destruct (Hcyc' n Hn) as (fx & m & Hfx & Hm & HmC).
    destruct (Hok l1 l2 (SetupStart n) n Hlog eq_refl) as (fx' & Hfx' & Hall).
    rewrite Hfx in Hfx'. injection Hfx' as <-.
    apply (Hnever m HmC). rewrite Hlog. apply elem_of_app. left. auto.
  - intros Hl. apply (Hnever n Hn). by apply (inv_marked _ _ _ _ Hinv).
Qed.

(** [x] depends on [a] and [y], [y] on [x]. [load("x")] invokes the setup
    of [a] and recurses through [y] and [x] until the call stack (here 64
    calls deep) is exhausted. Its promise is rejected with the engine's
    error, not with an error that names the cycle, and a setup callback
    has run. *)
Lemma load_cycle_runs_setup_and_overflows :
  ∃ p st,
    run 64 256 [[CallLoad "x"]] cycle_after_leaf = Some ([p], st)
    ∧ status_of p st = Some (Rejected StackOverflow)
    ∧ log st = [SetupStart "a"; SetupEnd "a"; Loaded "a"]
    ∧ setup_count "a" st = 1.
Proof. eexists _, _. split; [vm_compute; reflexivity|]. vm_compute. done. Qed.

(** C1 (as the code has it): [load] has no cycle detection. In a state
    the manager can reach, when the fixture belongs to a set of
    registered fixtures that each declare a dependency inside the set,
    none of them loaded or with a stored setup promise: the calls of
    [load] nest through the dependency lists until the call stack is
    exhausted, however deep it is, and a nested call is rejected with the
    engine's error. Whatever is done with the manager afterwards, the
    promise of the call is never fulfilled, the setup callback of no
    fixture of the set is invoked and none of them is loaded. *)
Theorem load_cycle_exhausts_call_stack fs C depth fixtureName st :
  rtc operation (initial fs) st ->
  cyclic st C -> untouched st C -> fixtureName ∈ C ->
  (∃ q, (length (promises st) ≤ q)%nat
        ∧ status_of q (load depth fixtureName st).2 = Some (Rejected StackOverflow))
  ∧ ∀ st', rtc operation (load depth fixtureName st).2 st' ->
      status_of (load depth fixtureName st).1 st' ≠ Some Fulfilled
      ∧ ∀ n, n ∈ C -> (SetupStart n ∉ log st') ∧ isLoaded n st' = false.
Proof.
  intros Hreach Hc Hu Hin. split; [by apply (load_on_cycle C)|].
  intros st' Hops.
  destruct (inv_reachable _ _ Hreach) as (L & loaded & Hinv).
  destruct (load depth fixtureName st) as [p st1] eqn:Hload. simpl in *.
  destruct (inv_load _ _ _ _ _ _ _ Hload Hinv)
    as (Hf1 & L1 & loaded1 & _ & _ & Hinv1 & Hp).
  destruct (inv_operations_from _ _ _ _ Hops Hinv1)
    as (L2 & loaded2 & HL2 & _ & Hinv2 & _).
  assert (cyclic st' C) as Hc'.
  { intros n Hn. destruct (Hc n Hn) as (fx & deps & m & Hfx & ?).
    exists fx, deps, m. split; [|done].
    apply (operations_fixtures st1 st'); [done|]. by rewrite Hf1. }
  pose proof (inv_cycle _ _ _ C Hinv2 Hc') as Hnever.
  split.
  - intros Hfulfilled. destruct (Hnever fixtureName Hin) as (_ & _ & Hnot).
    apply Hnot. unfold status_of in Hfulfilled.
    destruct (inv_lookup _ _ _ _ p (KResult fixtureName) Hinv2 (HL2 _ _ Hp))
      as (pr & Hpr & Hok & _).
    rewrite Hpr in Hfulfilled. simpl in Hfulfilled. by apply (Hok Fulfilled).
  - intros n Hn. destruct (Hnever n Hn) as (Hstart & Hmarked & Hnot).
    split; [done|]. apply bool_decide_eq_false. intros Hl. apply Hnot.
    by apply (inv_loaded _ _ _ _ Hinv2).
Qed.

Lemma load_cycle_exhausts_call_stack_witness :
  let st1 := (load 64 "x" x_y_cycle).2 in
  drain 256 st1 ≫= status_of 0 = Some (Rejected StackOverflow)
  ∧ (∃ q, (length (promises x_y_cycle) ≤ q)%nat
          ∧ status_of q st1 = Some (Rejected StackOverflow))
  ∧ ∀ st', rtc operation st1 st' ->
      status_of (load 64 "x" x_y_cycle).1 st' ≠ Some Fulfilled
      ∧ ∀ n, n ∈ ({["x"; "y"]} : gset string) ->
             (SetupStart n ∉ log st') ∧ isLoaded n st' = false.
Proof.
  intros st1.
  assert (drain 256 st1 ≫= status_of 0 = Some (Rejected StackOverflow))
    as Hrejected by (vm_compute; reflexivity).
  split; [exact Hrejected|]. clear Hrejected. unfold st1. clear st1.
  apply (load_cycle_exhausts_call_stack (fixtures x_y_cycle) {["x"; "y"]} 64 "x"
           x_y_cycle).
  - exact (rtc_refl _ _).
  - intros n [->%elem_of_singleton| ->%elem_of_singleton]%elem_of_union.
    + exists (fixture "x" (Some ["y"]) (Some SetupCompletes)), ["y"], "y".
      split_and!; [reflexivity|reflexivity|by left|].
      apply elem_of_union. right. by apply elem_of_singleton.
    + exists (fixture "y" (Some ["x"]) (Some SetupCompletes)), ["x"], "x".
      split_and!; [reflexivity|reflexivity|by left|].
      apply elem_of_union. left. by apply elem_of_singleton.
  - intros n _. split; [reflexivity|]. apply not_elem_of_empty.
  - apply elem_of_union. left. by apply elem_of_singleton.
Defined.

End Fixture.
